(** * Simhash near-duplicate detection: a shallow embedding

    This development embeds [src/simhash.cpp] (namespace [Simhash]), and
    from the command-line front end [src/main.cpp] the token loop of
    [read_hashes] and the argument checks of [main], and proves properties
    of the embedded functions.

    Conventions of the embedding:
    - [hash_t] ([uint64_t]) is a [Z] in the range [0, 2^64); every
      operation that can leave the range in C++ wraps with [wrap64].
    - [size_t] parameters (number of blocks, differing bits, vector
      indices) are [nat]; no arithmetic on them can overflow before the
      range checks of [create] reject the call.
    - [int] loop counters of the [Permutation] constructor are [Z].
    - [std::vector] is [list]; [std::unordered_set] is [gset];
      [std::unordered_map] is [gmap].  The iteration order of the
      unordered containers is not fixed by C++: where a result can depend
      on it, the order is a parameter of the model.
    - [throw std::invalid_argument] is the constructor [InvalidArgument]
      of [result]; [std::out_of_range] thrown by [std::string::substr] is
      the constructor [OutOfRange] of [outcome].
    - [std::string] is a list of bytes; the Jenkins hash of [jenkins.h] is
      a parameter of the model.
    - Loops with no syntactic bound ([while (true)] in [choose], the
      breadth-first loop of [find_clusters]) take a fuel argument and
      return [None] when the fuel runs out.  Loops bounded by the word
      size or by the length of a buffer recurse on that bound. *)

From Stdlib Require Import ZArith Lia Bool.
From stdpp Require Import base list gmap sets sorting.

Module Simhash.

Local Open Scope Z_scope.

(** ** Machine integers *)

(** [static const size_t BITS = sizeof(hash_t) * 8]. *)
Definition BITS : nat := 64.

(** Truncation of an unsigned 64-bit result. *)
Definition wrap64 (z : Z) : Z := z mod 2 ^ 64.

(** The values of type [hash_t]. *)
Definition is_hash (h : Z) : Prop := 0 <= h < 2 ^ 64.

(** Two's complement wrap-around of a [long] (64 bits on the LP64 targets
    the repository builds for). *)
Definition wrap_long (z : Z) : Z := (z + 2 ^ 63) mod 2 ^ 64 - 2 ^ 63.

(** Outcome of a call that may throw [std::invalid_argument]. *)
Inductive result (A : Type) : Type :=
| Ok (a : A)
| InvalidArgument.
Arguments Ok {A} a.
Arguments InvalidArgument {A}.

(** ** [num_differing_bits] *)

(** The loop [while (n) { ++count; n = n & (n - 1); }].  Every iteration
    clears one set bit, so [BITS] iterations always suffice for a 64-bit
    value (lemma [ndb_loop_popcount]); the fuel only makes the recursion
    structural. *)
Fixpoint ndb_loop (fuel : nat) (n : Z) (count : nat) : nat :=
  match fuel with
  | O => count
  | S fuel' =>
      if n =? 0 then count
      else ndb_loop fuel' (Z.land n (wrap64 (n - 1))) (S count)
  end.

Definition num_differing_bits (a b : Z) : nat :=
  ndb_loop BITS (Z.lxor a b) 0.

(** ** [compute] *)

(** Inner loop of [compute]: one pass over the 64 bits of [hash],
    [counts[i] += (hash & 1) ? 1 : -1; hash >>= 1]. *)
Definition count_step (st : list Z * Z) (i : nat) : list Z * Z :=
  let '(counts, hash) := st in
  (<[i := wrap_long (counts !!! i + (if Z.land hash 1 =? 0 then -1 else 1))]> counts,
   Z.shiftr hash 1).

Definition count_hash (counts : list Z) (hash : Z) : list Z :=
  (fold_left count_step (seq 0 BITS) (counts, hash)).1.

(** Final loop of [compute]:
    [if (counts[i] > 0) result |= (hash_t(1) << i)]. *)
Definition result_step (counts : list Z) (result : Z) (i : nat) : Z :=
  if 0 <? counts !!! i
  then Z.lor result (wrap64 (Z.shiftl 1 (Z.of_nat i)))
  else result.

Definition compute (hashes : list Z) : Z :=
  let counts := fold_left count_hash hashes (replicate BITS 0) in
  fold_left (result_step counts) (seq 0 BITS) 0.

(** ** [Permutation] *)

Record Permutation : Type := mkPerm {
  forward_masks : list Z;
  reverse_masks : list Z;
  offsets : list Z;
  search_mask_ : Z
}.

(** [for (i = 0; !((1UL << i) & mask); ++i)].  The C++ loop has no bound
    and is undefined for a mask without a set bit; the model stops at
    [i = 64].  Every mask of the family has a set bit
    (lemmas [range_scan] and [make_blocks_partition]). *)
Fixpoint scan_low (fuel : nat) (i : Z) (mask : Z) : Z :=
  match fuel with
  | O => i
  | S fuel' =>
      if Z.land (Z.shiftl 1 i) mask =? 0 then scan_low fuel' (i + 1) mask
      else i
  end.

(** [for (j = i; j < 64 && ((1UL << j) & mask); ++j)]. *)
Fixpoint scan_high (fuel : nat) (j : Z) (mask : Z) : Z :=
  match fuel with
  | O => j
  | S fuel' =>
      if (j <? 64) && negb (Z.land (Z.shiftl 1 j) mask =? 0)
      then scan_high fuel' (j + 1) mask
      else j
  end.

(** State of the first constructor loop: the running [width], and the
    vectors [widths], [reverse_masks] and [offsets] built so far. *)
Record ctor_state : Type := mkCtor {
  cs_width : Z;
  cs_widths : list Z;
  cs_reverse_masks : list Z;
  cs_offsets : list Z
}.

Definition ctor_step (st : ctor_state) (mask : Z) : ctor_state :=
  let i := scan_low BITS 0 mask in
  let j := scan_high BITS i mask in
  let width := cs_width st + (j - i) in
  let offset := 64 - width - i in
  {| cs_width := width;
     cs_widths := cs_widths st ++ [j - i];
     cs_reverse_masks :=
       cs_reverse_masks st ++
         [if 0 <? offset then wrap64 (Z.shiftl mask offset)
          else Z.shiftr mask (- offset)];
     cs_offsets := cs_offsets st ++ [offset] |}.

(** [for (width = 0; different_bits < widths.size();
         ++different_bits, ++width_it) width += *width_it]. *)
Fixpoint leading_width (different_bits size : nat) (width_it : list Z)
    (width : Z) : Z :=
  match width_it with
  | [] => width
  | w :: width_it' =>
      if (different_bits <? size)%nat
      then leading_width (S different_bits) size width_it' (width + w)
      else width
  end.

(** The two loops that build [search_mask_] from [width]. *)
Definition make_search_mask (width : Z) : Z :=
  let ones :=
    Nat.iter (Z.to_nat width) (fun s => Z.lor (wrap64 (Z.shiftl s 1)) 1) 0 in
  Nat.iter (Z.to_nat (64 - width)) (fun s => wrap64 (Z.shiftl s 1)) ones.

(** [Permutation::Permutation(different_bits, masks)]. *)
Definition new_Permutation (different_bits : nat) (masks : list Z)
    : Permutation :=
  let st := fold_left ctor_step masks (mkCtor 0 [] [] []) in
  let width :=
    leading_width different_bits (length (cs_widths st)) (cs_widths st) 0 in
  {| forward_masks := masks;
     reverse_masks := cs_reverse_masks st;
     offsets := cs_offsets st;
     search_mask_ := make_search_mask width |}.

(** Loop body of [apply]. *)
Definition apply_step (hash : Z) (result : Z) (mo : Z * Z) : Z :=
  let '(mask, offset) := mo in
  if 0 <? offset
  then Z.lor result (wrap64 (Z.shiftl (Z.land hash mask) offset))
  else Z.lor result (Z.shiftr (Z.land hash mask) (- offset)).

Definition apply (p : Permutation) (hash : Z) : Z :=
  fold_left (apply_step hash) (zip (forward_masks p) (offsets p)) 0.

(** Loop body of [reverse]. *)
Definition reverse_step (hash : Z) (result : Z) (mo : Z * Z) : Z :=
  let '(mask, offset) := mo in
  if 0 <? offset
  then Z.lor result (Z.shiftr (Z.land hash mask) offset)
  else Z.lor result (wrap64 (Z.shiftl (Z.land hash mask) (- offset))).

Definition reverse (p : Permutation) (hash : Z) : Z :=
  fold_left (reverse_step hash) (zip (reverse_masks p) (offsets p)) 0.

Definition search_mask (p : Permutation) : Z := search_mask_ p.

(** ** [Permutation::choose] *)

Local Open Scope nat_scope.

(** [for (; i >= 0; --i) if (indices[i] != i + n - r) break;] started at
    [i = k - 1]; [None] stands for [i < 0]. *)
Fixpoint find_pivot (indices : list nat) (n r : nat) (k : nat) : option nat :=
  match k with
  | O => None
  | S i =>
      if (indices !!! i) =? i + n - r then find_pivot indices n r i
      else Some i
  end.

(** [indices[i] += 1; for (j = i + 1; j < r; ++j)
      indices[j] = indices[j - 1] + 1]. *)
Definition advance (indices : list nat) (i r : nat) : list nat :=
  fold_left (fun ind j => <[j := (ind !!! (j - 1)) + 1]> ind)
    (seq (i + 1) (r - (i + 1)))
    (<[i := (indices !!! i) + 1]> indices).

(** [for (j = 0; j < r; ++j) result[j] = population[indices[j]]]. *)
Definition select (population : list Z) (indices : list nat) (r : nat)
    (result : list Z) : list Z :=
  fold_left (fun res j => <[j := population !!! (indices !!! j)]> res)
    (seq 0 r) result.

(** The [while (true)] loop. *)
Fixpoint choose_loop (fuel : nat) (population : list Z) (n r : nat)
    (indices : list nat) (result : list Z) (results : list (list Z))
    : option (list (list Z)) :=
  match fuel with
  | O => None
  | S fuel' =>
      match find_pivot indices n r r with
      | None => Some results
      | Some i =>
          let indices := advance indices i r in
          let result := select population indices r result in
          choose_loop fuel' population n r indices result (results ++ [result])
      end
  end.

Definition choose (fuel : nat) (population : list Z) (r : nat)
    : option (result (list (list Z))) :=
  let n := length population in
  if n <? r then Some InvalidArgument
  else
    let indices :=
      fold_left (fun ind i => <[i := i]> ind) (seq 0 r) (replicate r 0) in
    let result := select population indices r (replicate r 0%Z) in
    match choose_loop fuel population n r indices result [result] with
    | None => None
    | Some results => Some (Ok results)
    end.

(** ** [Permutation::create] *)

(** The mask of block [i]: bits [start .. end - 1] set one by one. *)
Definition block_mask (number_of_blocks i : nat) : Z :=
  let start := (i * BITS) / number_of_blocks in
  let end_ := ((i + 1) * BITS) / number_of_blocks in
  fold_left (fun mask j => Z.lor mask (wrap64 (Z.shiftl 1 (Z.of_nat j))))
    (seq start (end_ - start)) 0%Z.

Definition make_blocks (number_of_blocks : nat) : list Z :=
  map (block_mask number_of_blocks) (seq 0 number_of_blocks).

(** [for (hash_t block : blocks)
      if (find(choice.begin(), choice.end(), block) == choice.end())
        choice.push_back(block);] *)
Definition add_remaining (blocks choice : list Z) : list Z :=
  fold_left
    (fun choice block =>
       if bool_decide (block ∈ choice) then choice else choice ++ [block])
    blocks choice.

Definition create (fuel : nat) (number_of_blocks different_bits : nat)
    : option (result (list Permutation)) :=
  if BITS <? number_of_blocks then Some InvalidArgument
  else if number_of_blocks <=? different_bits then Some InvalidArgument
  else
    let blocks := make_blocks number_of_blocks in
    let count := number_of_blocks - different_bits in
    match choose fuel blocks count with
    | None => None
    | Some InvalidArgument => Some InvalidArgument
    | Some (Ok choices) =>
        Some (Ok (map (fun choice =>
                         new_Permutation different_bits
                           (add_remaining blocks choice)) choices))
    end.

(** ** [find_all] *)

Definition match_t : Type := Z * Z.

(** [std::sort(copy.begin(), copy.end())] on unsigned 64-bit keys.  The
    sorted arrangement of a vector of integers is unique
    (lemma [sorted_perm_unique]), so the insertion sort below yields the
    very vector [std::sort] produces. *)
Fixpoint sort_insert (x : Z) (l : list Z) : list Z :=
  match l with
  | [] => [x]
  | y :: l' => if (x <=? y)%Z then x :: l else y :: sort_insert x l'
  end.

Definition sort (l : list Z) : list Z := foldr sort_insert [] l.

(** [for (; end != copy.end() && ( *end & mask) == prefix; ++end)]:
    splits the buffer at [end], returning the run [start .. end) and the
    remainder. *)
Fixpoint split_run (mask prefix : Z) (l : list Z) : list Z * list Z :=
  match l with
  | [] => ([], [])
  | x :: l' =>
      if (Z.land x mask =? prefix)%Z
      then let '(run, rest) := split_run mask prefix l' in (x :: run, rest)
      else ([], l)
  end.

(** Body of the innermost loop: the distance test and the insertion of the
    canonical pair of the un-permuted values. *)
Definition compare_pair (p : Permutation) (different_bits : nat) (a : Z)
    (results : gset match_t) (b : Z) : gset match_t :=
  if num_differing_bits a b <=? different_bits
  then
    let a_raw := reverse p a in
    let b_raw := reverse p b in
    results ∪ {[ (Z.min a_raw b_raw, Z.max a_raw b_raw) ]}
  else results.

(** [for (a = start; a != end; ++a) for (b = a + 1; b != end; ++b)].
    The OpenMP pragma distributes the iterations of the outer loop over
    threads; insertions are serialised by the mutex and commute, so the
    sequential order is modelled. *)
Fixpoint compare_run (p : Permutation) (different_bits : nat)
    (run : list Z) (results : gset match_t) : gset match_t :=
  match run with
  | [] => results
  | a :: run' =>
      compare_run p different_bits run'
        (fold_left (compare_pair p different_bits a) run' results)
  end.

(** [while (start != copy.end())].  Each iteration advances [start] by at
    least one element, so the length of the buffer bounds the number of
    iterations; [fuel] is instantiated with it in [process_permutation]. *)
Fixpoint sweep (fuel : nat) (p : Permutation) (different_bits : nat)
    (mask : Z) (start : list Z) (results : gset match_t) : gset match_t :=
  match fuel with
  | O => results
  | S fuel' =>
      match start with
      | [] => results
      | first :: _ =>
          let prefix := Z.land first mask in
          let '(run, rest) := split_run mask prefix start in
          sweep fuel' p different_bits mask rest
            (compare_run p different_bits run results)
      end
  end.

(** Body of the loop over the permutations. *)
Definition process_permutation (hashes : list Z) (different_bits : nat)
    (results : gset match_t) (p : Permutation) : gset match_t :=
  let copy := sort (map (apply p) hashes) in
  sweep (length copy) p different_bits (search_mask p) copy results.

(** [find_all].  [hashes] is the content of the [unordered_set] in its
    iteration order. *)
Definition find_all_list (fuel : nat) (hashes : list Z)
    (number_of_blocks different_bits : nat)
    : option (result (gset match_t)) :=
  match create fuel number_of_blocks different_bits with
  | None => None
  | Some InvalidArgument => Some InvalidArgument
  | Some (Ok permutations) =>
      Some (Ok (fold_left (process_permutation hashes different_bits)
                  permutations ∅))
  end.

Definition find_all (fuel : nat) (hashes : gset Z)
    (number_of_blocks different_bits : nat)
    : option (result (gset match_t)) :=
  find_all_list fuel (elements hashes) number_of_blocks different_bits.

(** ** [find_clusters] *)

Definition cluster_t : Type := gset Z.
Definition clusters_t : Type := list cluster_t.

(** [nodes[k]] and [visited[k]] read through [operator[]], which yields a
    value-initialised entry ([∅], [false]) for an absent key. *)
Definition nodes_at (nodes : gmap Z (gset Z)) (k : Z) : gset Z :=
  default ∅ (nodes !! k).

Definition visited_at (visited : gmap Z bool) (k : Z) : bool :=
  default false (visited !! k).

(** Body of the loop that builds the graph. *)
Definition add_match (st : gmap Z (gset Z) * gmap Z bool) (m : match_t)
    : gmap Z (gset Z) * gmap Z bool :=
  let '(nodes, visited) := st in
  let nodes := <[m.1 := nodes_at nodes m.1 ∪ {[m.2]}]> nodes in
  let nodes := <[m.2 := nodes_at nodes m.2 ∪ {[m.1]}]> nodes in
  let visited := <[m.1 := false]> visited in
  let visited := <[m.2 := false]> visited in
  (nodes, visited).

(** [for (hash_t hash : nodes[neighbor])
      if (!visited[hash]) { frontier.push_back(hash); visited[hash] = true; }] *)
Definition push_unvisited (st : list Z * gmap Z bool) (hash : Z)
    : list Z * gmap Z bool :=
  let '(frontier, visited) := st in
  if visited_at visited hash then (frontier, visited)
  else (frontier ++ [hash], <[hash := true]> visited).

Section Clusters.
(** Iteration orders of the unordered containers: any enumeration of the
    elements. *)
Variable set_order : gset Z → list Z.
Variable map_order : gmap Z (gset Z) → list (Z * gset Z).
Variable matches_order : gset match_t → list match_t.

(** [while (!frontier.empty())]. *)
Fixpoint bfs (fuel : nat) (nodes : gmap Z (gset Z)) (frontier : list Z)
    (cluster : gset Z) (visited : gmap Z bool)
    : option (gset Z * gmap Z bool) :=
  match fuel with
  | O => None
  | S fuel' =>
      match frontier with
      | [] => Some (cluster, visited)
      | neighbor :: frontier =>
          let cluster := cluster ∪ {[neighbor]} in
          let visited := <[neighbor := true]> visited in
          let '(frontier, visited) :=
            fold_left push_unvisited (set_order (nodes_at nodes neighbor))
              (frontier, visited) in
          bfs fuel' nodes frontier cluster visited
      end
  end.

(** Body of [for (const auto &node : nodes)]. *)
Definition visit_node (fuel : nat) (nodes : gmap Z (gset Z))
    (st : option (gmap Z bool * clusters_t)) (node : Z * gset Z)
    : option (gmap Z bool * clusters_t) :=
  match st with
  | None => None
  | Some (visited, clusters) =>
      if visited_at visited node.1 then Some (visited, clusters)
      else
        let visited := <[node.1 := true]> visited in
        match bfs fuel nodes (set_order node.2) {[node.1]} visited with
        | None => None
        | Some (cluster, visited) => Some (visited, clusters ++ [cluster])
        end
  end.

(** The part of [find_clusters] that follows the call of [find_all]. *)
Definition clusters_of (fuel : nat) (matches : gset match_t)
    : option clusters_t :=
  let '(nodes, visited) :=
    fold_left add_match (matches_order matches) (∅, ∅) in
  match fold_left (visit_node fuel nodes) (map_order nodes)
          (Some (visited, [])) with
  | None => None
  | Some (_, clusters) => Some clusters
  end.

Definition find_clusters (fuel : nat) (hashes : gset Z)
    (number_of_blocks different_bits : nat) : option (result clusters_t) :=
  match find_all fuel hashes number_of_blocks different_bits with
  | None => None
  | Some InvalidArgument => Some InvalidArgument
  | Some (Ok matches) =>
      match clusters_of fuel matches with
      | None => None
      | Some clusters => Some (Ok clusters)
      end
  end.
End Clusters.

(** ** Specification-level notions *)

(** Number of set bits of [h] among the positions [start .. start+len-1]. *)
Fixpoint count_bits (h : Z) (start : Z) (len : nat) : nat :=
  match len with
  | O => 0
  | S len' =>
      (if Z.testbit h start then 1 else 0) + count_bits h (start + 1) len'
  end.

(** Population count of a 64-bit word. *)
Definition popcount (h : Z) : nat := count_bits h 0 BITS.

(** Number of feature hashes that have bit [i] set. *)
Definition votes (i : Z) (hashes : list Z) : nat :=
  length (List.filter (fun h => Z.testbit h i) hashes).

(** The signed count [c_i]: [+1] for a set bit, [-1] for a clear one. *)
Definition signed_count (i : Z) (hashes : list Z) : Z :=
  foldr (fun h c => (c + (if Z.testbit h i then 1 else -1))%Z) 0%Z hashes.

(** Binomial coefficient [C(n, k)] by Pascal's rule. *)
Fixpoint binomial (n k : nat) : nat :=
  match n, k with
  | _, O => 1
  | O, S _ => 0
  | S n', S k' => binomial n' k' + binomial n' k
  end.

(** The [r]-element combinations of [l]: the sub-sequences of length [r],
    in lexicographic order of the chosen positions. *)
Fixpoint combs {A : Type} (r : nat) (l : list A) : list (list A) :=
  match l with
  | [] => match r with O => [[]] | S _ => [] end
  | x :: l' =>
      match r with
      | O => [[]]
      | S r' => map (cons x) (combs r' l') ++ combs r l'
      end
  end.

(** Successor of an increasing index vector among the combinations of
    [{0, .., n-1}], by recursion on the vector: advance the tail if
    possible, otherwise bump the head and restart the tail right after
    it. *)
Fixpoint next_comb (n : nat) (indices : list nat) : option (list nat) :=
  match indices with
  | [] => None
  | a :: rest =>
      match next_comb n rest with
      | Some rest' => Some (a :: rest')
      | None =>
          if a =? n - length indices then None
          else Some (seq (a + 1) (length indices))
      end
  end.

(** [comb_trace n idx l]: [l] lists the index vectors visited from [idx]
    by repeating [next_comb] until it fails. *)
Inductive comb_trace (n : nat) : list nat → list (list nat) → Prop :=
| comb_trace_end idx :
    next_comb n idx = None → comb_trace n idx [idx]
| comb_trace_step idx idx' l :
    next_comb n idx = Some idx' → comb_trace n idx' l →
    comb_trace n idx (idx :: l).

(** [is_range m s e]: the set bits of [m] are exactly the positions
    [s .. e-1], a non-empty run inside the 64-bit word. *)
Definition is_range (m s e : Z) : Prop :=
  (0 <= s /\ s < e /\ e <= 64 /\
   forall k, 0 <= k -> Z.testbit m k = (s <=? k) && (k <? e))%Z.

(** The values [i] and [j] the constructor finds for a mask, and the
    width [j - i]. *)
Definition mask_lo (m : Z) : Z := scan_low BITS 0 m.
Definition mask_hi (m : Z) : Z := scan_high BITS (mask_lo m) m.
Definition mask_width (m : Z) : Z := (mask_hi m - mask_lo m)%Z.

Global Arguments mask_lo : simpl never.
Global Arguments mask_hi : simpl never.
Global Arguments mask_width : simpl never.

(** A block mask: one contiguous run of set bits. *)
Definition contiguous (m : Z) : Prop := is_range m (mask_lo m) (mask_hi m).

Definition total_width (masks : list Z) : Z :=
  foldr (fun m acc => (mask_width m + acc)%Z) 0%Z masks.

(** The pairs (mask, offset) the constructor derives from a list of masks
    when the running width starts at [width]. *)
Fixpoint layout (width : Z) (masks : list Z) {struct masks}
    : list (Z * Z) :=
  match masks with
  | [] => []
  | m :: masks' =>
      (m, (64 - (width + mask_width m) - mask_lo m)%Z)
        :: layout (width + mask_width m) masks'
  end.

(** A list of block masks that tiles the 64 bit positions. *)
Definition partition64 (masks : list Z) : Prop :=
  Forall contiguous masks /\
  NoDup masks /\
  (forall m1 m2 k, m1 ∈ masks -> m2 ∈ masks ->
     Z.testbit m1 k = true -> Z.testbit m2 k = true -> m1 = m2) /\
  (forall k, (0 <= k < 64)%Z -> exists m, m ∈ masks /\ Z.testbit m k = true) /\
  total_width masks = 64%Z.

(** The permutation family as the specification describes it: one
    permutation per combination of [B - d] blocks, whose block order is
    the chosen blocks followed by the remaining ones. *)
Definition family_masks (number_of_blocks : nat) (choice : list Z) : list Z :=
  choice ++ filter (fun b => b ∉ choice) (make_blocks number_of_blocks).

Definition family (number_of_blocks different_bits : nat) : list Permutation :=
  map (fun choice =>
         new_Permutation different_bits (family_masks number_of_blocks choice))
    (combs (number_of_blocks - different_bits) (make_blocks number_of_blocks)).

(** [create] throws for the given arguments. *)
Definition create_throws (number_of_blocks different_bits : nat) : Prop :=
  exists fuel, create fuel number_of_blocks different_bits = Some InvalidArgument.

(** Lexicographic order on index vectors. *)
Fixpoint lex_lt (l1 l2 : list nat) : Prop :=
  match l1, l2 with
  | _, [] => False
  | [], _ :: _ => True
  | a :: l1', b :: l2' => a < b \/ (a = b /\ lex_lt l1' l2')
  end.

(** The reverse mask the constructor stores for a (mask, offset) pair. *)
Definition shifted_mask (mo : Z * Z) : Z :=
  if (0 <? mo.2)%Z then wrap64 (Z.shiftl mo.1 mo.2)
  else Z.shiftr mo.1 (- mo.2).

(** A (mask, offset) pair whose mask is a block that stays inside the
    word when moved by the offset. *)
Definition entry_ok (mo : Z * Z) : Prop :=
  (contiguous mo.1 /\ 0 <= mask_lo mo.1 + mo.2 /\ mask_hi mo.1 + mo.2 <= 64)%Z.

(** Bitwise or of a list of masks. *)
Definition mask_union (masks : list Z) : Z := foldr Z.lor 0%Z masks.

(** No two masks at different positions of the list share a set bit. *)
Fixpoint pairwise_disjoint (masks : list Z) : Prop :=
  match masks with
  | [] => True
  | m :: masks' =>
      (forall m' k, m' ∈ masks' ->
         Z.testbit m k = true -> Z.testbit m' k = true -> False) /\
      pairwise_disjoint masks'
  end.

(** Position of the image under [apply] of the word with the single bit
    [k] set. *)
Definition dest_bit (p : Permutation) (k : Z) : Z :=
  Z.log2 (apply p (Z.shiftl 1 k)).

(** Block placement as the specification words it: blocks appear from low
    position to high position in list order. *)
Definition low_to_high (p : Permutation) : Prop :=
  forall (t : nat) m1 m2 k1 k2,
    forward_masks p !! t = Some m1 ->
    forward_masks p !! S t = Some m2 ->
    Z.testbit m1 k1 = true -> Z.testbit m2 k2 = true ->
    (dest_bit p k1 < dest_bit p k2)%Z.

(** Block placement the other way round: earlier blocks sit higher. *)
Definition high_to_low (p : Permutation) : Prop :=
  forall (t : nat) m1 m2 k1 k2,
    forward_masks p !! t = Some m1 ->
    forward_masks p !! S t = Some m2 ->
    Z.testbit m1 k1 = true -> Z.testbit m2 k2 = true ->
    (dest_bit p k2 < dest_bit p k1)%Z.

(** The canonical representation of the unordered pair [{a, b}]. *)
Definition canonical (a b : Z) : match_t := (Z.min a b, Z.max a b).

(** A mask that keeps a prefix of high bits: masking is monotone. *)
Definition prefix_mask (mask : Z) : Prop :=
  forall x y, is_hash x -> is_hash y -> (x <= y)%Z ->
              (Z.land x mask <= Z.land y mask)%Z.

(** The undirected match graph: [a] and [b] are joined when the match set
    holds the pair in either order. *)
Definition edge (matches : gset match_t) (a b : Z) : Prop :=
  (a, b) ∈ matches \/ (b, a) ∈ matches.

(** [a] is an endpoint of some match. *)
Definition endpoint (matches : gset match_t) (a : Z) : Prop :=
  exists b, edge matches a b.

(** [a] and [b] are joined by a path of match edges. *)
Definition connected (matches : gset match_t) : Z -> Z -> Prop :=
  rtc (edge matches).

(** Adjacency as stored in the [nodes] map. *)
Definition adjacent (nodes : gmap Z (gset Z)) (a b : Z) : Prop :=
  b ∈ nodes_at nodes a.

(** The keys of [nodes] not yet marked in [visited]. *)
Definition unvisited (nodes : gmap Z (gset Z)) (visited : gmap Z bool)
    : gset Z :=
  filter (fun k => visited_at visited k = false) (dom nodes).

(** Invariant of the breadth-first loop started at [v0], where [V0]
    holds of the nodes marked before the loop was entered. *)
Definition bfs_inv (nodes : gmap Z (gset Z)) (v0 : Z) (V0 : Z -> Prop)
    (frontier : list Z) (cluster : gset Z) (visited : gmap Z bool) : Prop :=
  (forall k, visited_at visited k = true ->
             k ∈ cluster \/ k ∈ frontier \/ V0 k) /\
  (forall k, k ∈ cluster ->
             visited_at visited k = true /\ ~ V0 k /\
             rtc (adjacent nodes) v0 k /\ k ∈ dom nodes) /\
  (forall k, k ∈ frontier ->
             ~ V0 k /\ rtc (adjacent nodes) v0 k /\ k ∈ dom nodes) /\
  (forall k b, k ∈ cluster -> adjacent nodes k b ->
               visited_at visited b = true \/ b ∈ frontier) /\
  (forall k, V0 k -> visited_at visited k = true).

(** Invariant of the loop over the nodes. *)
Definition clusters_inv (nodes : gmap Z (gset Z)) (visited : gmap Z bool)
    (clusters : clusters_t) : Prop :=
  (forall k, visited_at visited k = true <->
             exists c, c ∈ clusters /\ k ∈ c) /\
  (forall (i j : nat) c1 c2,
     clusters !! i = Some c1 -> clusters !! j = Some c2 -> i <> j ->
     c1 ## c2) /\
  (forall c a b, c ∈ clusters -> a ∈ c -> b ∈ c ->
                 rtc (adjacent nodes) a b) /\
  (forall c k, c ∈ clusters -> k ∈ c -> k ∈ dom nodes) /\
  (forall k b, visited_at visited k = true -> adjacent nodes k b ->
               visited_at visited b = true).

(** Every cluster is closed under adjacency and has a member. *)
Definition clusters_closed (nodes : gmap Z (gset Z)) (clusters : clusters_t)
    : Prop :=
  (forall c k b, c ∈ clusters -> k ∈ c -> adjacent nodes k b -> b ∈ c) /\
  (forall c, c ∈ clusters -> exists k : Z, k ∈ c).

(** ** The command-line front end ([main.cpp]) *)

(** Outcome of a call that may throw [std::out_of_range]. *)
Inductive outcome (A : Type) : Type :=
| Returned (a : A)
| OutOfRange.
Arguments Returned {A} a.
Arguments OutOfRange {A}.

(** [std::string::substr(pos, len)]: the characters [pos .. pos+len-1],
    cut at the end of the string; throws when [pos > size()]. *)
Definition substr (text : list Byte.byte) (pos len : nat)
    : outcome (list Byte.byte) :=
  if length text <? pos then OutOfRange
  else Returned (take len (drop pos text)).

Section Tokens.
(** [hasher.compute(c, token.size(), 0)] of [jenkins.h]: some function of
    the bytes of the token. *)
Variable hasher : list Byte.byte → Z.

(** [for (int i = 0; i < text.size() - window; i++)
      features.push_back(hasher.compute(text.substr(i, window)))] of
    [read_hashes].  The bound is computed in [size_t] and wraps around for
    a text shorter than the window; [i] is converted to [size_t] for the
    comparison. *)
Fixpoint window_loop (fuel : nat) (text : list Byte.byte) (window : nat)
    (i : Z) (features : list Z) : option (outcome (list Z)) :=
  match fuel with
  | O => None
  | S fuel' =>
      if (wrap64 i <? wrap64 (Z.of_nat (length text) - Z.of_nat window))%Z
      then
        match substr text (Z.to_nat i) window with
        | OutOfRange => Some OutOfRange
        | Returned token =>
            window_loop fuel' text window (i + 1)%Z (features ++ [hasher token])
        end
      else Some (Returned features)
  end.

(** The fingerprint [read_hashes] gives a text in the [json] format. *)
Definition text_fingerprint (fuel : nat) (text : list Byte.byte)
    (window : nat) : option (outcome Z) :=
  match window_loop fuel text window 0%Z [] with
  | None => None
  | Some OutOfRange => Some OutOfRange
  | Some (Returned features) => Some (Returned (compute features))
  end.
End Tokens.

(** The checks [main] makes on its arguments after option parsing and
    before any input is read: the exit code of the first failing check,
    or [None] when all pass. *)
Definition check_arguments (blocks distance : nat)
    (input output format : list Byte.byte) : option Z :=
  if blocks =? 0 then Some 2%Z
  else if distance =? 0 then Some 3%Z
  else if bool_decide (input = []) then Some 4%Z
  else if bool_decide (output = []) then Some 5%Z
  else if blocks <=? distance then Some 6%Z
  else if bool_decide (format = []) then Some 7%Z
  else None.

End Simhash.

Import Simhash.

(** * Bit-level facts *)

Section BitFacts.
Local Open Scope Z_scope.

Lemma wrap64_testbit z k :
  0 <= k -> Z.testbit (wrap64 z) k = (k <? 64) && Z.testbit z k.
Proof.
  intros Hk. unfold wrap64. destruct (Z.ltb_spec k 64).
  - now rewrite Z.mod_pow2_bits_low.
  - now rewrite Z.mod_pow2_bits_high by lia.
Qed.

Lemma is_hash_wrap64 z : is_hash (wrap64 z).
Proof. unfold is_hash, wrap64. apply Z.mod_pos_bound. lia. Qed.

Lemma wrap64_hash h : is_hash h -> wrap64 h = h.
Proof. intros H. unfold wrap64. now apply Z.mod_small. Qed.

Lemma hash_high_bits h k : is_hash h -> 64 <= k -> Z.testbit h k = false.
Proof.
  intros H Hk. rewrite <- (wrap64_hash h H), wrap64_testbit by lia.
  destruct (Z.ltb_spec k 64); [lia | reflexivity].
Qed.

(** A non-negative number whose bits from 64 on are clear is a hash. *)
Lemma is_hash_bits h :
  (forall k, 64 <= k -> Z.testbit h k = false) -> 0 <= h -> is_hash h.
Proof.
  intros Hb Hh. assert (wrap64 h = h) as <-; [| apply is_hash_wrap64].
  apply Z.bits_inj'. intros k Hk. rewrite wrap64_testbit by lia.
  destruct (Z.ltb_spec k 64); [reflexivity | symmetry; now apply Hb].
Qed.

Lemma hash_eq_bits a b :
  is_hash a -> is_hash b ->
  (forall k, 0 <= k < 64 -> Z.testbit a k = Z.testbit b k) -> a = b.
Proof.
  intros Ha Hb H. apply Z.bits_inj'. intros k Hk.
  destruct (Z.lt_ge_cases k 64); [apply H; lia |].
  now rewrite !hash_high_bits.
Qed.

Lemma is_hash_lor a b : is_hash a -> is_hash b -> is_hash (Z.lor a b).
Proof.
  intros Ha Hb. apply is_hash_bits.
  - intros k Hk. now rewrite Z.lor_spec, !hash_high_bits.
  - apply Z.lor_nonneg. unfold is_hash in *. lia.
Qed.

Lemma is_hash_lxor a b : is_hash a -> is_hash b -> is_hash (Z.lxor a b).
Proof.
  intros Ha Hb. apply is_hash_bits.
  - intros k Hk. now rewrite Z.lxor_spec, !hash_high_bits.
  - apply Z.lxor_nonneg. unfold is_hash in *. lia.
Qed.

Lemma is_hash_land_r a b : is_hash b -> is_hash (Z.land a b).
Proof.
  intros Hb. apply is_hash_bits.
  - intros k Hk. rewrite Z.land_spec, (hash_high_bits b) by easy.
    apply andb_false_r.
  - apply Z.land_nonneg. unfold is_hash in *. lia.
Qed.

Lemma is_hash_shiftr a n : 0 <= n -> is_hash a -> is_hash (Z.shiftr a n).
Proof.
  intros Hn Ha. apply is_hash_bits.
  - intros k Hk. rewrite Z.shiftr_spec by lia. apply hash_high_bits; [easy | lia].
  - apply Z.shiftr_nonneg. unfold is_hash in *. lia.
Qed.

(** The test [(1UL << i) & mask] of the constructor reads bit [i]. *)
Lemma single_bit_test i mask :
  0 <= i -> (Z.land (Z.shiftl 1 i) mask =? 0) = negb (Z.testbit mask i).
Proof.
  intros Hi. rewrite Z.shiftl_1_l.
  destruct (Z.testbit mask i) eqn:Hb; simpl.
  - apply Z.eqb_neq. intros H0.
    assert (Z.testbit (Z.land (2 ^ i) mask) i = true) as Hc
      by (rewrite Z.land_spec, Z.pow2_bits_true, Hb; easy).
    rewrite H0, Z.bits_0 in Hc. discriminate.
  - apply Z.eqb_eq. apply Z.bits_inj'. intros k Hk.
    rewrite Z.land_spec, Z.bits_0, Z.pow2_bits_eqb by lia.
    destruct (Z.eqb_spec i k); subst; [now rewrite Hb | reflexivity].
Qed.

Lemma low_bit_test h : (Z.land h 1 =? 0) = negb (Z.testbit h 0).
Proof.
  rewrite Z.land_comm. change 1 with (Z.shiftl 1 0) at 1.
  now apply single_bit_test.
Qed.

Lemma single_bit_testbit i k :
  0 <= i < 64 -> 0 <= k ->
  Z.testbit (wrap64 (Z.shiftl 1 i)) k = (k =? i).
Proof.
  intros Hi Hk. rewrite wrap64_testbit, Z.shiftl_1_l, Z.pow2_bits_eqb by lia.
  destruct (Z.eqb_spec i k), (Z.eqb_spec k i), (Z.ltb_spec k 64);
    simpl; try reflexivity; lia.
Qed.

(** ** Counting bits *)

Lemma count_bits_ext h1 h2 a1 a2 n :
  (forall k, 0 <= k < Z.of_nat n -> Z.testbit h1 (a1 + k) = Z.testbit h2 (a2 + k)) ->
  count_bits h1 a1 n = count_bits h2 a2 n.
Proof.
  revert a1 a2. induction n as [|n IH]; intros a1 a2 H; simpl; [reflexivity |].
  rewrite (IH (a1 + 1) (a2 + 1)).
  - specialize (H 0). rewrite !Z.add_0_r in H. rewrite H by lia. reflexivity.
  - intros k Hk. specialize (H (k + 1)).
    replace (a1 + 1 + k) with (a1 + (k + 1)) by lia.
    replace (a2 + 1 + k) with (a2 + (k + 1)) by lia.
    apply H. lia.
Qed.

Lemma count_bits_app h a m n :
  count_bits h a (m + n) =
  (count_bits h a m + count_bits h (a + Z.of_nat m) n)%nat.
Proof.
  revert a. induction m as [|m IH]; intros a.
  - simpl. now rewrite Z.add_0_r.
  - change (S m + n)%nat with (S (m + n)). cbn [count_bits]. rewrite IH.
    replace (a + 1 + Z.of_nat m) with (a + Z.of_nat (S m)) by lia. lia.
Qed.

Lemma count_bits_le h a n : (count_bits h a n <= n)%nat.
Proof.
  revert a. induction n as [|n IH]; intros a; simpl; [lia |].
  specialize (IH (a + 1)). destruct (Z.testbit h a); lia.
Qed.

Lemma count_bits_zero h a n :
  (forall k, a <= k < a + Z.of_nat n -> Z.testbit h k = false) ->
  count_bits h a n = 0%nat.
Proof.
  revert a. induction n as [|n IH]; intros a H; [reflexivity |].
  cbn [count_bits]. rewrite H by lia.
  rewrite IH; [reflexivity |]. intros k Hk. apply H. lia.
Qed.

Lemma count_bits_pos h a n k :
  a <= k < a + Z.of_nat n -> Z.testbit h k = true ->
  (0 < count_bits h a n)%nat.
Proof.
  revert a. induction n as [|n IH]; intros a Hk Hb; [simpl in Hk; lia |].
  cbn [count_bits]. rewrite Nat2Z.inj_succ in Hk.
  destruct (Z.eq_dec k a) as [->|Hne]; [rewrite Hb; lia |].
  assert (0 < count_bits h (a + 1) n)%nat by (apply IH; [lia | easy]).
  lia.
Qed.

Lemma count_bits_full h a n :
  (forall k, a <= k < a + Z.of_nat n -> Z.testbit h k = true) ->
  count_bits h a n = n.
Proof.
  revert a. induction n as [|n IH]; intros a H; [reflexivity |].
  cbn [count_bits]. rewrite H by lia.
  rewrite IH; [reflexivity |]. intros k Hk. apply H. lia.
Qed.

(** ** The Kernighan loop *)

Lemma count_bits_half h w :
  count_bits h 0 (S w) =
  ((if Z.odd h then 1 else 0) + count_bits (Z.div2 h) 0 w)%nat.
Proof.
  cbn [count_bits]. rewrite Z.bit0_odd. f_equal.
  apply count_bits_ext. intros k Hk.
  rewrite Z.div2_spec, Z.shiftr_spec by lia. f_equal. lia.
Qed.

Lemma land_pred_odd m : Z.land (2 * m + 1) (2 * m) = 2 * m.
Proof.
  apply Z.bits_inj'. intros k Hk. rewrite Z.land_spec.
  destruct (Z.eq_dec k 0) as [->|Hne].
  - now rewrite Z.testbit_odd_0, Z.testbit_even_0.
  - replace k with (Z.succ (k - 1)) by lia.
    rewrite Z.testbit_odd_succ, Z.testbit_even_succ by lia.
    apply andb_diag.
Qed.

Lemma land_pred_even m :
  Z.land (2 * m) (2 * m - 1) = 2 * Z.land m (m - 1).
Proof.
  replace (2 * m - 1) with (2 * (m - 1) + 1) by lia.
  apply Z.bits_inj'. intros k Hk. rewrite Z.land_spec.
  destruct (Z.eq_dec k 0) as [->|Hne].
  - now rewrite !Z.testbit_even_0.
  - replace k with (Z.succ (k - 1)) by lia.
    rewrite Z.testbit_odd_succ, !Z.testbit_even_succ by lia.
    now rewrite Z.land_spec.
Qed.

(** Clearing the lowest set bit removes exactly one bit from the count. *)
Lemma count_bits_clear_lowest w n :
  0 < n < 2 ^ Z.of_nat w ->
  S (count_bits (Z.land n (n - 1)) 0 w) = count_bits n 0 w.
Proof.
  revert n. induction w as [|w IH]; intros n Hn.
  - simpl in Hn. lia.
  - rewrite !count_bits_half.
    rewrite Nat2Z.inj_succ, Z.pow_succ_r in Hn by lia.
    destruct (Z.odd n) eqn:Ho.
    + apply Zodd_bool_iff, Zodd_ex_iff in Ho as [m ->].
      replace (2 * m + 1 - 1) with (2 * m) by lia.
      rewrite land_pred_odd.
      replace (Z.odd (2 * m)) with false
        by (symmetry; rewrite Z.odd_mul; reflexivity).
      rewrite !Z.div2_div.
      replace ((2 * m + 1) / 2) with m by (apply Z.div_unique with 1; lia).
      replace (2 * m / 2) with m by (apply Z.div_unique with 0; lia).
      lia.
    + assert (Z.even n = true) as He by (rewrite <- Z.negb_odd, Ho; reflexivity).
      apply Zeven_bool_iff, Zeven_ex_iff in He as [m ->].
      rewrite land_pred_even.
      replace (Z.odd (2 * Z.land m (m - 1))) with false
        by (symmetry; rewrite Z.odd_mul; reflexivity).
      rewrite !Z.div2_div.
      replace (2 * m / 2) with m by (apply Z.div_unique with 0; lia).
      replace (2 * Z.land m (m - 1) / 2) with (Z.land m (m - 1))
        by (apply Z.div_unique with 0; lia).
      simpl. apply IH. lia.
Qed.

Lemma popcount_zero : popcount 0 = 0%nat.
Proof. reflexivity. Qed.

Lemma ndb_loop_popcount fuel n count :
  is_hash n -> (popcount n <= fuel)%nat ->
  ndb_loop fuel n count = (count + popcount n)%nat.
Proof.
  revert n count. induction fuel as [|fuel IH]; intros n count Hn Hf; simpl.
  - lia.
  - destruct (Z.eqb_spec n 0) as [->|Hne]; [rewrite popcount_zero; lia |].
    assert (0 < n < 2 ^ 64) as Hr by (unfold is_hash in Hn; lia).
    rewrite wrap64_hash by (unfold is_hash; lia).
    pose proof (count_bits_clear_lowest BITS n Hr) as Hc.
    fold (popcount n) in Hc. fold (popcount (Z.land n (n - 1))) in Hc.
    rewrite IH.
    + lia.
    + apply is_hash_land_r. unfold is_hash. lia.
    + lia.
Qed.

(** [num_differing_bits] is the population count of the exclusive or. *)
Lemma num_differing_bits_popcount a b :
  is_hash a -> is_hash b ->
  num_differing_bits a b = popcount (Z.lxor a b).
Proof.
  intros Ha Hb. unfold num_differing_bits.
  rewrite ndb_loop_popcount; [reflexivity | now apply is_hash_lxor |].
  apply count_bits_le.
Qed.

End BitFacts.

(** * The fingerprint folder [compute] *)

Section Fold.
Local Open Scope Z_scope.

Lemma wrap_long_small z : - 2 ^ 63 <= z < 2 ^ 63 -> wrap_long z = z.
Proof. intros H. unfold wrap_long. rewrite Z.mod_small; lia. Qed.

(** Effect of the inner loop over the bit positions [a .. a+n-1]. *)
Lemma count_steps_spec n : forall a counts hash counts' hash',
  (a + n <= length counts)%nat ->
  fold_left count_step (seq a n) (counts, hash) = (counts', hash') ->
  length counts' = length counts /\
  hash' = Z.shiftr hash (Z.of_nat n) /\
  forall i, (i < length counts)%nat ->
    counts' !!! i =
    if decide (a <= i < a + n)%nat
    then wrap_long (counts !!! i +
                    (if Z.testbit hash (Z.of_nat (i - a)) then 1 else -1))
    else counts !!! i.
Proof.
  induction n as [|n IH]; intros a counts hash counts' hash' Hlen Hfold.
  - simpl in Hfold. injection Hfold as <- <-.
    split; [reflexivity |]. split; [reflexivity |].
    intros i Hi. destruct (decide _); [lia | reflexivity].
  - cbn [seq fold_left count_step] in Hfold.
    apply IH in Hfold as (IH1 & IH2 & IH3); [| rewrite length_insert; lia].
    rewrite length_insert in IH1, IH3.
    split; [exact IH1 |]. split.
    + rewrite IH2, Z.shiftr_shiftr by lia. f_equal. lia.
    + intros i Hi. rewrite IH3 by lia.
      destruct (decide (S a <= i < S a + n)%nat) as [Hin|Hout].
      * destruct (decide _); [| lia].
        rewrite list_lookup_total_insert_ne by lia.
        rewrite Z.shiftr_spec by lia.
        replace (Z.of_nat (i - S a) + 1) with (Z.of_nat (i - a)) by lia.
        reflexivity.
      * destruct (decide (a <= i < a + S n)%nat) as [Hin'|Hout'].
        -- assert (i = a) as -> by lia.
           rewrite list_lookup_total_insert_eq by lia.
           rewrite low_bit_test, Nat.sub_diag. change (Z.of_nat 0) with 0.
           destruct (Z.testbit hash 0); reflexivity.
        -- rewrite list_lookup_total_insert_ne by lia.
           reflexivity.
Qed.

Lemma count_hash_spec counts hash :
  length counts = BITS ->
  length (count_hash counts hash) = BITS /\
  forall i, (i < BITS)%nat ->
    count_hash counts hash !!! i =
    wrap_long (counts !!! i +
               (if Z.testbit hash (Z.of_nat i) then 1 else -1)).
Proof.
  intros Hlen. unfold count_hash.
  destruct (fold_left count_step (seq 0 BITS) (counts, hash))
    as [counts' hash'] eqn:Hfold.
  apply count_steps_spec in Hfold as (H1 & _ & H3);
    [| rewrite Hlen; simpl; lia].
  split; [simpl; now rewrite H1 |].
  intros i Hi. simpl. rewrite H3 by (rewrite Hlen; exact Hi).
  destruct (decide _); [| lia]. now rewrite Nat.sub_0_r.
Qed.

Lemma votes_snoc i hashes h :
  votes i (hashes ++ [h]) =
  (votes i hashes + (if Z.testbit h i then 1 else 0))%nat.
Proof.
  unfold votes. rewrite List.filter_app, length_app. simpl.
  destruct (Z.testbit h i); reflexivity.
Qed.

Lemma votes_le i hashes : (votes i hashes <= length hashes)%nat.
Proof. apply List.filter_length_le. Qed.

Lemma signed_count_votes i hashes :
  signed_count i hashes =
  2 * Z.of_nat (votes i hashes) - Z.of_nat (length hashes).
Proof.
  induction hashes as [|h hashes IH]; [reflexivity |].
  cbn [signed_count foldr]. fold (signed_count i hashes). rewrite IH.
  unfold votes. cbn [List.filter length].
  destruct (Z.testbit h i); cbn [length]; lia.
Qed.

(** Without wrap-around the counters hold the signed counts. *)
Lemma counts_spec hashes :
  Z.of_nat (length hashes) < 2 ^ 63 ->
  length (fold_left count_hash hashes (replicate BITS 0)) = BITS /\
  forall i, (i < BITS)%nat ->
    fold_left count_hash hashes (replicate BITS 0) !!! i =
    signed_count (Z.of_nat i) hashes.
Proof.
  induction hashes as [|h hashes IH] using rev_ind; intros Hlen.
  - cbn [fold_left]. split; [apply length_replicate |]. intros i Hi.
    now rewrite lookup_total_replicate_2.
  - rewrite length_app in Hlen. simpl in Hlen.
    destruct IH as [IH1 IH2]; [lia |].
    rewrite fold_left_app. cbn [fold_left].
    destruct (count_hash_spec _ h IH1) as [H1 H2].
    split; [exact H1 |]. intros i Hi.
    rewrite H2, IH2 by exact Hi.
    rewrite !signed_count_votes, votes_snoc, length_app. simpl length.
    pose proof (votes_le (Z.of_nat i) hashes).
    rewrite wrap_long_small; destruct (Z.testbit h (Z.of_nat i)); lia.
Qed.

(** Bits of the word assembled by the final loop. *)
Lemma result_steps_testbit counts n : forall a acc k,
  (a + n <= BITS)%nat -> 0 <= k ->
  Z.testbit (fold_left (result_step counts) (seq a n) acc) k =
  Z.testbit acc k ||
  (bool_decide (Z.of_nat a <= k < Z.of_nat (a + n)) &&
   (0 <? counts !!! Z.to_nat k)).
Proof.
  induction n as [|n IH]; intros a acc k Ha Hk.
  - simpl. rewrite bool_decide_eq_false_2 by lia. now rewrite orb_false_r.
  - cbn [seq fold_left]. rewrite IH by lia. unfold result_step.
    destruct (bool_decide_reflect (Z.of_nat (S a) <= k < Z.of_nat (S a + n))),
             (bool_decide_reflect (Z.of_nat a <= k < Z.of_nat (a + S n)));
      try lia.
    + destruct (0 <? counts !!! a); [| reflexivity].
      rewrite Z.lor_spec, single_bit_testbit by (unfold BITS in *; lia).
      destruct (Z.eqb_spec k (Z.of_nat a)); [lia |]. now rewrite orb_false_r.
    + assert (k = Z.of_nat a) as -> by lia. rewrite Nat2Z.id. simpl.
      destruct (0 <? counts !!! a); [| reflexivity].
      rewrite Z.lor_spec, single_bit_testbit by (unfold BITS in *; lia).
      rewrite Z.eqb_refl. now rewrite !orb_true_r.
    + simpl. destruct (0 <? counts !!! a); [| reflexivity].
      rewrite Z.lor_spec, single_bit_testbit by (unfold BITS in *; lia).
      destruct (Z.eqb_spec k (Z.of_nat a)); [lia |]. now rewrite !orb_false_r.
Qed.

Lemma compute_testbit hashes i :
  Z.of_nat (length hashes) < 2 ^ 63 -> 0 <= i < 64 ->
  Z.testbit (compute hashes) i = (0 <? signed_count i hashes).
Proof.
  intros Hlen Hi. unfold compute.
  destruct (counts_spec hashes Hlen) as [_ Hc].
  rewrite result_steps_testbit by (unfold BITS; simpl; lia).
  rewrite Z.bits_0, orb_false_l, bool_decide_eq_true_2 by (unfold BITS; simpl; lia).
  rewrite Hc by (unfold BITS; lia). rewrite Z2Nat.id by lia. reflexivity.
Qed.

Lemma compute_nonneg_high hashes k :
  64 <= k -> Z.testbit (compute hashes) k = false.
Proof.
  intros Hk. unfold compute.
  rewrite result_steps_testbit by (unfold BITS; simpl; lia).
  rewrite Z.bits_0, bool_decide_eq_false_2 by (unfold BITS; simpl; lia). reflexivity.
Qed.

Lemma result_steps_nonneg counts l : forall acc,
  0 <= acc -> 0 <= fold_left (result_step counts) l acc.
Proof.
  induction l as [|i l IH]; intros acc Hacc; [exact Hacc |].
  cbn [fold_left]. apply IH. unfold result_step.
  destruct (0 <? counts !!! i); [| exact Hacc].
  apply Z.lor_nonneg. split; [exact Hacc |].
  pose proof (is_hash_wrap64 (Z.shiftl 1 (Z.of_nat i))) as H.
  unfold is_hash in H. lia.
Qed.

(** C8.  Fold bit rule.  For a sequence of fewer than [2^63] feature
    hashes (a [std::vector] cannot hold more, and below that bound the
    [long] counters do not wrap) and every bit position [i] in [0, 64):
    bit [i] of [compute features] is set iff strictly more than half of
    the feature hashes have bit [i] set, iff the signed count [c_i] is
    strictly positive; a tie [c_i = 0] yields a clear bit; the result is a
    64-bit word; and the empty sequence yields the fingerprint [0]. *)
Theorem compute_fold_bit_rule (features : list Z) :
  Z.of_nat (length features) < 2 ^ 63 ->
  (forall i, 0 <= i < 64 ->
     (Z.testbit (compute features) i = true <->
      (length features < 2 * votes i features)%nat) /\
     (Z.testbit (compute features) i = true <->
      0 < signed_count i features) /\
     (signed_count i features = 0 ->
      Z.testbit (compute features) i = false)) /\
  is_hash (compute features) /\
  compute [] = 0.
Proof.
  intros Hlen. split; [| split].
  - intros i Hi. rewrite compute_testbit by assumption.
    rewrite signed_count_votes. repeat split.
    + intros H. apply Z.ltb_lt in H. lia.
    + intros H. apply Z.ltb_lt. lia.
    + intros H. apply Z.ltb_lt in H. lia.
    + intros H. apply Z.ltb_lt. lia.
    + intros H. apply Z.ltb_ge. lia.
  - apply is_hash_bits; [apply compute_nonneg_high |].
    unfold compute. apply result_steps_nonneg. lia.
  - reflexivity.
Qed.

Lemma compute_fold_bit_rule_witness :
  (Z.testbit (compute [1; 1; 2]) 0 = true <->
   Nat.lt (length [1; 1; 2]) (Nat.mul 2 (votes 0 [1; 1; 2]))) /\
  (Z.testbit (compute [1; 2]) 1 = true <-> 0 < signed_count 1 [1; 2]) /\
  compute [] = 0.
Proof.
  split; [| split].
  - apply (compute_fold_bit_rule [1; 1; 2]); [vm_compute; reflexivity | lia].
  - apply (compute_fold_bit_rule [1; 2]); [vm_compute; reflexivity | lia].
  - apply (compute_fold_bit_rule []). vm_compute; reflexivity.
Defined.

End Fold.

(** * Combinations: [choose] *)

Section Choose.
Local Open Scope nat_scope.

(** ** Facts about [binomial] and [combs] *)

Lemma binomial_gt n : forall k, n < k -> binomial n k = 0.
Proof.
  induction n as [|n IH]; intros [|k] H; simpl; try lia.
  rewrite !IH by lia. reflexivity.
Qed.

Lemma binomial_diag n : binomial n n = 1.
Proof.
  induction n as [|n IH]; simpl; [reflexivity |].
  rewrite IH, binomial_gt by lia. reflexivity.
Qed.

Lemma binomial_0_r n : binomial n 0 = 1.
Proof. destruct n; reflexivity. Qed.

Lemma binomial_sym n : forall k, k <= n -> binomial n (n - k) = binomial n k.
Proof.
  induction n as [|n IH]; intros k Hk.
  - assert (k = 0) as -> by lia. reflexivity.
  - destruct k as [|k].
    + rewrite Nat.sub_0_r, binomial_diag, binomial_0_r. reflexivity.
    + cbn [Nat.sub]. destruct (decide (k = n)) as [->|Hne].
      * rewrite Nat.sub_diag, binomial_0_r, binomial_diag. reflexivity.
      * replace (n - k) with (S (n - S k)) by lia.
        cbn [binomial]. rewrite (IH (S k)) by lia.
        replace (S (n - S k)) with (n - k) by lia.
        rewrite (IH k) by lia. lia.
Qed.

Lemma combs_0 {A} (l : list A) : combs 0 l = [[]].
Proof. destruct l; reflexivity. Qed.

Lemma combs_length {A} (l : list A) : forall r,
  length (combs r l) = binomial (length l) r.
Proof.
  induction l as [|x l IH]; intros [|r]; simpl; try reflexivity.
  rewrite length_app, length_map, !IH. reflexivity.
Qed.

Lemma combs_short {A} (l : list A) r : length l < r -> combs r l = [].
Proof.
  intros H. apply length_zero_iff_nil. rewrite combs_length.
  now apply binomial_gt.
Qed.

Lemma combs_map {A B} (f : A -> B) (l : list A) : forall r,
  combs r (map f l) = map (map f) (combs r l).
Proof.
  induction l as [|x l IH]; intros [|r]; simpl; try reflexivity.
  rewrite map_app, !IH, !map_map. reflexivity.
Qed.

(** The combinations are exactly the sub-sequences of the given length. *)
Lemma elem_of_combs {A} (l : list A) : forall r c,
  c ∈ combs r l <-> sublist c l /\ length c = r.
Proof.
  induction l as [|x l IH]; intros r c.
  - destruct r; simpl.
    + rewrite list_elem_of_singleton. split.
      * intros ->. split; [constructor | reflexivity].
      * intros [_ H]. now apply length_zero_iff_nil.
    + split; [intros H; inversion H |].
      intros [Hs Hl]. apply sublist_nil_r in Hs. subst. discriminate.
  - destruct r; simpl.
    + rewrite list_elem_of_singleton. split.
      * intros ->. split; [apply sublist_nil_l | reflexivity].
      * intros [_ H]. now apply length_zero_iff_nil.
    + rewrite elem_of_app, list_elem_of_fmap. split.
      * intros [(c' & -> & Hc') | Hc].
        -- apply IH in Hc' as [Hs Hl]. split; [now constructor | simpl; lia].
        -- apply IH in Hc as [Hs Hl]. split; [now constructor | exact Hl].
      * intros [Hs Hl]. apply sublist_cons_r in Hs as [Hs | (c' & -> & Hs)].
        -- right. apply IH. easy.
        -- left. exists c'. split; [reflexivity |]. apply IH.
           simpl in Hl. split; [easy | lia].
Qed.

Lemma combs_NoDup {A} (l : list A) : forall r, NoDup l -> NoDup (combs r l).
Proof.
  induction l as [|x l IH]; intros r Hnd.
  - destruct r; simpl; [apply NoDup_singleton | constructor].
  - destruct r; simpl; [apply NoDup_singleton |].
    apply NoDup_cons in Hnd as [Hx Hnd].
    apply NoDup_app. split; [| split].
    + apply NoDup_fmap_2; [| now apply IH]. intros c1 c2 H. now injection H.
    + intros c Hc1 Hc2. apply list_elem_of_fmap in Hc1 as (c' & -> & _).
      apply elem_of_combs in Hc2 as [Hs _].
      apply Hx. eapply elem_of_sublist; [| exact Hs]. left.
    + now apply IH.
Qed.

(** ** The index updates of one iteration *)

Lemma drop_S_tail {A} (l : list A) k x t :
  drop k l = x :: t -> drop (S k) l = t.
Proof.
  intros H. rewrite <- Nat.add_1_r, <- drop_drop, H. reflexivity.
Qed.

(** A loop that overwrites the positions [0 .. k-1] one by one. *)
Lemma fill_spec {A} (f : nat -> A) k : forall l,
  k <= length l ->
  fold_left (fun res j => <[j := f j]> res) (seq 0 k) l =
  map f (seq 0 k) ++ drop k l.
Proof.
  induction k as [|k IH]; intros l Hk.
  - simpl. now rewrite drop_0.
  - rewrite seq_S, fold_left_app, IH by lia. cbn [fold_left Nat.add].
    rewrite map_app. cbn [map].
    destruct (drop k l) as [|x t] eqn:Hd.
    + apply (f_equal length) in Hd. rewrite length_drop in Hd. simpl in Hd. lia.
    + rewrite (drop_S_tail _ _ _ _ Hd).
      rewrite insert_app_r_alt by (rewrite length_map, length_seq; lia).
      rewrite length_map, length_seq, Nat.sub_diag. cbn [insert list_insert].
      rewrite <- app_assoc. reflexivity.
Qed.

Lemma select_spec population indices r result :
  length indices = r -> length result = r ->
  select population indices r result = map (fun i => population !!! i) indices.
Proof.
  intros Hi Hr. unfold select.
  rewrite (fill_spec (fun j => population !!! (indices !!! j))) by lia.
  rewrite drop_ge, app_nil_r by lia.
  subst r. apply list_eq. intros i. rewrite !list_lookup_fmap.
  destruct (decide (i < length indices)) as [Hlt|Hge].
  - rewrite lookup_seq_lt, (list_lookup_lookup_total_lt indices i) by lia.
    reflexivity.
  - rewrite lookup_seq_ge, (proj2 (lookup_ge_None indices i)) by lia.
    reflexivity.
Qed.

Lemma init_indices_spec r :
  fold_left (fun ind i => <[i := i]> ind) (seq 0 r) (replicate r 0) = seq 0 r.
Proof.
  rewrite (fill_spec (fun i => i)) by (rewrite length_replicate; lia).
  rewrite drop_ge, app_nil_r by (rewrite length_replicate; lia).
  apply map_id.
Qed.

(** The loop [indices[j] = indices[j-1] + 1] rewrites the positions after
    the pivot into a run of consecutive numbers. *)
Lemma renumber_spec (pre : list nat) v m : forall suf,
  m <= length suf ->
  fold_left (fun ind j => <[j := (ind !!! (j - 1)) + 1]> ind)
    (seq (length pre + 1) m) (pre ++ v :: suf) =
  pre ++ seq v (S m) ++ drop m suf.
Proof.
  induction m as [|m IH]; intros suf Hm.
  - simpl. now rewrite drop_0.
  - rewrite seq_S, fold_left_app, IH by lia. cbn [fold_left].
    replace (length pre + 1 + m - 1) with (length pre + m) by lia.
    rewrite lookup_total_app_r by lia.
    replace (length pre + m - length pre) with m by lia.
    rewrite lookup_total_app_l by (rewrite length_seq; lia).
    rewrite lookup_total_seq_lt by lia.
    rewrite insert_app_r_alt by lia.
    replace (length pre + 1 + m - length pre) with (S m) by lia.
    rewrite insert_app_r_alt by (rewrite length_seq; lia).
    rewrite length_seq, Nat.sub_diag.
    destruct (drop m suf) as [|x t] eqn:Hd.
    + apply (f_equal length) in Hd. rewrite length_drop in Hd. simpl in Hd. lia.
    + rewrite (drop_S_tail _ _ _ _ Hd).
      cbn [insert list_insert]. f_equal.
      rewrite (seq_S (S m) v), <- app_assoc. cbn [app].
      replace (v + S m) with (v + m + 1) by lia. reflexivity.
Qed.

Lemma advance_spec (pre : list nat) a rest r :
  length (pre ++ a :: rest) = r ->
  advance (pre ++ a :: rest) (length pre) r =
  pre ++ seq (a + 1) (S (length rest)).
Proof.
  intros Hr. unfold advance.
  rewrite list_lookup_total_middle by reflexivity.
  rewrite insert_app_r_alt, Nat.sub_diag by lia. cbn [insert list_insert].
  rewrite length_app in Hr. simpl in Hr.
  replace (r - (length pre + 1)) with (length rest) by lia.
  rewrite renumber_spec by lia.
  rewrite drop_all, app_nil_r. reflexivity.
Qed.

(** ** One iteration of the loop computes [next_comb] *)

Lemma next_comb_length n idx idx' :
  next_comb n idx = Some idx' -> length idx' = length idx.
Proof.
  revert idx'. induction idx as [|a rest IH]; intros idx' H; [discriminate |].
  cbn [next_comb] in H. destruct (next_comb n rest) as [rest'|].
  - injection H as <-. simpl. f_equal. now apply IH.
  - destruct (a =? n - length (a :: rest)); [discriminate |].
    injection H as <-. simpl. now rewrite length_seq.
Qed.

Lemma find_pivot_next n r : forall suf pre,
  length (pre ++ suf) = r -> r <= n ->
  match next_comb n suf with
  | None =>
      find_pivot (pre ++ suf) n r r = find_pivot (pre ++ suf) n r (length pre)
  | Some suf' =>
      exists i, find_pivot (pre ++ suf) n r r = Some i /\
                advance (pre ++ suf) i r = pre ++ suf'
  end.
Proof.
  induction suf as [|a rest IH]; intros pre Hlen Hr.
  - cbn [next_comb]. rewrite app_nil_r in *. now rewrite Hlen.
  - specialize (IH (pre ++ [a])).
    rewrite <- app_assoc in IH. cbn [app] in IH.
    specialize (IH Hlen Hr). cbn [next_comb].
    destruct (next_comb n rest) as [rest'|].
    + destruct IH as (i & Hp & Ha). exists i. split; [exact Hp |].
      rewrite Ha, <- app_assoc. reflexivity.
    + rewrite length_app in IH. cbn [length] in IH.
      rewrite Nat.add_1_r in IH. cbn [find_pivot] in IH.
      rewrite list_lookup_total_middle in IH by reflexivity.
      rewrite length_app in Hlen. cbn [length] in *.
      replace (length pre + n - r) with (n - S (length rest)) in IH by lia.
      destruct (a =? n - S (length rest)); [exact IH |].
      exists (length pre). split; [exact IH |].
      apply advance_spec. rewrite length_app. simpl. lia.
Qed.

Lemma find_pivot_step n r idx :
  length idx = r -> r <= n ->
  match next_comb n idx with
  | None => find_pivot idx n r r = None
  | Some idx' =>
      exists i, find_pivot idx n r r = Some i /\ advance idx i r = idx'
  end.
Proof.
  intros Hlen Hr. exact (find_pivot_next n r idx [] Hlen Hr).
Qed.

(** ** The visited index vectors are the combinations *)

Lemma comb_trace_head n idx l :
  comb_trace n idx l -> exists t, l = idx :: t.
Proof. intros H. destruct H; eauto. Qed.

Lemma comb_trace_cons n a rest l :
  comb_trace n rest l ->
  forall l2,
    (if a =? n - S (length rest) then l2 = []
     else comb_trace n (seq (a + 1) (S (length rest))) l2) ->
    comb_trace n (a :: rest) (map (cons a) l ++ l2).
Proof.
  induction 1 as [rest Hn | rest rest' l Hn Ht IH]; intros l2 Hl2.
  - cbn [map app].
    destruct (a =? n - S (length rest)) eqn:Ha.
    + subst l2. apply comb_trace_end. cbn [next_comb length].
      now rewrite Hn, Ha.
    + apply comb_trace_step with (seq (a + 1) (S (length rest))); [| exact Hl2].
      cbn [next_comb length]. now rewrite Hn, Ha.
  - cbn [map app]. apply comb_trace_step with (a :: rest').
    + cbn [next_comb]. now rewrite Hn.
    + apply IH. now rewrite (next_comb_length _ _ _ Hn).
Qed.

Lemma comb_trace_combs n : forall r k a,
  a + r + k = n ->
  comb_trace n (seq a r) (combs r (seq a (n - a))).
Proof.
  induction r as [|r IHr]; intros k a Hk.
  - rewrite combs_0. apply comb_trace_end. reflexivity.
  - revert a Hk. induction k as [|k IHk]; intros a Hk.
    + replace (n - a) with (S (n - S a)) by lia. cbn [seq combs].
      rewrite (combs_short (seq (S a) (n - S a)) (S r)) by (rewrite length_seq; lia).
      pose proof (comb_trace_cons n a (seq (S a) r) _ (IHr 0 (S a) ltac:(lia)) [])
        as Hc.
      rewrite length_seq in Hc.
      replace (a =? n - S r) with true in Hc by (symmetry; apply Nat.eqb_eq; lia).
      apply Hc. reflexivity.
    + replace (n - a) with (S (n - S a)) by lia. cbn [seq combs].
      pose proof (comb_trace_cons n a (seq (S a) r) _
                    (IHr (S k) (S a) ltac:(lia))
                    (combs (S r) (seq (S a) (n - S a)))) as Hc.
      rewrite length_seq in Hc.
      replace (a =? n - S r) with false in Hc by (symmetry; apply Nat.eqb_neq; lia).
      apply Hc. rewrite Nat.add_1_r. apply IHk. lia.
Qed.

(** ** The loop *)

Lemma choose_loop_trace population n r idx l :
  comb_trace n idx l ->
  forall fuel result results,
    length idx = r -> r <= n -> length result = r -> length l <= fuel ->
    choose_loop fuel population n r idx result results =
    Some (results ++ map (map (fun i => population !!! i)) (tail l)).
Proof.
  induction 1 as [idx Hn | idx idx' l Hn Ht IH];
    intros fuel result results Hi Hr Hres Hf.
  - destruct fuel as [|fuel]; [simpl in Hf; lia |].
    cbn [choose_loop]. pose proof (find_pivot_step n r idx Hi Hr) as Hp.
    rewrite Hn in Hp. rewrite Hp. cbn [tail map]. now rewrite app_nil_r.
  - destruct fuel as [|fuel]; [simpl in Hf; lia |].
    cbn [choose_loop]. pose proof (find_pivot_step n r idx Hi Hr) as Hp.
    rewrite Hn in Hp. destruct Hp as (i & -> & Ha). rewrite Ha.
    assert (length idx' = r) as Hi'
      by (rewrite (next_comb_length _ _ _ Hn); exact Hi).
    rewrite select_spec by assumption.
    rewrite IH; [| assumption | assumption | now rewrite length_map
                 | simpl in Hf; lia].
    destruct (comb_trace_head _ _ _ Ht) as [t ->].
    cbn [tail map]. rewrite <- app_assoc. reflexivity.
Qed.

Lemma lookup_total_seq_map_Z (l : list Z) :
  map (fun j => l !!! j) (seq 0 (length l)) = l.
Proof.
  apply list_eq. intros i. rewrite list_lookup_fmap.
  destruct (decide (i < length l)) as [Hi|Hi].
  - rewrite lookup_seq_lt by lia. simpl.
    symmetry. now apply list_lookup_lookup_total_lt.
  - rewrite lookup_seq_ge by lia. simpl. symmetry.
    apply lookup_ge_None. lia.
Qed.

(** With enough fuel, [choose] returns the combinations in lexicographic
    order. *)
Lemma choose_spec fuel population r :
  r <= length population ->
  binomial (length population) r <= fuel ->
  choose fuel population r = Some (Ok (combs r population)).
Proof.
  intros Hr Hf. unfold choose.
  destruct (Nat.ltb_spec (length population) r); [lia |].
  rewrite init_indices_spec.
  rewrite select_spec by (rewrite ?length_seq, ?length_replicate; reflexivity).
  pose proof (comb_trace_combs (length population) r
                (length population - r) 0 ltac:(lia)) as Ht.
  rewrite Nat.sub_0_r in Ht.
  rewrite (choose_loop_trace population _ r _ _ Ht);
    [| now rewrite length_seq | assumption | now rewrite length_map, length_seq
     | now rewrite combs_length, length_seq].
  destruct (comb_trace_head _ _ _ Ht) as [t Hhd].
  transitivity
    (Some (Ok (map (map (fun i => population !!! i))
                 (combs r (seq 0 (length population)))))).
  - rewrite Hhd. reflexivity.
  - rewrite <- combs_map, lookup_total_seq_map_Z. reflexivity.
Qed.

Lemma choose_invalid fuel population r :
  length population < r -> choose fuel population r = Some InvalidArgument.
Proof.
  intros H. unfold choose.
  destruct (Nat.ltb_spec (length population) r); [reflexivity | lia].
Qed.

End Choose.

(** * Block masks and the permutation tables *)

Section Blocks.
Local Open Scope Z_scope.

(** Bits of a mask assembled by [mask |= 1 << j] for [j = a .. a+n-1]. *)
Lemma set_bits_testbit n : forall (a : nat) acc k,
  (a + n <= BITS)%nat -> 0 <= k ->
  Z.testbit
    (fold_left (fun mask j => Z.lor mask (wrap64 (Z.shiftl 1 (Z.of_nat j))))
       (seq a n) acc) k =
  Z.testbit acc k || bool_decide (Z.of_nat a <= k < Z.of_nat (a + n)).
Proof.
  induction n as [|n IH]; intros a acc k Ha Hk.
  - simpl. rewrite bool_decide_eq_false_2 by lia. now rewrite orb_false_r.
  - cbn [seq fold_left]. rewrite IH by lia.
    rewrite Z.lor_spec, single_bit_testbit by (unfold BITS in *; lia).
    destruct (bool_decide_reflect (Z.of_nat (S a) <= k < Z.of_nat (S a + n))),
             (bool_decide_reflect (Z.of_nat a <= k < Z.of_nat (a + S n))),
             (Z.eqb_spec k (Z.of_nat a));
      try lia; rewrite ?orb_true_r, ?orb_false_r; reflexivity.
Qed.

Lemma block_bounds (B i : nat) :
  (0 < B <= BITS)%nat -> (i < B)%nat ->
  (i * BITS / B < (i + 1) * BITS / B <= BITS)%nat.
Proof.
  unfold BITS. intros HB Hi.
  pose proof (Nat.div_mod_eq (i * 64) B).
  pose proof (Nat.div_mod_eq ((i + 1) * 64) B).
  pose proof (Nat.mod_upper_bound (i * 64) B ltac:(lia)).
  pose proof (Nat.mod_upper_bound ((i + 1) * 64) B ltac:(lia)).
  split; nia.
Qed.

Lemma block_mask_range (B i : nat) :
  (0 < B <= BITS)%nat -> (i < B)%nat ->
  is_range (block_mask B i)
    (Z.of_nat (i * BITS / B)) (Z.of_nat ((i + 1) * BITS / B)).
Proof.
  intros HB Hi. pose proof (block_bounds B i HB Hi) as Hb.
  unfold is_range. repeat split; try (unfold BITS in *; lia).
  intros k Hk. unfold block_mask.
  rewrite set_bits_testbit by lia. rewrite Z.bits_0, orb_false_l.
  replace (i * BITS / B + ((i + 1) * BITS / B - i * BITS / B))%nat
    with ((i + 1) * BITS / B)%nat by lia.
  destruct (bool_decide_reflect
              (Z.of_nat (i * BITS / B) <= k < Z.of_nat ((i + 1) * BITS / B))),
           (Z.leb_spec (Z.of_nat (i * BITS / B)) k),
           (Z.ltb_spec k (Z.of_nat ((i + 1) * BITS / B)));
    simpl; try reflexivity; lia.
Qed.

(** ** The scans of the constructor on a contiguous mask *)

Lemma scan_low_spec m s : forall fuel i,
  0 <= i <= s -> s - i < Z.of_nat fuel ->
  (forall k, i <= k < s -> Z.testbit m k = false) ->
  Z.testbit m s = true ->
  scan_low fuel i m = s.
Proof.
  induction fuel as [|fuel IH]; intros i Hi Hf Hlow Hs; [simpl in Hf; lia |].
  cbn [scan_low]. rewrite single_bit_test by lia.
  destruct (Z.eq_dec i s) as [->|Hne].
  - now rewrite Hs.
  - rewrite Hlow by lia. simpl. apply IH; [lia | lia | | exact Hs].
    intros k Hk. apply Hlow. lia.
Qed.

Lemma scan_high_spec m e : forall fuel j,
  0 <= j <= e -> e <= 64 -> e - j <= Z.of_nat fuel ->
  (forall k, j <= k < e -> Z.testbit m k = true) ->
  (e < 64 -> Z.testbit m e = false) ->
  scan_high fuel j m = e.
Proof.
  induction fuel as [|fuel IH]; intros j Hj He Hf Hin Hout.
  - simpl in *. lia.
  - cbn [scan_high]. rewrite single_bit_test by lia.
    destruct (Z.eq_dec j e) as [->|Hne].
    + destruct (Z.ltb_spec e 64); [| reflexivity].
      rewrite Hout by lia. reflexivity.
    + destruct (Z.ltb_spec j 64); [| lia].
      rewrite Hin by lia. simpl. apply IH; [lia | lia | lia | | exact Hout].
      intros k Hk. apply Hin. lia.
Qed.

Lemma range_scan m s e :
  is_range m s e -> mask_lo m = s /\ mask_hi m = e.
Proof.
  intros (Hs & Hse & He & Hb).
  assert (mask_lo m = s) as Hlo.
  { unfold mask_lo. apply scan_low_spec; [lia | unfold BITS; lia | |].
    - intros k Hk. rewrite Hb by lia.
      destruct (Z.leb_spec s k); [lia | reflexivity].
    - rewrite Hb by lia.
      destruct (Z.leb_spec s s), (Z.ltb_spec s e); try lia; reflexivity. }
  split; [exact Hlo |]. unfold mask_hi. rewrite Hlo.
  apply scan_high_spec; [lia | lia | unfold BITS; lia | |].
  - intros k Hk. rewrite Hb by lia.
    destruct (Z.leb_spec s k), (Z.ltb_spec k e); try lia; reflexivity.
  - intros _. rewrite Hb by lia.
    destruct (Z.ltb_spec e e); [lia |]. apply andb_false_r.
Qed.

Lemma range_contiguous m s e : is_range m s e -> contiguous m.
Proof.
  intros H. unfold contiguous. destruct (range_scan m s e H) as [-> ->].
  exact H.
Qed.

Lemma contiguous_testbit m k :
  contiguous m -> 0 <= k ->
  Z.testbit m k = (mask_lo m <=? k) && (k <? mask_hi m).
Proof. intros (_ & _ & _ & Hb) Hk. now apply Hb. Qed.

Lemma contiguous_bounds m :
  contiguous m -> 0 <= mask_lo m /\ mask_lo m < mask_hi m /\ mask_hi m <= 64.
Proof. intros (H1 & H2 & H3 & _). lia. Qed.

Lemma contiguous_testbit_true m k :
  contiguous m -> Z.testbit m k = true <-> mask_lo m <= k < mask_hi m.
Proof.
  intros Hc. pose proof (contiguous_bounds m Hc).
  destruct (Z.lt_ge_cases k 0).
  - rewrite Z.testbit_neg_r by lia. split; [discriminate | lia].
  - rewrite contiguous_testbit by assumption.
    destruct (Z.leb_spec (mask_lo m) k), (Z.ltb_spec k (mask_hi m));
      simpl; split; intros; try lia; try reflexivity; discriminate.
Qed.

Lemma contiguous_is_hash m : contiguous m -> is_hash m.
Proof.
  intros Hc. pose proof (contiguous_bounds m Hc).
  assert (0 <= m) as Hnn.
  { destruct (Z.lt_ge_cases m 0) as [Hneg|]; [| lia].
    apply Z.bits_iff_neg_ex in Hneg as [k Hk].
    specialize (Hk (Z.max (k + 1) 64) ltac:(lia)).
    apply (contiguous_testbit_true m _ Hc) in Hk. lia. }
  apply is_hash_bits; [| exact Hnn].
  intros k Hk. destruct (Z.testbit m k) eqn:Hb; [| reflexivity].
  apply (contiguous_testbit_true m _ Hc) in Hb. lia.
Qed.

End Blocks.

(** * The block partition and the constructor tables *)

Section Partition.
Local Open Scope Z_scope.

Lemma block_mask_lo (B i : nat) :
  (0 < B <= BITS)%nat -> (i < B)%nat ->
  mask_lo (block_mask B i) = Z.of_nat (i * BITS / B).
Proof. intros HB Hi. apply (range_scan _ _ _ (block_mask_range B i HB Hi)). Qed.

Lemma block_mask_hi (B i : nat) :
  (0 < B <= BITS)%nat -> (i < B)%nat ->
  mask_hi (block_mask B i) = Z.of_nat ((i + 1) * BITS / B).
Proof. intros HB Hi. apply (range_scan _ _ _ (block_mask_range B i HB Hi)). Qed.

Lemma block_mask_contiguous (B i : nat) :
  (0 < B <= BITS)%nat -> (i < B)%nat -> contiguous (block_mask B i).
Proof. intros HB Hi. exact (range_contiguous _ _ _ (block_mask_range B i HB Hi)). Qed.

Lemma block_mask_testbit (B i : nat) k :
  (0 < B <= BITS)%nat -> (i < B)%nat ->
  Z.testbit (block_mask B i) k = true <->
  Z.of_nat (i * BITS / B) <= k < Z.of_nat ((i + 1) * BITS / B).
Proof.
  intros HB Hi.
  rewrite (contiguous_testbit_true _ k (block_mask_contiguous B i HB Hi)).
  now rewrite block_mask_lo, block_mask_hi.
Qed.

Lemma block_order (B i j : nat) :
  (0 < B)%nat -> (i < j)%nat -> ((i + 1) * BITS / B <= j * BITS / B)%nat.
Proof.
  intros HB Hij. apply Nat.Div0.div_le_mono. nia.
Qed.

Lemma block_mask_inj (B i j : nat) k :
  (0 < B <= BITS)%nat -> (i < B)%nat -> (j < B)%nat ->
  Z.testbit (block_mask B i) k = true ->
  Z.testbit (block_mask B j) k = true -> i = j.
Proof.
  intros HB Hi Hj Hbi Hbj.
  apply block_mask_testbit in Hbi; [| assumption | assumption].
  apply block_mask_testbit in Hbj; [| assumption | assumption].
  destruct (Nat.lt_trichotomy i j) as [Hlt | [Heq | Hgt]]; [| exact Heq |].
  - pose proof (block_order B i j ltac:(lia) Hlt). lia.
  - pose proof (block_order B j i ltac:(lia) Hgt). lia.
Qed.

Lemma block_cover (B : nat) : forall (n : nat) k,
  (0 < B <= BITS)%nat -> (n <= B)%nat ->
  0 <= k < Z.of_nat (n * BITS / B) ->
  exists i, (i < n)%nat /\ Z.testbit (block_mask B i) k = true.
Proof.
  induction n as [|n IH]; intros k HB Hn Hk.
  - rewrite Nat.mul_0_l, Nat.Div0.div_0_l in Hk. lia.
  - destruct (Z.lt_ge_cases k (Z.of_nat (n * BITS / B))) as [Hlt|Hge].
    + destruct (IH k HB ltac:(lia) ltac:(lia)) as (i & Hi & Hb).
      exists i. split; [lia | exact Hb].
    + exists n. split; [lia |]. apply block_mask_testbit; [easy | lia |].
      replace (n + 1)%nat with (S n) by lia. lia.
Qed.

Lemma total_width_cons m l :
  total_width (m :: l) = mask_width m + total_width l.
Proof. reflexivity. Qed.

Lemma total_width_nil : total_width [] = 0.
Proof. reflexivity. Qed.

Lemma total_width_app l1 l2 :
  total_width (l1 ++ l2) = total_width l1 + total_width l2.
Proof.
  induction l1 as [|m l1 IH]; simpl; [reflexivity |].
  unfold total_width in *. cbn [foldr app]. rewrite IH. lia.
Qed.

Lemma total_width_perm l1 l2 : l1 ≡ₚ l2 -> total_width l1 = total_width l2.
Proof.
  induction 1 as [| x l l' _ IH | x y l | l l' l'' _ IH1 _ IH2];
    unfold total_width in *; cbn [foldr]; lia.
Qed.

Lemma blocks_total_width (B : nat) : forall n : nat,
  (0 < B <= BITS)%nat -> (n <= B)%nat ->
  total_width (map (block_mask B) (seq 0 n)) = Z.of_nat (n * BITS / B).
Proof.
  induction n as [|n IH]; intros HB Hn.
  - rewrite Nat.mul_0_l, Nat.Div0.div_0_l. reflexivity.
  - rewrite seq_S, map_app, total_width_app, IH by lia.
    cbn [map Nat.add]. unfold total_width. cbn [foldr]. unfold mask_width.
    rewrite block_mask_lo, block_mask_hi by lia.
    pose proof (block_bounds B n HB ltac:(lia)).
    replace (n + 1)%nat with (S n) by lia. lia.
Qed.

Lemma div_mul_same (B : nat) : (0 < B)%nat -> (B * BITS / B = BITS)%nat.
Proof. intros HB. rewrite Nat.mul_comm. apply Nat.div_mul. lia. Qed.

(** The blocks built by [create] tile the 64-bit word. *)
Lemma make_blocks_partition (B : nat) :
  (0 < B <= BITS)%nat -> partition64 (make_blocks B).
Proof.
  intros HB. unfold partition64, make_blocks. repeat split.
  - apply Forall_forall. intros m Hm.
    apply list_elem_of_fmap in Hm as (i & -> & Hi).
    apply elem_of_seq in Hi. apply block_mask_contiguous; [easy | lia].
  - apply NoDup_fmap_2_strong; [| apply NoDup_seq].
    intros i j Hi Hj Heq. apply elem_of_seq in Hi, Hj.
    pose proof (block_bounds B i HB ltac:(lia)) as Hbi.
    apply (block_mask_inj B i j (Z.of_nat (i * BITS / B))); try lia.
    + apply block_mask_testbit; [easy | lia | lia].
    + rewrite <- Heq. apply block_mask_testbit; [easy | lia | lia].
  - intros m1 m2 k Hm1 Hm2 Hb1 Hb2.
    apply list_elem_of_fmap in Hm1 as (i & -> & Hi).
    apply list_elem_of_fmap in Hm2 as (j & -> & Hj).
    apply elem_of_seq in Hi, Hj. f_equal.
    apply (block_mask_inj B i j k); try lia; assumption.
  - intros k Hk.
    destruct (block_cover B B k HB ltac:(lia)) as (i & Hi & Hb).
    + rewrite div_mul_same by lia. unfold BITS. lia.
    + exists (block_mask B i). split; [| exact Hb].
      apply list_elem_of_fmap. exists i. split; [reflexivity |].
      apply elem_of_seq. lia.
  - rewrite blocks_total_width, div_mul_same by lia. reflexivity.
Qed.

Lemma partition64_perm l1 l2 : l1 ≡ₚ l2 -> partition64 l1 -> partition64 l2.
Proof.
  intros Hp (Hc & Hnd & Hdisj & Hcov & Htot). repeat split.
  - now rewrite <- Hp.
  - now rewrite <- Hp.
  - intros m1 m2 k Hm1 Hm2. rewrite <- Hp in Hm1, Hm2. now apply Hdisj.
  - intros k Hk. destruct (Hcov k Hk) as (m & Hm & Hb).
    exists m. split; [now rewrite <- Hp | exact Hb].
  - now rewrite <- (total_width_perm _ _ Hp).
Qed.

Lemma make_blocks_length B : length (make_blocks B) = B.
Proof. unfold make_blocks. now rewrite length_map, length_seq. Qed.

(** ** The list handed to the constructor *)

Lemma filter_ext_elem (P1 P2 : Z -> Prop)
    `{!forall x, Decision (P1 x), !forall x, Decision (P2 x)} (l : list Z) :
  (forall x, x ∈ l -> P1 x <-> P2 x) -> filter P1 l = filter P2 l.
Proof.
  induction l as [|a l IH]; intros Hext; [reflexivity |].
  assert (filter P1 l = filter P2 l) as Hl
    by (apply IH; intros x Hx; apply Hext; now right).
  destruct (decide (P1 a)) as [Ha|Ha].
  - rewrite !filter_cons_True; [now rewrite Hl | | exact Ha].
    apply Hext; [left | exact Ha].
  - rewrite !filter_cons_False; [exact Hl | | exact Ha].
    intros Hp. apply Ha. apply Hext; [left | exact Hp].
Qed.

Lemma add_remaining_spec blocks : forall choice,
  NoDup blocks ->
  add_remaining blocks choice =
  choice ++ filter (fun b => b ∉ choice) blocks.
Proof.
  unfold add_remaining.
  induction blocks as [|b blocks IH]; intros choice Hnd.
  - simpl. now rewrite app_nil_r.
  - apply NoDup_cons in Hnd as [Hb Hnd]. cbn [fold_left].
    destruct (bool_decide_reflect (b ∈ choice)) as [Hin|Hnin].
    + rewrite IH by assumption. rewrite filter_cons_False by tauto.
      reflexivity.
    + rewrite IH by assumption. rewrite filter_cons_True by assumption.
      rewrite <- app_assoc. cbn [app]. do 2 f_equal.
      apply filter_ext_elem.
      intros x Hx. rewrite elem_of_app, list_elem_of_singleton.
      split; [tauto |]. intros H [H1 | ->]; [tauto | tauto].
Qed.

Lemma choice_perm (blocks choice : list Z) :
  NoDup blocks -> sublist choice blocks ->
  choice ++ filter (fun b => b ∉ choice) blocks ≡ₚ blocks.
Proof.
  intros Hnd Hsub.
  etransitivity;
    [| apply (filter_app_complement (fun b => b ∈ choice) blocks)].
  apply Permutation_app; [| reflexivity].
  apply NoDup_Permutation.
  - eapply sublist_NoDup; eassumption.
  - now apply NoDup_filter.
  - intros x. rewrite list_elem_of_filter. split; [| tauto].
    intros Hx. split; [exact Hx |]. eapply elem_of_sublist; eassumption.
Qed.

End Partition.

(** * [Permutation::create] *)

Section Create.
Local Open Scope nat_scope.

Lemma choose_loop_mono population n r : forall fuel fuel' idx result results out,
  choose_loop fuel population n r idx result results = Some out ->
  fuel <= fuel' ->
  choose_loop fuel' population n r idx result results = Some out.
Proof.
  induction fuel as [|fuel IH]; intros fuel' idx result results out H Hle;
    [discriminate |].
  destruct fuel' as [|fuel']; [lia |].
  cbn [choose_loop] in *.
  destruct (find_pivot idx n r r); [| exact H].
  apply IH with (fuel' := fuel') in H; [exact H | lia].
Qed.

Lemma choose_mono fuel fuel' population r out :
  choose fuel population r = Some out -> fuel <= fuel' ->
  choose fuel' population r = Some out.
Proof.
  unfold choose. intros H Hle.
  destruct (length population <? r); [exact H |].
  destruct (choose_loop fuel _ _ _ _ _ _) as [res|] eqn:Hl; [| discriminate].
  now rewrite (choose_loop_mono _ _ _ _ _ _ _ _ _ Hl Hle).
Qed.

Lemma create_mono fuel fuel' B d out :
  create fuel B d = Some out -> fuel <= fuel' -> create fuel' B d = Some out.
Proof.
  unfold create. intros H Hle.
  destruct (BITS <? B); [exact H |].
  destruct (B <=? d); [exact H |].
  destruct (choose fuel _ _) as [res|] eqn:Hc; [| discriminate].
  now rewrite (choose_mono _ _ _ _ _ Hc Hle).
Qed.

Lemma make_blocks_NoDup B : 0 < B <= BITS -> NoDup (make_blocks B).
Proof. intros HB. apply (make_blocks_partition B HB). Qed.

(** With enough fuel and arguments in range, [create] returns the family. *)
Lemma create_ok fuel B d :
  d < B -> B <= BITS -> binomial B d <= fuel ->
  create fuel B d = Some (Ok (family B d)).
Proof.
  intros Hd HB Hf. unfold create.
  destruct (Nat.ltb_spec BITS B); [lia |].
  destruct (Nat.leb_spec B d); [lia |].
  rewrite choose_spec.
  - unfold family. do 2 f_equal. apply map_ext. intros c.
    unfold family_masks. now rewrite add_remaining_spec
      by (apply make_blocks_NoDup; lia).
  - rewrite make_blocks_length. lia.
  - rewrite make_blocks_length, binomial_sym by lia. exact Hf.
Qed.

Lemma create_family fuel B d ps :
  create fuel B d = Some (Ok ps) -> ps = family B d.
Proof.
  intros H.
  assert (d < B <= BITS) as Hr.
  { unfold create in H.
    destruct (Nat.ltb_spec BITS B); [discriminate |].
    destruct (Nat.leb_spec B d); [discriminate | lia]. }
  apply create_mono with (fuel' := Nat.max fuel (binomial B d)) in H; [| lia].
  rewrite create_ok in H by lia. now injection H.
Qed.

Lemma create_invalid_iff fuel B d :
  create fuel B d = Some InvalidArgument <-> BITS < B \/ B <= d.
Proof.
  unfold create.
  destruct (Nat.ltb_spec BITS B); [split; [lia | reflexivity] |].
  destruct (Nat.leb_spec B d); [split; [lia | reflexivity] |].
  split; [| lia]. intros Hc.
  destruct (choose fuel _ _) as [[res|]|] eqn:Hch; try discriminate.
  unfold choose in Hch. rewrite make_blocks_length in Hch.
  destruct (Nat.ltb_spec B (B - d)); [lia |].
  destruct (choose_loop _ _ _ _ _ _ _); discriminate.
Qed.

Lemma family_length B d : d <= B -> length (family B d) = binomial B d.
Proof.
  intros Hd. unfold family.
  rewrite length_map, combs_length, make_blocks_length.
  now apply binomial_sym.
Qed.

Lemma elem_of_family B d p :
  p ∈ family B d <->
  exists c, sublist c (make_blocks B) /\ length c = B - d /\
            p = new_Permutation d (family_masks B c).
Proof.
  unfold family. rewrite list_elem_of_fmap. split.
  - intros (c & -> & Hc). apply elem_of_combs in Hc as [Hs Hl]. eauto.
  - intros (c & Hs & Hl & ->). exists c. split; [reflexivity |].
    apply elem_of_combs. easy.
Qed.

Lemma family_masks_perm B c :
  0 < B <= BITS -> sublist c (make_blocks B) ->
  family_masks B c ≡ₚ make_blocks B.
Proof.
  intros HB Hs. apply choice_perm; [now apply make_blocks_NoDup | exact Hs].
Qed.

Lemma family_masks_partition B c :
  0 < B <= BITS -> sublist c (make_blocks B) ->
  partition64 (family_masks B c).
Proof.
  intros HB Hs. eapply partition64_perm.
  - symmetry. now apply family_masks_perm.
  - now apply make_blocks_partition.
Qed.

(** ** Lexicographic order of the enumeration *)

Lemma lex_lt_cons a l1 l2 : lex_lt l1 l2 -> lex_lt (a :: l1) (a :: l2).
Proof. intros H. simpl. right. easy. Qed.

Lemma combs_seq_head r a n c :
  c ∈ combs (S r) (seq a n) -> exists b t, c = b :: t /\ a <= b.
Proof.
  intros Hc. apply elem_of_combs in Hc as [Hs Hl].
  destruct c as [|b t]; [discriminate |]. exists b, t. split; [reflexivity |].
  assert (b ∈ seq a n) as Hb by (eapply elem_of_sublist; [left | exact Hs]).
  apply elem_of_seq in Hb. lia.
Qed.

(** The index vectors of the combinations are strictly increasing in
    lexicographic order. *)
Lemma combs_seq_sorted n : forall r a,
  StronglySorted lex_lt (combs r (seq a n)).
Proof.
  induction n as [|n IH]; intros r a.
  - destruct r; simpl; repeat constructor.
  - destruct r; cbn [seq combs]; [repeat constructor |].
    apply StronglySorted_app. split; [| split; [| apply IH]].
    + intros c1 c2 Hc1 Hc2.
      apply list_elem_of_fmap in Hc1 as (c1' & -> & _).
      apply combs_seq_head in Hc2 as (b & t & -> & Hb).
      simpl. left. lia.
    + specialize (IH r (S a)).
      induction IH as [|c cs Hs IHs Hall]; [constructor |].
      cbn [map]. constructor; [exact IHs |].
      apply Forall_forall. intros c' Hc'.
      apply list_elem_of_fmap in Hc' as (c'' & -> & Hc'').
      apply lex_lt_cons. rewrite Forall_forall in Hall. now apply Hall.
Qed.

Lemma find_all_invalid_iff fuel hashes B d :
  find_all fuel hashes B d = Some InvalidArgument <->
  create fuel B d = Some InvalidArgument.
Proof.
  unfold find_all, find_all_list.
  destruct (create fuel B d) as [[ps|]|]; split; intros H;
    try discriminate; reflexivity.
Qed.

Lemma find_clusters_invalid_iff so mo mato fuel hashes B d :
  find_clusters so mo mato fuel hashes B d = Some InvalidArgument <->
  find_all fuel hashes B d = Some InvalidArgument.
Proof.
  unfold find_clusters.
  destruct (find_all fuel hashes B d) as [[ms|]|]; split; intros H;
    try discriminate; try reflexivity.
  destruct (clusters_of _ _ _ _ _); discriminate.
Qed.

(** C5 (as stated).  The specification makes [d = 0] a failure of
    [create]; the call [create(4, 0)] returns normally (one permutation,
    the identity), so the stated equivalence is false at [B = 4],
    [d = 0]. *)
Lemma create_zero_distance_counterexample :
  ~ (create_throws 4 0 <-> (0 = 0 \/ 4 <= 0 \/ 64 < 4)).
Proof.
  intros [_ H]. destruct H as [fuel Hf]; [left; reflexivity |].
  apply create_invalid_iff in Hf. unfold BITS in Hf. lia.
Qed.

(** C5 (amended).  [create(B, d)] fails with an invalid-argument error if
    and only if [B > 64] or [B <= d], whatever the fuel; the same holds
    for [find_all] and [find_clusters], which call it; and when
    [d < B <= 64] it returns normally as soon as the fuel covers the
    [C(B, d)] iterations of [choose].  [d = 0] is not rejected. *)
Theorem create_fails_iff (B d : nat) :
  (create_throws B d <-> 64 < B \/ B <= d) /\
  (forall fuel, create fuel B d = Some InvalidArgument <-> 64 < B \/ B <= d) /\
  (forall fuel hashes,
     find_all fuel hashes B d = Some InvalidArgument <-> 64 < B \/ B <= d) /\
  (forall set_order map_order matches_order fuel hashes,
     find_clusters set_order map_order matches_order fuel hashes B d
       = Some InvalidArgument <-> 64 < B \/ B <= d) /\
  (d < B -> B <= 64 -> forall fuel, binomial B d <= fuel ->
   exists ps, create fuel B d = Some (Ok ps)).
Proof.
  split; [| split; [| split; [| split]]].
  - split.
    + intros [fuel Hf]. now apply create_invalid_iff in Hf.
    + intros H. exists 0. now apply create_invalid_iff.
  - intros fuel. apply create_invalid_iff.
  - intros fuel hashes. rewrite find_all_invalid_iff. apply create_invalid_iff.
  - intros so mo mato fuel hashes.
    rewrite find_clusters_invalid_iff, find_all_invalid_iff.
    apply create_invalid_iff.
  - intros Hd HB fuel Hf. exists (family B d). now apply create_ok.
Qed.

Lemma create_fails_iff_witness :
  (create_throws 3 3 <-> 64 < 3 \/ 3 <= 3) /\
  exists ps, create 4 4 1 = Some (Ok ps).
Proof.
  split.
  - apply (create_fails_iff 3 3).
  - apply (create_fails_iff 4 1); [lia | lia | vm_compute; lia].
Defined.

(** C6.  Family size and structure.  For [d < B <= 64] and enough fuel,
    [create(B, d)] returns exactly [C(B, d)] permutations: one for each
    sub-sequence of [B - d] blocks of the natural block list, enumerated
    in lexicographic order of the chosen block positions; the mask list of
    each permutation is the chosen blocks, in their original relative
    order, followed by the blocks not chosen, in their original relative
    order. *)
Theorem create_family_structure (B d fuel : nat) :
  0 < d -> d < B -> B <= 64 -> binomial B d <= fuel ->
  exists ps,
    create fuel B d = Some (Ok ps) /\
    length ps = binomial B d /\
    map forward_masks ps =
      map (family_masks B) (combs (B - d) (make_blocks B)) /\
    combs (B - d) (make_blocks B) =
      map (map (fun i => make_blocks B !!! i)) (combs (B - d) (seq 0 B)) /\
    StronglySorted lex_lt (combs (B - d) (seq 0 B)) /\
    NoDup (combs (B - d) (make_blocks B)) /\
    (forall c, c ∈ combs (B - d) (make_blocks B) <->
               sublist c (make_blocks B) /\ length c = B - d) /\
    (forall c, c ∈ combs (B - d) (make_blocks B) ->
       exists rest,
         family_masks B c = c ++ rest /\
         sublist c (make_blocks B) /\
         sublist rest (make_blocks B) /\
         forall b, b ∈ rest <-> b ∈ make_blocks B /\ b ∉ c).
Proof.
  intros _ Hd HB Hf. exists (family B d).
  split; [now apply create_ok |].
  split; [apply family_length; lia |].
  split; [unfold family; rewrite map_map; reflexivity |].
  split.
  { transitivity
      (combs (B - d)
         (map (fun i => make_blocks B !!! i)
            (seq 0 (length (make_blocks B))))).
    - now rewrite lookup_total_seq_map_Z.
    - rewrite make_blocks_length. apply combs_map. }
  split; [apply combs_seq_sorted |].
  split; [apply combs_NoDup, make_blocks_NoDup; unfold BITS; lia |].
  split; [apply elem_of_combs |].
  intros c Hc. apply elem_of_combs in Hc as [Hs Hl].
  exists (filter (fun b => b ∉ c) (make_blocks B)).
  split; [reflexivity |]. split; [exact Hs |].
  split; [apply sublist_filter |].
  intros b. rewrite list_elem_of_filter. tauto.
Qed.

Lemma create_family_structure_witness :
  exists ps,
    create 6 4 2 = Some (Ok ps) /\
    length ps = binomial 4 2 /\
    map forward_masks ps =
      map (family_masks 4) (combs (4 - 2) (make_blocks 4)).
Proof.
  destruct (create_family_structure 4 2 6) as (ps & H1 & H2 & H3 & _);
    [lia | lia | lia | vm_compute; lia |].
  exists ps. split; [exact H1 |]. split; [exact H2 | exact H3].
Defined.

End Create.

(** * The tables of a permutation and the bits of [apply] and [reverse] *)

Section Tables.
Local Open Scope Z_scope.

Lemma ctor_step_eq st m :
  ctor_step st m =
  mkCtor (cs_width st + mask_width m)
    (cs_widths st ++ [mask_width m])
    (cs_reverse_masks st ++
       [shifted_mask (m, 64 - (cs_width st + mask_width m) - mask_lo m)])
    (cs_offsets st ++ [64 - (cs_width st + mask_width m) - mask_lo m]).
Proof. reflexivity. Qed.

(** The first constructor loop computes the layout. *)
Lemma ctor_fold masks : forall st,
  fold_left ctor_step masks st =
  mkCtor (cs_width st + total_width masks)
    (cs_widths st ++ map mask_width masks)
    (cs_reverse_masks st ++ map shifted_mask (layout (cs_width st) masks))
    (cs_offsets st ++ map snd (layout (cs_width st) masks)).
Proof.
  induction masks as [|m masks IH]; intros st.
  - cbn [fold_left layout map]. unfold total_width. cbn [foldr].
    rewrite Z.add_0_r, !app_nil_r. now destruct st.
  - cbn [fold_left]. rewrite IH, ctor_step_eq.
    cbn [cs_width cs_widths cs_reverse_masks cs_offsets layout map].
    unfold total_width. cbn [foldr]. fold (total_width masks).
    rewrite <- !app_assoc. cbn [app]. f_equal. lia.
Qed.

Lemma layout_fst masks : forall W, map fst (layout W masks) = masks.
Proof.
  induction masks as [|m masks IH]; intros W; cbn [layout map]; [reflexivity |].
  now rewrite IH.
Qed.

Lemma layout_length masks W : length (layout W masks) = length masks.
Proof. now rewrite <- (length_map fst (layout W masks)), layout_fst. Qed.

Lemma layout_app l1 : forall W l2,
  layout W (l1 ++ l2) = layout W l1 ++ layout (W + total_width l1) l2.
Proof.
  induction l1 as [|m l1 IH]; intros W l2.
  - cbn [app layout]. unfold total_width. cbn [foldr]. now rewrite Z.add_0_r.
  - cbn [app layout]. rewrite IH. unfold total_width. cbn [foldr].
    fold (total_width l1). do 3 f_equal. lia.
Qed.

Lemma forward_masks_new d masks : forward_masks (new_Permutation d masks) = masks.
Proof. reflexivity. Qed.

Lemma offsets_new d masks :
  offsets (new_Permutation d masks) = map snd (layout 0 masks).
Proof. unfold new_Permutation. cbn [offsets]. now rewrite ctor_fold. Qed.

Lemma reverse_masks_new d masks :
  reverse_masks (new_Permutation d masks) = map shifted_mask (layout 0 masks).
Proof. unfold new_Permutation. cbn [reverse_masks]. now rewrite ctor_fold. Qed.

Lemma leading_width_spec widths : forall d size width,
  leading_width d size widths width =
  width + foldr Z.add 0 (take (size - d) widths).
Proof.
  induction widths as [|w widths IH]; intros d size width.
  - cbn [leading_width]. rewrite take_nil. simpl. lia.
  - cbn [leading_width]. destruct (Nat.ltb_spec d size).
    + rewrite IH. replace (size - d)%nat with (S (size - S d)) by lia.
      cbn [take foldr]. lia.
    + replace (size - d)%nat with 0%nat by lia. cbn [take foldr]. lia.
Qed.

Lemma search_mask_new d masks :
  search_mask (new_Permutation d masks) =
  make_search_mask (total_width (take (length masks - d) masks)).
Proof.
  unfold search_mask, new_Permutation. cbn [search_mask_].
  rewrite ctor_fold. cbn [cs_widths app].
  rewrite leading_width_spec, length_map, Z.add_0_l. f_equal.
  rewrite <- fmap_take. generalize (take (length masks - d) masks).
  intros l. induction l as [|m l IH]; [reflexivity |].
  cbn [fmap list_fmap foldr]. unfold total_width. cbn [foldr].
  fold (total_width l). now rewrite <- IH.
Qed.

Lemma apply_new d masks h :
  apply (new_Permutation d masks) h =
  fold_left (apply_step h) (layout 0 masks) 0.
Proof.
  unfold apply. rewrite forward_masks_new, offsets_new.
  rewrite <- (layout_fst masks 0) at 1. now rewrite zip_fst_snd.
Qed.

Lemma zip_map_both {A B C} (f : A -> B) (g : A -> C) (l : list A) :
  zip (map f l) (map g l) = map (fun x => (f x, g x)) l.
Proof. induction l as [|x l IH]; [reflexivity |]. simpl. now rewrite IH. Qed.

Lemma reverse_new d masks h :
  reverse (new_Permutation d masks) h =
  fold_left (reverse_step h)
    (map (fun mo => (shifted_mask mo, mo.2)) (layout 0 masks)) 0.
Proof.
  unfold reverse. rewrite reverse_masks_new, offsets_new.
  now rewrite zip_map_both.
Qed.

(** ** Bits moved by one loop iteration *)

Lemma entry_testbit_range mo j :
  entry_ok mo -> Z.testbit mo.1 j = true ->
  0 <= j < 64 /\ 0 <= j + mo.2 < 64.
Proof.
  intros (Hc & Hlo & Hhi) Hb. pose proof (contiguous_bounds _ Hc).
  apply (contiguous_testbit_true _ _ Hc) in Hb. lia.
Qed.

Lemma apply_step_testbit h acc mo k :
  entry_ok mo -> 0 <= k ->
  Z.testbit (apply_step h acc mo) k =
  Z.testbit acc k || (Z.testbit h (k - mo.2) && Z.testbit mo.1 (k - mo.2)).
Proof.
  intros Hok Hk. destruct mo as [m o]. cbn [fst snd] in *.
  unfold apply_step. destruct (Z.ltb_spec 0 o).
  - rewrite Z.lor_spec, wrap64_testbit, Z.shiftl_spec, Z.land_spec by lia.
    destruct (Z.ltb_spec k 64); [reflexivity |]. simpl.
    destruct (Z.testbit m (k - o)) eqn:Hb; [| now rewrite andb_false_r].
    apply (entry_testbit_range (m, o) _ Hok) in Hb. cbn [fst snd] in Hb. lia.
  - rewrite Z.lor_spec, Z.shiftr_spec, Z.land_spec by lia.
    replace (k + - o) with (k - o) by lia. reflexivity.
Qed.

Lemma shifted_mask_testbit mo k :
  entry_ok mo -> 0 <= k ->
  Z.testbit (shifted_mask mo) k = Z.testbit mo.1 (k - mo.2).
Proof.
  intros Hok Hk. destruct mo as [m o]. unfold shifted_mask. cbn [fst snd] in *.
  destruct (Z.ltb_spec 0 o).
  - rewrite wrap64_testbit, Z.shiftl_spec by lia.
    destruct (Z.ltb_spec k 64); [reflexivity |]. simpl.
    destruct (Z.testbit m (k - o)) eqn:Hb; [| reflexivity].
    apply (entry_testbit_range (m, o) _ Hok) in Hb. cbn [fst snd] in Hb. lia.
  - rewrite Z.shiftr_spec by lia. f_equal; lia.
Qed.

Lemma reverse_step_testbit h acc mo k :
  entry_ok mo -> 0 <= k ->
  Z.testbit (reverse_step h acc (shifted_mask mo, mo.2)) k =
  Z.testbit acc k || (Z.testbit h (k + mo.2) && Z.testbit mo.1 k).
Proof.
  intros Hok Hk. unfold reverse_step.
  destruct (Z.ltb_spec 0 mo.2).
  - rewrite Z.lor_spec, Z.shiftr_spec, Z.land_spec by lia.
    rewrite shifted_mask_testbit by (assumption || lia).
    replace (k + mo.2 - mo.2) with k by lia. reflexivity.
  - rewrite Z.lor_spec, wrap64_testbit, Z.shiftl_spec, Z.land_spec by lia.
    replace (k - - mo.2) with (k + mo.2) by lia.
    destruct (Z.testbit mo.1 k) eqn:Hb.
    + pose proof (entry_testbit_range mo _ Hok Hb).
      rewrite shifted_mask_testbit by (assumption || lia).
      replace (k + mo.2 - mo.2) with k by lia. rewrite Hb.
      destruct (Z.ltb_spec k 64); [reflexivity | lia].
    + rewrite andb_false_r.
      destruct (Z.lt_ge_cases (k + mo.2) 0).
      * rewrite (Z.testbit_neg_r (shifted_mask mo)) by lia.
        now rewrite !andb_false_r.
      * rewrite shifted_mask_testbit by (assumption || lia).
        replace (k + mo.2 - mo.2) with k by lia. rewrite Hb.
        now rewrite !andb_false_r.
Qed.

(** ** Bits of the folds *)

Lemma apply_fold_testbit h lay : forall acc k,
  Forall entry_ok lay -> 0 <= k ->
  Z.testbit (fold_left (apply_step h) lay acc) k =
  Z.testbit acc k ||
  existsb (fun mo => Z.testbit h (k - mo.2) && Z.testbit mo.1 (k - mo.2)) lay.
Proof.
  induction lay as [|mo lay IH]; intros acc k Hok Hk.
  - simpl. now rewrite orb_false_r.
  - apply Forall_cons in Hok as [Hmo Hok]. cbn [fold_left existsb].
    rewrite IH, apply_step_testbit by assumption. now rewrite orb_assoc.
Qed.

Lemma reverse_fold_testbit h lay : forall acc k,
  Forall entry_ok lay -> 0 <= k ->
  Z.testbit
    (fold_left (reverse_step h)
       (map (fun mo => (shifted_mask mo, mo.2)) lay) acc) k =
  Z.testbit acc k ||
  existsb (fun mo => Z.testbit h (k + mo.2) && Z.testbit mo.1 k) lay.
Proof.
  induction lay as [|mo lay IH]; intros acc k Hok Hk.
  - simpl. now rewrite orb_false_r.
  - apply Forall_cons in Hok as [Hmo Hok]. cbn [map fold_left existsb].
    rewrite IH, reverse_step_testbit by assumption. now rewrite orb_assoc.
Qed.

Lemma apply_fold_nonneg h lay : forall acc,
  Forall entry_ok lay -> 0 <= acc -> 0 <= fold_left (apply_step h) lay acc.
Proof.
  induction lay as [|mo lay IH]; intros acc Hok Hacc; [exact Hacc |].
  apply Forall_cons in Hok as [Hmo Hok]. cbn [fold_left]. apply IH; [easy |].
  destruct mo as [m o]. unfold apply_step.
  pose proof (contiguous_is_hash m (proj1 Hmo)) as Hm.
  assert (0 <= Z.land h m) by (apply Z.land_nonneg; unfold is_hash in Hm; lia).
  destruct (0 <? o); apply Z.lor_nonneg; split; try assumption.
  - pose proof (is_hash_wrap64 (Z.shiftl (Z.land h m) o)) as Hw.
    unfold is_hash in Hw. lia.
  - now apply Z.shiftr_nonneg.
Qed.

Lemma reverse_fold_nonneg h lay : forall acc,
  Forall entry_ok lay -> 0 <= acc ->
  0 <= fold_left (reverse_step h)
         (map (fun mo => (shifted_mask mo, mo.2)) lay) acc.
Proof.
  induction lay as [|mo lay IH]; intros acc Hok Hacc; [exact Hacc |].
  apply Forall_cons in Hok as [Hmo Hok]. cbn [map fold_left]. apply IH; [easy |].
  unfold reverse_step.
  assert (0 <= shifted_mask mo) as Hs.
  { unfold shifted_mask. pose proof (contiguous_is_hash _ (proj1 Hmo)) as Hm.
    destruct (0 <? mo.2).
    - pose proof (is_hash_wrap64 (Z.shiftl mo.1 mo.2)) as Hw.
      unfold is_hash in Hw. lia.
    - apply Z.shiftr_nonneg. unfold is_hash in Hm. lia. }
  assert (0 <= Z.land h (shifted_mask mo)) by (apply Z.land_nonneg; lia).
  destruct (0 <? mo.2); apply Z.lor_nonneg; split; try assumption.
  - now apply Z.shiftr_nonneg.
  - pose proof (is_hash_wrap64
                  (Z.shiftl (Z.land h (shifted_mask mo)) (- mo.2))) as Hw.
    unfold is_hash in Hw. lia.
Qed.

(** ** Where the layout puts the blocks *)

Lemma total_width_nonneg masks :
  Forall contiguous masks -> 0 <= total_width masks.
Proof.
  induction 1 as [|m masks Hm _ IH]; [reflexivity |].
  rewrite total_width_cons. unfold mask_width.
  pose proof (contiguous_bounds m Hm). lia.
Qed.

Lemma layout_entry masks : forall W mo,
  Forall contiguous masks -> 0 <= W -> W + total_width masks <= 64 ->
  mo ∈ layout W masks ->
  entry_ok mo /\ mo.1 ∈ masks /\
  64 - (W + total_width masks) <= mask_lo mo.1 + mo.2 /\
  mask_hi mo.1 + mo.2 <= 64 - W.
Proof.
  induction masks as [|m masks IH]; intros W mo Hc HW Htot Hin;
    [inversion Hin |].
  apply Forall_cons in Hc as [Hm Hc].
  pose proof (contiguous_bounds m Hm) as Hb.
  pose proof (total_width_nonneg masks Hc) as Hnn.
  rewrite total_width_cons in Htot. rewrite total_width_cons.
  cbn [layout] in Hin. apply elem_of_cons in Hin as [-> | Hin].
  - cbn [fst snd]. unfold entry_ok. cbn [fst snd]. unfold mask_width in *.
    split; [split; [exact Hm | lia] |]. split; [left | lia].
  - unfold mask_width in *.
    destruct (IH (W + (mask_hi m - mask_lo m)) mo Hc ltac:(lia) ltac:(lia) Hin)
      as (H1 & H2 & H3 & H4).
    split; [exact H1 |]. split; [now right | lia].
Qed.

Lemma layout_entries_ok masks :
  Forall contiguous masks -> total_width masks <= 64 ->
  Forall entry_ok (layout 0 masks).
Proof.
  intros Hc Htot. apply Forall_forall. intros mo Hmo.
  now apply (layout_entry masks 0 mo Hc).
Qed.

(** Two entries whose destination ranges meet are the same entry. *)
Lemma layout_dest_inj masks : forall W mo mo' j j',
  Forall contiguous masks -> 0 <= W -> W + total_width masks <= 64 ->
  mo ∈ layout W masks -> mo' ∈ layout W masks ->
  Z.testbit mo.1 j = true -> Z.testbit mo'.1 j' = true ->
  j + mo.2 = j' + mo'.2 -> mo = mo'.
Proof.
  induction masks as [|m masks IH]; intros W mo mo' j j' Hc HW Htot Hin Hin' Hj Hj' Heq;
    [inversion Hin |].
  pose proof Hc as Hc0. apply Forall_cons in Hc as [Hm Hc].
  pose proof (contiguous_bounds m Hm) as Hb.
  pose proof (total_width_nonneg masks Hc) as Hnn.
  rewrite total_width_cons in Htot. unfold mask_width in Htot.
  cbn [layout] in Hin, Hin'. unfold mask_width in Hin, Hin'.
  apply elem_of_cons in Hin as [-> | Hin];
    apply elem_of_cons in Hin' as [-> | Hin']; [reflexivity | | |].
  - exfalso. cbn [fst snd] in *.
    apply (contiguous_testbit_true _ _ Hm) in Hj.
    destruct (layout_entry masks (W + (mask_hi m - mask_lo m)) mo' Hc
                ltac:(lia) ltac:(lia) Hin')
      as ((Hc' & _) & _ & _ & Hhi).
    apply (contiguous_testbit_true _ _ Hc') in Hj'. lia.
  - exfalso. cbn [fst snd] in *.
    apply (contiguous_testbit_true _ _ Hm) in Hj'.
    destruct (layout_entry masks (W + (mask_hi m - mask_lo m)) mo Hc
                ltac:(lia) ltac:(lia) Hin)
      as ((Hc' & _) & _ & _ & Hhi).
    apply (contiguous_testbit_true _ _ Hc') in Hj. lia.
  - apply (IH (W + (mask_hi m - mask_lo m)) mo mo' j j'); try assumption; lia.
Qed.

(** Every position of the destination window is covered by an entry. *)
Lemma layout_dest_cover masks : forall W k,
  Forall contiguous masks -> 0 <= W -> W + total_width masks <= 64 ->
  64 - (W + total_width masks) <= k < 64 - W ->
  exists mo, mo ∈ layout W masks /\ Z.testbit mo.1 (k - mo.2) = true.
Proof.
  induction masks as [|m masks IH]; intros W k Hc HW Htot Hk.
  - rewrite total_width_nil in Hk. lia.
  - apply Forall_cons in Hc as [Hm Hc].
    pose proof (contiguous_bounds m Hm) as Hb.
    pose proof (total_width_nonneg masks Hc) as Hnn.
    rewrite total_width_cons in Htot, Hk. unfold mask_width in Htot, Hk.
    cbn [layout]. unfold mask_width.
    destruct (Z.lt_ge_cases k (64 - (W + (mask_hi m - mask_lo m)))) as [Hlt|Hge].
    + destruct (IH (W + (mask_hi m - mask_lo m)) k Hc ltac:(lia) ltac:(lia)
                  ltac:(lia)) as (mo & Hin & Hbit).
      exists mo. split; [now right | exact Hbit].
    + eexists. split; [left |]. cbn [fst snd].
      apply (contiguous_testbit_true _ _ Hm). lia.
Qed.

Lemma layout_src_total masks : forall W m,
  m ∈ masks -> exists o, (m, o) ∈ layout W masks.
Proof.
  induction masks as [|m0 masks IH]; intros W m Hin; [inversion Hin |].
  cbn [layout]. apply elem_of_cons in Hin as [-> | Hin].
  - eexists. left.
  - destruct (IH (W + mask_width m0) m Hin) as [o Ho]. exists o. now right.
Qed.

Lemma layout_src_fun masks W m o o' :
  NoDup masks -> (m, o) ∈ layout W masks -> (m, o') ∈ layout W masks -> o = o'.
Proof.
  intros Hnd. revert W. induction masks as [|m0 masks IH]; intros W H1 H2;
    [inversion H1 |].
  apply NoDup_cons in Hnd as [Hm0 Hnd]. cbn [layout] in H1, H2.
  assert (forall W' x, (m0, x) ∈ layout W' masks -> False) as Hno.
  { intros W' x Hx. apply Hm0. rewrite <- (layout_fst masks W').
    apply (list_elem_of_fmap_2 fst _ _ Hx). }
  apply elem_of_cons in H1 as [H1 | H1]; apply elem_of_cons in H2 as [H2 | H2].
  - congruence.
  - injection H1 as -> _. now apply Hno in H2.
  - injection H2 as -> _. now apply Hno in H1.
  - now apply (IH Hnd (W + mask_width m0)).
Qed.

End Tables.

(** * Permutations built from a tiling list of block masks *)

Section Tiling.
Local Open Scope Z_scope.

Variable d : nat.
Variable masks : list Z.
Hypothesis Hpart : partition64 masks.

Let p := new_Permutation d masks.

Lemma tiling_contiguous : Forall contiguous masks.
Proof. apply Hpart. Qed.

Lemma tiling_total : total_width masks = 64.
Proof. apply Hpart. Qed.

Lemma tiling_entries_ok : Forall entry_ok (layout 0 masks).
Proof.
  apply layout_entries_ok; [apply tiling_contiguous |].
  rewrite tiling_total. lia.
Qed.

Lemma tiling_entry_ok mo : mo ∈ layout 0 masks -> entry_ok mo.
Proof. intros H. exact (proj1 (Forall_forall _ _) tiling_entries_ok mo H). Qed.

Lemma tiling_dest_inj mo mo' j j' :
  mo ∈ layout 0 masks -> mo' ∈ layout 0 masks ->
  Z.testbit mo.1 j = true -> Z.testbit mo'.1 j' = true ->
  j + mo.2 = j' + mo'.2 -> mo = mo'.
Proof.
  apply layout_dest_inj; [apply tiling_contiguous | lia |].
  rewrite tiling_total. lia.
Qed.

Lemma tiling_dest_cover k :
  0 <= k < 64 ->
  exists mo, mo ∈ layout 0 masks /\ Z.testbit mo.1 (k - mo.2) = true.
Proof.
  intros Hk. apply layout_dest_cover; [apply tiling_contiguous | lia | |];
    rewrite tiling_total; lia.
Qed.

Lemma tiling_src_cover k :
  0 <= k < 64 ->
  exists mo, mo ∈ layout 0 masks /\ Z.testbit mo.1 k = true.
Proof.
  intros Hk. destruct Hpart as (_ & _ & _ & Hcov & _).
  destruct (Hcov k Hk) as (m & Hm & Hb).
  destruct (layout_src_total masks 0 m Hm) as [o Ho].
  exists (m, o). split; [exact Ho | exact Hb].
Qed.

Lemma tiling_src_inj mo mo' j :
  mo ∈ layout 0 masks -> mo' ∈ layout 0 masks ->
  Z.testbit mo.1 j = true -> Z.testbit mo'.1 j = true -> mo = mo'.
Proof.
  intros Hin Hin' Hb Hb'. destruct Hpart as (Hc & Hnd & Hdisj & _ & _).
  destruct mo as [m o], mo' as [m' o']. cbn [fst snd] in *.
  assert (m = m') as <-.
  { apply (Hdisj m m' j); try assumption.
    - rewrite <- (layout_fst masks 0). apply (list_elem_of_fmap_2 fst _ _ Hin).
    - rewrite <- (layout_fst masks 0). apply (list_elem_of_fmap_2 fst _ _ Hin'). }
  f_equal. exact (layout_src_fun masks 0 m o o' Hnd Hin Hin').
Qed.

(** [apply] moves the bit at position [j] of a block to [j + offset]. *)
Lemma apply_bit mo j h :
  mo ∈ layout 0 masks -> Z.testbit mo.1 j = true ->
  Z.testbit (apply p h) (j + mo.2) = Z.testbit h j.
Proof.
  intros Hin Hb. pose proof (tiling_entry_ok mo Hin) as Hok.
  pose proof (entry_testbit_range mo j Hok Hb) as Hr.
  unfold p. rewrite apply_new, apply_fold_testbit
    by (apply tiling_entries_ok || lia).
  rewrite Z.bits_0, orb_false_l. apply eq_true_iff_eq.
  rewrite existsb_exists. split.
  - intros (mo' & Hin' & Hf). apply list_elem_of_In in Hin'.
    apply andb_true_iff in Hf as [Hh Hb'].
    assert (mo = mo') as <-.
    { apply (tiling_dest_inj mo mo' j (j + mo.2 - mo'.2)); try assumption. lia. }
    now replace (j + mo.2 - mo.2) with j in Hh by lia.
  - intros Hh. exists mo. split; [now apply list_elem_of_In |].
    replace (j + mo.2 - mo.2) with j by lia. now rewrite Hh, Hb.
Qed.

(** [reverse] fetches the bit at position [j] of a block from
    [j + offset]. *)
Lemma reverse_bit mo j h :
  mo ∈ layout 0 masks -> Z.testbit mo.1 j = true ->
  Z.testbit (reverse p h) j = Z.testbit h (j + mo.2).
Proof.
  intros Hin Hb. pose proof (tiling_entry_ok mo Hin) as Hok.
  pose proof (entry_testbit_range mo j Hok Hb) as Hr.
  unfold p. rewrite reverse_new, reverse_fold_testbit
    by (apply tiling_entries_ok || lia).
  rewrite Z.bits_0, orb_false_l. apply eq_true_iff_eq.
  rewrite existsb_exists. split.
  - intros (mo' & Hin' & Hf). apply list_elem_of_In in Hin'.
    apply andb_true_iff in Hf as [Hh Hb'].
    assert (mo = mo') as <- by (apply (tiling_src_inj mo mo' j); assumption).
    exact Hh.
  - intros Hh. exists mo. split; [now apply list_elem_of_In |].
    now rewrite Hh, Hb.
Qed.

Lemma apply_is_hash h : is_hash (apply p h).
Proof.
  unfold p. rewrite apply_new. apply is_hash_bits.
  - intros k Hk. rewrite apply_fold_testbit by (apply tiling_entries_ok || lia).
    rewrite Z.bits_0, orb_false_l.
    destruct (existsb _ _) eqn:He; [| reflexivity].
    apply existsb_exists in He as (mo & Hin & Hf).
    apply list_elem_of_In in Hin. apply andb_true_iff in Hf as [_ Hb].
    pose proof (entry_testbit_range mo _ (tiling_entry_ok mo Hin) Hb). lia.
  - apply apply_fold_nonneg; [apply tiling_entries_ok | lia].
Qed.

Lemma reverse_is_hash h : is_hash (reverse p h).
Proof.
  unfold p. rewrite reverse_new. apply is_hash_bits.
  - intros k Hk. rewrite reverse_fold_testbit
      by (apply tiling_entries_ok || lia).
    rewrite Z.bits_0, orb_false_l.
    destruct (existsb _ _) eqn:He; [| reflexivity].
    apply existsb_exists in He as (mo & Hin & Hf).
    apply list_elem_of_In in Hin. apply andb_true_iff in Hf as [_ Hb].
    pose proof (entry_testbit_range mo _ (tiling_entry_ok mo Hin) Hb). lia.
  - apply reverse_fold_nonneg; [apply tiling_entries_ok | lia].
Qed.

Lemma reverse_apply h : is_hash h -> reverse p (apply p h) = h.
Proof.
  intros Hh. apply hash_eq_bits; [apply reverse_is_hash | exact Hh |].
  intros k Hk. destruct (tiling_src_cover k Hk) as (mo & Hin & Hb).
  rewrite (reverse_bit mo k _ Hin Hb). now apply apply_bit.
Qed.

Lemma apply_reverse h : is_hash h -> apply p (reverse p h) = h.
Proof.
  intros Hh. apply hash_eq_bits; [apply apply_is_hash | exact Hh |].
  intros k Hk. destruct (tiling_dest_cover k Hk) as (mo & Hin & Hb).
  replace k with (k - mo.2 + mo.2) at 1 by lia.
  rewrite (apply_bit mo _ _ Hin Hb), (reverse_bit mo _ _ Hin Hb).
  f_equal. lia.
Qed.

Lemma apply_inj x y : is_hash x -> is_hash y -> apply p x = apply p y -> x = y.
Proof.
  intros Hx Hy H. rewrite <- (reverse_apply x Hx), <- (reverse_apply y Hy).
  now rewrite H.
Qed.

Lemma apply_lxor x y : apply p (Z.lxor x y) = Z.lxor (apply p x) (apply p y).
Proof.
  apply hash_eq_bits;
    [apply apply_is_hash | apply is_hash_lxor; apply apply_is_hash |].
  intros k Hk. destruct (tiling_dest_cover k Hk) as (mo & Hin & Hb).
  rewrite Z.lxor_spec. replace k with (k - mo.2 + mo.2) by lia.
  rewrite !(apply_bit mo _ _ Hin Hb). apply Z.lxor_spec.
Qed.

End Tiling.

(** * Population counts under a permutation *)

Section Popcount.
Local Open Scope Z_scope.

Lemma count_bits_lor a b : forall s n,
  (forall k, Z.testbit a k = true -> Z.testbit b k = true -> False) ->
  count_bits (Z.lor a b) s n = (count_bits a s n + count_bits b s n)%nat.
Proof.
  intros s n Hd. revert s. induction n as [|n IH]; intros s; [reflexivity |].
  cbn [count_bits]. rewrite IH, Z.lor_spec.
  destruct (Z.testbit a s) eqn:Ha, (Z.testbit b s) eqn:Hb; simpl; try lia.
  exfalso. exact (Hd s Ha Hb).
Qed.

Lemma popcount_lor a b :
  (forall k, Z.testbit a k = true -> Z.testbit b k = true -> False) ->
  popcount (Z.lor a b) = (popcount a + popcount b)%nat.
Proof. apply count_bits_lor. Qed.

Lemma popcount_ext a b :
  (forall k, 0 <= k < 64 -> Z.testbit a k = Z.testbit b k) ->
  popcount a = popcount b.
Proof.
  intros H. apply count_bits_ext. intros k Hk. rewrite !Z.add_0_l.
  apply H. unfold BITS in Hk. lia.
Qed.

(** A word whose set bits lie in a window is counted on the window. *)
Lemma popcount_window x a (n : nat) :
  0 <= a -> a + Z.of_nat n <= 64 ->
  (forall k, 0 <= k < 64 -> Z.testbit x k = true -> a <= k < a + Z.of_nat n) ->
  popcount x = count_bits x a n.
Proof.
  intros Ha Han Hsup. unfold popcount.
  replace BITS with (Z.to_nat a + (n + (64 - Z.to_nat a - n)))%nat
    by (unfold BITS; lia).
  rewrite !count_bits_app.
  rewrite (count_bits_zero x 0), (count_bits_zero x (0 + Z.of_nat (Z.to_nat a) + Z.of_nat n)).
  - rewrite Z.add_0_l, Z2Nat.id by lia. lia.
  - intros k Hk. destruct (Z.testbit x k) eqn:Hb; [| reflexivity].
    apply Hsup in Hb; lia.
  - intros k Hk. destruct (Z.testbit x k) eqn:Hb; [| reflexivity].
    apply Hsup in Hb; lia.
Qed.

Lemma mask_union_testbit ms k :
  Z.testbit (mask_union ms) k = true <->
  exists m, m ∈ ms /\ Z.testbit m k = true.
Proof.
  induction ms as [|m ms IH]; unfold mask_union in *; cbn [foldr].
  - rewrite Z.bits_0. split; [discriminate |].
    intros (m & Hm & _). inversion Hm.
  - rewrite Z.lor_spec, orb_true_iff, IH. split.
    + intros [Hb | (m' & Hm' & Hb)].
      * exists m. split; [left | exact Hb].
      * exists m'. split; [now right | exact Hb].
    + intros (m' & Hm' & Hb). apply elem_of_cons in Hm' as [-> | Hm'].
      * now left.
      * right. eauto.
Qed.

Lemma popcount_union g ms :
  pairwise_disjoint ms ->
  popcount (Z.land g (mask_union ms)) =
  sum_list (map (fun m => popcount (Z.land g m)) ms).
Proof.
  induction ms as [|m ms IH]; intros Hd.
  - unfold mask_union. cbn [foldr map sum_list]. now rewrite Z.land_0_r.
  - destruct Hd as [Hm Hd]. cbn [map sum_list]. rewrite <- IH by exact Hd.
    unfold mask_union. cbn [foldr]. fold (mask_union ms).
    rewrite Z.land_lor_distr_r. apply popcount_lor.
    intros k H1 H2. rewrite Z.land_spec in H1, H2.
    apply andb_true_iff in H1 as [_ H1]. apply andb_true_iff in H2 as [_ H2].
    apply mask_union_testbit in H2 as (m' & Hm' & Hb').
    exact (Hm m' k Hm' H1 Hb').
Qed.

(** The population count splits over a tiling of the word. *)
Lemma popcount_partition g ms :
  pairwise_disjoint ms ->
  (forall k, 0 <= k < 64 -> exists m, m ∈ ms /\ Z.testbit m k = true) ->
  popcount g = sum_list (map (fun m => popcount (Z.land g m)) ms).
Proof.
  intros Hd Hcov. rewrite <- popcount_union by exact Hd.
  apply popcount_ext. intros k Hk. rewrite Z.land_spec.
  rewrite (proj2 (mask_union_testbit ms k) (Hcov k Hk)).
  now rewrite andb_true_r.
Qed.

Lemma NoDup_pairwise_disjoint ms :
  NoDup ms ->
  (forall m1 m2 k, m1 ∈ ms -> m2 ∈ ms ->
     Z.testbit m1 k = true -> Z.testbit m2 k = true -> m1 = m2) ->
  pairwise_disjoint ms.
Proof.
  induction 1 as [|m ms Hm Hnd IH]; intros Hdisj; [exact I |].
  split.
  - intros m' k Hm' Hb Hb'. apply Hm.
    rewrite (Hdisj m m' k); [exact Hm' | left | now right | exact Hb | exact Hb'].
  - apply IH. intros m1 m2 k H1 H2. apply Hdisj; now right.
Qed.

Lemma contiguous_popcount m :
  contiguous m -> Z.of_nat (popcount m) = mask_width m.
Proof.
  intros Hc. pose proof (contiguous_bounds m Hc) as Hb. unfold mask_width.
  rewrite (popcount_window m (mask_lo m) (Z.to_nat (mask_hi m - mask_lo m)))
    by (try lia; intros k Hk Hbit;
        apply (contiguous_testbit_true m k Hc) in Hbit; lia).
  rewrite count_bits_full; [lia |].
  intros k Hk. apply (contiguous_testbit_true m k Hc). lia.
Qed.

End Popcount.

Section TilingCount.
Local Open Scope Z_scope.

Variable d : nat.
Variable masks : list Z.
Hypothesis Hpart : partition64 masks.

Let p := new_Permutation d masks.

Lemma tiling_pairwise_disjoint : pairwise_disjoint masks.
Proof.
  destruct Hpart as (_ & Hnd & Hdisj & _ & _).
  now apply NoDup_pairwise_disjoint.
Qed.

Lemma layout_NoDup : NoDup (layout 0 masks).
Proof.
  apply (NoDup_fmap_1 fst). rewrite layout_fst. apply Hpart.
Qed.

Lemma dest_pairwise_disjoint :
  forall lay, NoDup lay -> lay ⊆ layout 0 masks ->
  pairwise_disjoint (map shifted_mask lay).
Proof.
  induction 1 as [|mo lay Hmo Hnd IH]; intros Hsub; [exact I |].
  cbn [map pairwise_disjoint]. split.
  - intros r k Hr Hb Hb'.
    apply list_elem_of_fmap in Hr as (mo' & -> & Hmo').
    assert (mo ∈ layout 0 masks) as Hin by (apply Hsub; left).
    assert (mo' ∈ layout 0 masks) as Hin' by (apply Hsub; now right).
    destruct (Z.lt_ge_cases k 0) as [Hneg|Hk];
      [rewrite Z.testbit_neg_r in Hb by lia; discriminate |].
    rewrite shifted_mask_testbit in Hb, Hb'
      by (eauto using tiling_entry_ok || lia).
    apply Hmo.
    rewrite (tiling_dest_inj masks Hpart mo mo' _ _ Hin Hin' Hb Hb');
      [exact Hmo' | lia].
  - apply IH. intros x Hx. apply Hsub. now right.
Qed.

Lemma dest_cover_masks k :
  0 <= k < 64 ->
  exists r, r ∈ map shifted_mask (layout 0 masks) /\ Z.testbit r k = true.
Proof.
  intros Hk. destruct (tiling_dest_cover masks Hpart k Hk) as (mo & Hin & Hb).
  exists (shifted_mask mo). split.
  - apply list_elem_of_fmap. eauto.
  - rewrite shifted_mask_testbit by (eauto using tiling_entry_ok || lia).
    exact Hb.
Qed.

(** The bits a block contributes keep their number when moved. *)
Lemma entry_popcount mo h :
  mo ∈ layout 0 masks ->
  popcount (Z.land (apply p h) (shifted_mask mo)) = popcount (Z.land h mo.1).
Proof.
  intros Hin. pose proof (tiling_entry_ok masks Hpart mo Hin) as Hok.
  destruct Hok as (Hc & Hlo & Hhi). pose proof (contiguous_bounds _ Hc) as Hb.
  set (n := Z.to_nat (mask_hi mo.1 - mask_lo mo.1)).
  rewrite (popcount_window _ (mask_lo mo.1 + mo.2) n).
  - rewrite (popcount_window (Z.land h mo.1) (mask_lo mo.1) n).
    + apply count_bits_ext. intros k Hk. rewrite !Z.land_spec.
      assert (Z.testbit mo.1 (mask_lo mo.1 + k) = true) as Hbit
        by (apply (contiguous_testbit_true _ _ Hc); lia).
      rewrite shifted_mask_testbit by ((split; [exact Hc | lia]) || lia).
      replace (mask_lo mo.1 + mo.2 + k - mo.2) with (mask_lo mo.1 + k) by lia.
      replace (mask_lo mo.1 + mo.2 + k) with (mask_lo mo.1 + k + mo.2) by lia.
      unfold p. now rewrite (apply_bit d masks Hpart mo _ h Hin Hbit).
    + lia.
    + lia.
    + intros k Hk Hbit. rewrite Z.land_spec in Hbit.
      apply andb_true_iff in Hbit as [_ Hbit].
      apply (contiguous_testbit_true _ _ Hc) in Hbit. lia.
  - lia.
  - lia.
  - intros k Hk Hbit. rewrite Z.land_spec in Hbit.
    apply andb_true_iff in Hbit as [_ Hbit].
    rewrite shifted_mask_testbit in Hbit by ((split; [exact Hc | lia]) || lia).
    apply (contiguous_testbit_true _ _ Hc) in Hbit. lia.
Qed.

(** [apply] preserves the population count. *)
Lemma apply_popcount h : is_hash h -> popcount (apply p h) = popcount h.
Proof.
  intros Hh.
  rewrite (popcount_partition (apply p h) (map shifted_mask (layout 0 masks)))
    by ((apply dest_pairwise_disjoint; [apply layout_NoDup | reflexivity])
        || apply dest_cover_masks).
  rewrite (popcount_partition h masks)
    by (apply tiling_pairwise_disjoint || apply Hpart).
  rewrite <- (layout_fst masks 0) at 2. rewrite !map_map.
  f_equal. apply map_ext_in. intros mo Hmo.
  apply entry_popcount. now apply list_elem_of_In.
Qed.

Lemma apply_num_differing_bits x y :
  is_hash x -> is_hash y ->
  num_differing_bits (apply p x) (apply p y) = num_differing_bits x y.
Proof.
  intros Hx Hy.
  rewrite !num_differing_bits_popcount
    by (assumption || apply (apply_is_hash d masks Hpart)).
  unfold p. rewrite <- (apply_lxor d masks Hpart).
  apply apply_popcount. now apply is_hash_lxor.
Qed.

End TilingCount.

(** * Properties of the members of the family *)

Section Family.
Local Open Scope Z_scope.

(** Every permutation returned by [create] is built from a tiling list of
    masks that starts with [B - d] chosen blocks. *)
Lemma family_member fuel (B d : nat) ps p :
  create fuel B d = Some (Ok ps) -> p ∈ ps ->
  (d < B <= 64)%nat /\
  exists c, sublist c (make_blocks B) /\ length c = (B - d)%nat /\
            p = new_Permutation d (family_masks B c) /\
            partition64 (family_masks B c).
Proof.
  intros Hc Hp.
  assert (d < B <= 64)%nat as Hr.
  { unfold create in Hc.
    destruct (Nat.ltb_spec BITS B); [discriminate |].
    destruct (Nat.leb_spec B d); [discriminate |]. unfold BITS in *. lia. }
  split; [exact Hr |].
  apply create_family in Hc as ->.
  apply elem_of_family in Hp as (c & Hs & Hl & ->).
  exists c. repeat split; try assumption.
  all: apply family_masks_partition; [unfold BITS; lia | exact Hs].
Qed.

(** ** The search mask *)

Lemma testbit_one k : Z.testbit 1 k = (k =? 0).
Proof. destruct k as [|q|q]; try reflexivity; now destruct q. Qed.

Lemma ones_loop_testbit (n : nat) k :
  (n <= 64)%nat -> 0 <= k ->
  Z.testbit (Nat.iter n (fun s => Z.lor (wrap64 (Z.shiftl s 1)) 1) 0) k =
  (k <? Z.of_nat n).
Proof.
  revert k. induction n as [|n IH]; intros k Hn Hk.
  - cbn [Nat.iter]. rewrite Z.bits_0. symmetry. apply Z.ltb_ge. lia.
  - rewrite Nat.iter_succ, Z.lor_spec, wrap64_testbit, Z.shiftl_spec by lia.
    rewrite testbit_one.
    destruct (Z.eq_dec k 0) as [->|Hne].
    + rewrite Z.eqb_refl, orb_true_r. symmetry. apply Z.ltb_lt. lia.
    + rewrite IH by lia.
      destruct (Z.eqb_spec k 0); [lia |]. rewrite orb_false_r.
      destruct (Z.ltb_spec k 64), (Z.ltb_spec (k - 1) (Z.of_nat n)),
               (Z.ltb_spec k (Z.of_nat (S n))); simpl; try reflexivity; lia.
Qed.

Lemma shift_loop_testbit (n : nat) s0 k :
  (forall j, 64 <= j -> Z.testbit s0 j = false) -> 0 <= k ->
  Z.testbit (Nat.iter n (fun s => wrap64 (Z.shiftl s 1)) s0) k =
  (k <? 64) && Z.testbit s0 (k - Z.of_nat n).
Proof.
  intros Hs0. revert k. induction n as [|n IH]; intros k Hk.
  - simpl. rewrite Z.sub_0_r. destruct (Z.ltb_spec k 64); [reflexivity |].
    now apply Hs0.
  - rewrite Nat.iter_succ, wrap64_testbit, Z.shiftl_spec by lia.
    destruct (Z.eq_dec k 0) as [->|Hne].
    + rewrite !Z.testbit_neg_r by lia. reflexivity.
    + rewrite IH by lia.
      replace (k - 1 - Z.of_nat n) with (k - Z.of_nat (S n)) by lia.
      destruct (Z.ltb_spec k 64), (Z.ltb_spec (k - 1) 64);
        simpl; try reflexivity; lia.
Qed.

Lemma make_search_mask_testbit W k :
  0 <= W <= 64 -> 0 <= k ->
  Z.testbit (make_search_mask W) k = (64 - W <=? k) && (k <? 64).
Proof.
  intros HW Hk. unfold make_search_mask.
  rewrite shift_loop_testbit; [| | exact Hk].
  - rewrite Z2Nat.id by lia.
    destruct (Z.lt_ge_cases (k - (64 - W)) 0).
    + rewrite Z.testbit_neg_r by lia.
      destruct (Z.leb_spec (64 - W) k); [lia |]. now rewrite andb_false_r.
    + rewrite ones_loop_testbit by lia. rewrite Z2Nat.id by lia.
      destruct (Z.leb_spec (64 - W) k), (Z.ltb_spec k 64),
               (Z.ltb_spec (k - (64 - W)) W); simpl; try reflexivity; lia.
  - intros j Hj. rewrite ones_loop_testbit by lia.
    destruct (Z.ltb_spec j (Z.of_nat (Z.to_nat W))); [lia | reflexivity].
Qed.

Lemma make_search_mask_nonneg W : 0 <= make_search_mask W.
Proof.
  unfold make_search_mask.
  destruct (Z.to_nat (64 - W)) as [|n].
  - simpl. generalize (Z.to_nat W). intros n. induction n as [|n IH];
      [simpl; lia |].
    rewrite Nat.iter_succ. apply Z.lor_nonneg. split; [| lia].
    pose proof (is_hash_wrap64
      (Z.shiftl (Nat.iter n (fun s => Z.lor (wrap64 (Z.shiftl s 1)) 1) 0) 1)) as H.
    unfold is_hash in H. lia.
  - rewrite Nat.iter_succ.
    match goal with |- 0 <= wrap64 ?x => pose proof (is_hash_wrap64 x) as H end.
    unfold is_hash in H. lia.
Qed.

Lemma make_search_mask_is_hash W : 0 <= W <= 64 -> is_hash (make_search_mask W).
Proof.
  intros HW. apply is_hash_bits; [| apply make_search_mask_nonneg].
  intros k Hk. rewrite make_search_mask_testbit by lia.
  destruct (Z.ltb_spec k 64); [lia |]. apply andb_false_r.
Qed.

Lemma make_search_mask_popcount W :
  0 <= W <= 64 -> Z.of_nat (popcount (make_search_mask W)) = W.
Proof.
  intros HW.
  rewrite (popcount_window _ (64 - W) (Z.to_nat W)); try lia.
  - rewrite count_bits_full; [lia |]. intros k Hk.
    rewrite make_search_mask_testbit by lia.
    destruct (Z.leb_spec (64 - W) k), (Z.ltb_spec k 64);
      simpl; try reflexivity; lia.
  - intros k Hk Hb. rewrite make_search_mask_testbit in Hb by lia.
    apply andb_true_iff in Hb as [Hb _]. apply Z.leb_le in Hb. lia.
Qed.

Lemma total_width_popcount ms :
  Forall contiguous ms ->
  total_width ms = Z.of_nat (sum_list (map popcount ms)).
Proof.
  induction 1 as [|m ms Hm _ IH]; [reflexivity |].
  rewrite total_width_cons, IH. cbn [map sum_list]. unfold id.
  rewrite Nat2Z.inj_add, contiguous_popcount by exact Hm. reflexivity.
Qed.

Lemma total_width_sub l1 l2 :
  Forall contiguous l2 -> sublist l1 l2 -> 0 <= total_width l1 <= total_width l2.
Proof.
  intros Hc Hs. induction Hs as [| x l1 l2 Hs IH | x l1 l2 Hs IH].
  - rewrite total_width_nil. lia.
  - apply Forall_cons in Hc as [Hx Hc]. rewrite !total_width_cons.
    specialize (IH Hc). pose proof (contiguous_bounds x Hx).
    unfold mask_width. lia.
  - apply Forall_cons in Hc as [Hx Hc]. rewrite total_width_cons.
    specialize (IH Hc). pose proof (contiguous_bounds x Hx).
    unfold mask_width. lia.
Qed.

(** ** Block placement *)

Lemma layout_lookup ms : forall W (t : nat) m,
  ms !! t = Some m ->
  layout W ms !! t =
  Some (m, 64 - (W + total_width (take (S t) ms)) - mask_lo m).
Proof.
  induction ms as [|m0 ms IH]; intros W t m Ht; [discriminate |].
  destruct t as [|t].
  - injection Ht as ->. cbn [layout take lookup list_lookup].
    rewrite take_0, total_width_cons, total_width_nil, Z.add_0_r. reflexivity.
  - cbn [lookup list_lookup] in Ht. cbn [layout lookup list_lookup].
    rewrite (IH _ _ _ Ht). cbn [take]. rewrite (total_width_cons m0).
    do 3 f_equal. lia.
Qed.

End Family.

Section TilingPlacement.
Local Open Scope Z_scope.

Variable d : nat.
Variable masks : list Z.
Hypothesis Hpart : partition64 masks.

Let p := new_Permutation d masks.

(** The image of a single bit of a block is that bit moved by the offset
    of the block. *)
Lemma apply_single_bit mo j :
  mo ∈ layout 0 masks -> Z.testbit mo.1 j = true ->
  apply p (Z.shiftl 1 j) = Z.shiftl 1 (j + mo.2).
Proof.
  intros Hin Hb.
  pose proof (entry_testbit_range mo j (tiling_entry_ok masks Hpart mo Hin) Hb)
    as Hr.
  apply hash_eq_bits; [apply (apply_is_hash d masks Hpart) | |].
  - rewrite Z.shiftl_1_l. unfold is_hash. split; [lia |].
    apply Z.pow_lt_mono_r; lia.
  - intros k Hk.
    destruct (tiling_dest_cover masks Hpart k Hk) as (mo' & Hin' & Hb').
    replace k with (k - mo'.2 + mo'.2) at 1 by lia.
    unfold p. rewrite (apply_bit d masks Hpart mo' _ _ Hin' Hb').
    pose proof (entry_testbit_range mo' _
                  (tiling_entry_ok masks Hpart mo' Hin') Hb') as Hr'.
    rewrite !Z.shiftl_1_l, !Z.pow2_bits_eqb by lia.
    destruct (Z.eqb_spec j (k - mo'.2)) as [Heq|Hne],
             (Z.eqb_spec (j + mo.2) k) as [Heq'|Hne']; try reflexivity.
    + exfalso. apply Hne'. subst j.
      assert (mo = mo') as ->
        by (apply (tiling_src_inj masks Hpart mo mo' (k - mo'.2)); assumption).
      lia.
    + exfalso. apply Hne.
      assert (mo = mo') as Hmo
        by (apply (tiling_dest_inj masks Hpart mo mo' j (k - mo'.2));
            try assumption; lia).
      subst mo'. lia.
Qed.

Lemma dest_bit_spec mo j :
  mo ∈ layout 0 masks -> Z.testbit mo.1 j = true ->
  dest_bit p j = j + mo.2.
Proof.
  intros Hin Hb.
  pose proof (entry_testbit_range mo j (tiling_entry_ok masks Hpart mo Hin) Hb).
  unfold dest_bit. rewrite (apply_single_bit mo j Hin Hb).
  rewrite Z.shiftl_1_l. apply Z.log2_pow2. lia.
Qed.

(** Earlier masks of the list land strictly higher than later ones. *)
Lemma tiling_high_to_low : high_to_low p.
Proof.
  intros t m1 m2 k1 k2 H1 H2 Hb1 Hb2.
  unfold p in H1, H2. rewrite forward_masks_new in H1, H2.
  pose proof (layout_lookup masks 0 t m1 H1) as L1.
  pose proof (layout_lookup masks 0 (S t) m2 H2) as L2.
  apply list_elem_of_lookup_2 in L1 as Hin1.
  apply list_elem_of_lookup_2 in L2 as Hin2.
  rewrite (dest_bit_spec _ k1 Hin1 Hb1), (dest_bit_spec _ k2 Hin2 Hb2).
  cbn [snd].
  rewrite (take_S_r masks (S t) m2 H2), total_width_app, total_width_cons,
    total_width_nil.
  destruct (tiling_entry_ok masks Hpart _ Hin1) as (Hc1 & _).
  destruct (tiling_entry_ok masks Hpart _ Hin2) as (Hc2 & _).
  cbn [fst] in Hc1, Hc2.
  apply (contiguous_testbit_true _ _ Hc1) in Hb1.
  apply (contiguous_testbit_true _ _ Hc2) in Hb2.
  unfold mask_width. lia.
Qed.

End TilingPlacement.

(** * Theorems on the permutations of the family *)

Section FamilyTheorems.
Local Open Scope Z_scope.

(** C3.  Permutation roundtrip.  For [0 < d < B <= 64], every permutation
    [p] of the family returned by [create(B, d)] and every 64-bit hash
    [h]: [p.reverse(p.apply(h)) = h] and [p.apply(p.reverse(h)) = h]. *)
Theorem permutation_roundtrip fuel (B d : nat) ps p h :
  (0 < d)%nat -> (d < B)%nat -> (B <= 64)%nat ->
  create fuel B d = Some (Ok ps) -> p ∈ ps -> is_hash h ->
  reverse p (apply p h) = h /\ apply p (reverse p h) = h.
Proof.
  intros _ _ _ Hc Hp Hh.
  destruct (family_member fuel B d ps p Hc Hp) as (_ & c & _ & _ & -> & Hpart).
  split; [now apply reverse_apply | now apply apply_reverse].
Qed.

Lemma permutation_roundtrip_witness :
  reverse (new_Permutation 1 (make_blocks 4))
    (apply (new_Permutation 1 (make_blocks 4)) 81985529216486895)
  = 81985529216486895 /\
  apply (new_Permutation 1 (make_blocks 4))
    (reverse (new_Permutation 1 (make_blocks 4)) 81985529216486895)
  = 81985529216486895.
Proof.
  apply (permutation_roundtrip 4 4 1 (family 4 1));
    [lia | lia | lia | vm_compute; reflexivity | vm_compute; left
    | unfold is_hash; lia].
Defined.

(** C10.  For [0 < d < B <= 64], every permutation [p] of the family
    returned by [create(B, d)] and all 64-bit hashes [x], [y]:
    [p.apply(x XOR y) = p.apply(x) XOR p.apply(y)], and
    [num_differing_bits(p.apply(x), p.apply(y)) = num_differing_bits(x, y)]. *)
Theorem apply_xor_hamming fuel (B d : nat) ps p x y :
  (0 < d)%nat -> (d < B)%nat -> (B <= 64)%nat ->
  create fuel B d = Some (Ok ps) -> p ∈ ps -> is_hash x -> is_hash y ->
  apply p (Z.lxor x y) = Z.lxor (apply p x) (apply p y) /\
  num_differing_bits (apply p x) (apply p y) = num_differing_bits x y.
Proof.
  intros _ _ _ Hc Hp Hx Hy.
  destruct (family_member fuel B d ps p Hc Hp) as (_ & c & _ & _ & -> & Hpart).
  split; [now apply apply_lxor | now apply apply_num_differing_bits].
Qed.

Lemma apply_xor_hamming_witness :
  apply (new_Permutation 2 (make_blocks 4)) (Z.lxor 1311768467294899695 255)
  = Z.lxor (apply (new_Permutation 2 (make_blocks 4)) 1311768467294899695)
           (apply (new_Permutation 2 (make_blocks 4)) 255) /\
  num_differing_bits
    (apply (new_Permutation 2 (make_blocks 4)) 1311768467294899695)
    (apply (new_Permutation 2 (make_blocks 4)) 255)
  = num_differing_bits 1311768467294899695 255.
Proof.
  apply (apply_xor_hamming 6 4 2 (family 4 2));
    [lia | lia | lia | vm_compute; reflexivity | vm_compute; left
    | unfold is_hash; lia | unfold is_hash; lia].
Defined.

Lemma family_masks_length (B : nat) c :
  (0 < B <= 64)%nat -> sublist c (make_blocks B) ->
  length (family_masks B c) = B.
Proof.
  intros HB Hs. rewrite (Permutation_length (family_masks_perm B c HB Hs)).
  apply make_blocks_length.
Qed.

(** C7.  Search-mask shape.  For [0 < d < B <= 64] and every permutation
    [p] of the family: the population count of [p.search_mask()] is the
    sum of the widths of the first [B - d] block masks of [p] (the width
    of a mask being its number of set bits, which is also the [j - i] the
    constructor computes), and the set bits of the mask are exactly the
    top positions [64 - popcount .. 63] of the 64-bit word. *)
Theorem search_mask_shape fuel (B d : nat) ps p :
  (0 < d)%nat -> (d < B)%nat -> (B <= 64)%nat ->
  create fuel B d = Some (Ok ps) -> p ∈ ps ->
  popcount (search_mask p) =
    sum_list (map popcount (take (B - d) (forward_masks p))) /\
  Z.of_nat (popcount (search_mask p)) =
    total_width (take (B - d) (forward_masks p)) /\
  is_hash (search_mask p) /\
  forall k, 0 <= k < 64 ->
    Z.testbit (search_mask p) k =
    (64 - Z.of_nat (popcount (search_mask p)) <=? k).
Proof.
  intros _ _ _ Hc Hp.
  destruct (family_member fuel B d ps p Hc Hp)
    as (Hr & c & Hs & Hl & -> & Hpart).
  rewrite search_mask_new, forward_masks_new.
  rewrite family_masks_length by (lia || exact Hs).
  set (lead := take (B - d) (family_masks B c)).
  assert (Forall contiguous lead) as Hlc
    by (apply Forall_take; apply Hpart).
  assert (0 <= total_width lead <= 64) as Hw.
  { destruct Hpart as (Hcont & _ & _ & _ & Htot). rewrite <- Htot.
    apply total_width_sub; [exact Hcont | apply sublist_take]. }
  pose proof (make_search_mask_popcount _ Hw) as Hpop.
  split; [| split; [exact Hpop | split]].
  - apply Nat2Z.inj. rewrite Hpop. now apply total_width_popcount.
  - now apply make_search_mask_is_hash.
  - intros k Hk. rewrite Hpop, make_search_mask_testbit by lia.
    destruct (Z.ltb_spec k 64); [| lia]. apply andb_true_r.
Qed.

Lemma search_mask_shape_witness :
  popcount (search_mask (new_Permutation 1 (make_blocks 4))) =
    sum_list (map popcount
                (take (4 - 1)
                   (forward_masks (new_Permutation 1 (make_blocks 4))))) /\
  Z.testbit (search_mask (new_Permutation 1 (make_blocks 4))) 16 =
    (64 - Z.of_nat (popcount (search_mask (new_Permutation 1 (make_blocks 4))))
       <=? 16).
Proof.
  destruct (search_mask_shape 4 4 1 (family 4 1)
              (new_Permutation 1 (make_blocks 4)))
    as (H1 & _ & _ & H4);
    [lia | lia | lia | vm_compute; reflexivity | vm_compute; left |].
  split; [exact H1 | apply H4; lia].
Defined.

(** C9 (as stated).  The permutation built from the four blocks in their
    natural order sends bit 0 of the first mask to position 48 and bit 16
    of the second mask to position 32: the earlier mask lands higher, not
    lower. *)
Lemma block_placement_counterexample :
  ~ low_to_high (new_Permutation 1 (make_blocks 4)).
Proof.
  intros H.
  specialize (H 0%nat 65535 4294901760 0 16).
  assert (dest_bit (new_Permutation 1 (make_blocks 4)) 0 <
          dest_bit (new_Permutation 1 (make_blocks 4)) 16) as Hlt
    by (apply H; vm_compute; reflexivity).
  vm_compute in Hlt. discriminate.
Qed.

(** C9 (amended).  For every permutation constructed from an ordered list
    of the [B] block masks, the blocks appear in the permuted word from
    high position to low position in list order: for every consecutive
    pair of masks in the constructor's input list, [apply] maps the bits
    of the earlier mask to strictly higher bit positions than the bits of
    the later mask. *)
Theorem block_placement_high_to_low (B d : nat) masks :
  (0 < B <= 64)%nat -> masks ≡ₚ make_blocks B ->
  high_to_low (new_Permutation d masks).
Proof.
  intros HB Hperm. apply tiling_high_to_low.
  eapply partition64_perm; [symmetry; exact Hperm |].
  now apply make_blocks_partition.
Qed.

Lemma block_placement_high_to_low_witness :
  high_to_low (new_Permutation 1 (make_blocks 4)).
Proof.
  apply (block_placement_high_to_low 4 1 (make_blocks 4)); [lia | reflexivity].
Defined.

End FamilyTheorems.

(** * The prefix sweep of [find_all] *)

Section Sorting.
Local Open Scope Z_scope.

Lemma sort_insert_perm x l : sort_insert x l ≡ₚ x :: l.
Proof.
  induction l as [|y l IH]; [reflexivity |]. cbn [sort_insert].
  destruct (x <=? y); [reflexivity |].
  rewrite IH. apply Permutation_swap.
Qed.

Lemma sort_perm l : sort l ≡ₚ l.
Proof.
  induction l as [|x l IH]; [reflexivity |]. unfold sort in *. cbn [foldr].
  now rewrite sort_insert_perm, IH.
Qed.

Lemma sort_insert_sorted x l :
  StronglySorted Z.le l -> StronglySorted Z.le (sort_insert x l).
Proof.
  induction 1 as [|y l Hs IH Hall]; [repeat constructor |].
  cbn [sort_insert]. destruct (Z.leb_spec x y).
  - constructor; [now constructor |]. constructor; [exact H |].
    eapply Forall_impl; [exact Hall |]. intros z Hz. simpl in Hz. lia.
  - constructor; [exact IH |].
    rewrite sort_insert_perm. constructor; [lia | exact Hall].
Qed.

Lemma sort_sorted l : StronglySorted Z.le (sort l).
Proof.
  induction l as [|x l IH]; [constructor |]. unfold sort in *. cbn [foldr].
  now apply sort_insert_sorted.
Qed.

(** The sorted arrangement of a vector of integers is unique: any correct
    sorting routine returns [sort l]. *)
Lemma sorted_perm_unique l l' :
  StronglySorted Z.le l' -> l' ≡ₚ l -> l' = sort l.
Proof.
  intros Hs Hp. apply (StronglySorted_unique Z.le); [exact Hs | apply sort_sorted |].
  now rewrite Hp, sort_perm.
Qed.

Lemma elem_of_sort x l : x ∈ sort l <-> x ∈ l.
Proof. now rewrite sort_perm. Qed.

(** ** The search mask keeps a prefix *)

Lemma search_mask_land x W :
  0 <= W <= 64 -> is_hash x ->
  Z.land x (make_search_mask W) = Z.shiftl (Z.shiftr x (64 - W)) (64 - W).
Proof.
  intros HW Hx. apply Z.bits_inj'. intros k Hk.
  rewrite Z.land_spec, make_search_mask_testbit, Z.shiftl_spec by lia.
  destruct (Z.leb_spec (64 - W) k).
  - rewrite Z.shiftr_spec by lia. replace (k - (64 - W) + (64 - W)) with k by lia.
    destruct (Z.ltb_spec k 64); simpl.
    + apply andb_true_r.
    + rewrite hash_high_bits by (assumption || lia). reflexivity.
  - rewrite (Z.testbit_neg_r _ (k - (64 - W))) by lia. simpl.
    apply andb_false_r.
Qed.

Lemma make_search_mask_prefix W :
  0 <= W <= 64 -> prefix_mask (make_search_mask W).
Proof.
  intros HW x y Hx Hy Hxy. rewrite !search_mask_land by assumption.
  rewrite !Z.shiftl_mul_pow2, !Z.shiftr_div_pow2 by lia.
  apply Z.mul_le_mono_nonneg_r; [lia |].
  apply Z.div_le_mono; [lia | exact Hxy].
Qed.

End Sorting.

Section Sweep.
Local Open Scope Z_scope.

Variable p : Permutation.
Variable d : nat.

Lemma canonical_comm a b : canonical a b = canonical b a.
Proof. unfold canonical. now rewrite Z.min_comm, Z.max_comm. Qed.

Lemma compare_pair_spec a results b m :
  m ∈ compare_pair p d a results b <->
  m ∈ results \/
  ((num_differing_bits a b <= d)%nat /\
   m = canonical (reverse p a) (reverse p b)).
Proof.
  unfold compare_pair, canonical.
  destruct (Nat.leb_spec (num_differing_bits a b) d).
  - rewrite elem_of_union, elem_of_singleton. split.
    + intros [Hm | Hm]; [now left | right; split; assumption].
    + intros [Hm | [_ Hm]]; [now left | now right].
  - split; [now left |]. intros [H1 | [H1 _]]; [exact H1 | lia].
Qed.

Lemma fold_left_cons_eq {A B} (f : A -> B -> A) b l r :
  fold_left f (b :: l) r = fold_left f l (f r b).
Proof. reflexivity. Qed.

Lemma compare_fold_spec a l : forall results m,
  m ∈ fold_left (compare_pair p d a) l results <->
  m ∈ results \/
  exists b : Z, b ∈ l /\ (num_differing_bits a b <= d)%nat /\
            m = canonical (reverse p a) (reverse p b).
Proof.
  induction l as [|b l IH]; intros results m.
  - split; [intros H; left; exact H |].
    intros [H | (b & Hb & _)]; [exact H | inversion Hb].
  - rewrite fold_left_cons_eq. split.
    + intros H. apply (proj1 (IH _ _)) in H.
      destruct H as [H | (b' & Hb' & H1 & H2)].
      * apply (proj1 (compare_pair_spec _ _ _ _)) in H.
        destruct H as [H | [H1 H2]]; [now left |].
        right. exists b. split; [left | split; assumption].
      * right. exists b'. split; [now right | split; assumption].
    + intros H. apply (proj2 (IH _ _)).
      destruct H as [H | (b' & Hb' & H1 & H2)].
      * left. apply (proj2 (compare_pair_spec _ _ _ _)). now left.
      * apply elem_of_cons in Hb' as [-> | Hb'].
        -- left. apply (proj2 (compare_pair_spec _ _ _ _)). right.
           split; assumption.
        -- right. exists b'. split; [exact Hb' | split; assumption].
Qed.

(** Which pairs the double loop over a run inserts. *)
Lemma compare_run_spec run : forall results m,
  m ∈ compare_run p d run results ->
  m ∈ results \/
  exists a b : Z, a ∈ run /\ b ∈ run /\ (num_differing_bits a b <= d)%nat /\
              m = canonical (reverse p a) (reverse p b).
Proof.
  induction run as [|a run IH]; intros results m Hm; cbn [compare_run] in Hm.
  - now left.
  - apply IH in Hm as [Hm | (a' & b' & Ha' & Hb' & H1 & H2)].
    + apply (proj1 (compare_fold_spec _ _ _ _)) in Hm.
      destruct Hm as [Hm | (b & Hb & H1 & H2)]; [now left |].
      right. exists a, b. split; [left |]. split; [now right |].
      split; assumption.
    + right. exists a', b'. split; [now right |]. split; [now right |].
      split; assumption.
Qed.

Lemma compare_run_mono run : forall results m,
  m ∈ results -> m ∈ compare_run p d run results.
Proof.
  induction run as [|a run IH]; intros results m Hm; cbn [compare_run];
    [exact Hm |].
  apply IH. apply (proj2 (compare_fold_spec _ _ _ _)). now left.
Qed.

Lemma compare_run_hit run : forall results a b,
  a ∈ run -> b ∈ run -> a <> b ->
  (num_differing_bits a b <= d)%nat -> (num_differing_bits b a <= d)%nat ->
  canonical (reverse p a) (reverse p b) ∈ compare_run p d run results.
Proof.
  induction run as [|x run IH]; intros results a b Ha Hb Hne H1 H2;
    [inversion Ha |].
  cbn [compare_run].
  apply elem_of_cons in Ha as [-> | Ha];
    apply elem_of_cons in Hb as [-> | Hb].
  - congruence.
  - apply compare_run_mono, (proj2 (compare_fold_spec _ _ _ _)). right.
    exists b. split; [exact Hb |]. split; [exact H1 | reflexivity].
  - apply compare_run_mono, (proj2 (compare_fold_spec _ _ _ _)). right.
    exists a. split; [exact Ha |]. split; [exact H2 | apply canonical_comm].
  - now apply IH.
Qed.

(** ** Splitting off a run *)

Lemma split_run_spec mask prefix l :
  forall run rest, split_run mask prefix l = (run, rest) ->
  l = run ++ rest /\
  Forall (fun x => Z.land x mask = prefix) run /\
  match rest with
  | [] => True
  | r :: _ => Z.land r mask <> prefix
  end.
Proof.
  induction l as [|x l IH]; intros run rest H; cbn [split_run] in H.
  - injection H as <- <-. repeat split; constructor.
  - destruct (Z.eqb_spec (Z.land x mask) prefix) as [Heq|Hne].
    + destruct (split_run mask prefix l) as [run' rest'] eqn:Hs.
      injection H as <- <-.
      destruct (IH run' rest' eq_refl) as (-> & Hall & Hrest).
      repeat split; [now constructor | exact Hrest].
    + injection H as <- <-. repeat split; [constructor | exact Hne].
Qed.

Variable mask : Z.
Hypothesis Hmask : prefix_mask mask.

(** In a sorted buffer nothing after the run shares its prefix. *)
Lemma rest_other_prefix first run rest :
  StronglySorted Z.le (first :: run ++ rest) ->
  Forall is_hash (first :: run ++ rest) ->
  match rest with
  | [] => True
  | r :: _ => Z.land r mask <> Z.land first mask
  end ->
  forall x, x ∈ rest -> Z.land x mask <> Z.land first mask.
Proof.
  intros Hs Hh Hr x Hx. destruct rest as [|r rest]; [inversion Hx |].
  apply StronglySorted_cons in Hs as [Hfirst Hs].
  apply Forall_cons in Hh as [Hhf Hh].
  apply Forall_app in Hh as [_ Hh]. apply Forall_cons in Hh as [Hhr Hh].
  apply Forall_app in Hfirst as [_ Hfirst].
  apply Forall_cons in Hfirst as [Hfr _].
  apply StronglySorted_app in Hs as (_ & _ & Hs).
  apply StronglySorted_cons in Hs as [Hrx _].
  pose proof (Hmask first r Hhf Hhr Hfr) as H1.
  assert (Z.land r mask <= Z.land x mask) as H2.
  { apply elem_of_cons in Hx as [-> | Hx]; [lia |].
    apply Hmask; [exact Hhr | | ].
    - exact (proj1 (Forall_forall _ _) Hh x Hx).
    - exact (proj1 (Forall_forall _ _) Hrx x Hx). }
  lia.
Qed.

Lemma sweep_mono fuel : forall start results m,
  m ∈ results -> m ∈ sweep fuel p d mask start results.
Proof.
  induction fuel as [|fuel IH]; intros start results m Hm; [exact Hm |].
  cbn [sweep]. destruct start as [|first tl]; [exact Hm |].
  destruct (split_run mask (Z.land first mask) (first :: tl)) as [run rest].
  apply IH. now apply compare_run_mono.
Qed.

Lemma sweep_spec fuel : forall start results m,
  m ∈ sweep fuel p d mask start results ->
  m ∈ results \/
  exists a b : Z, a ∈ start /\ b ∈ start /\ (num_differing_bits a b <= d)%nat /\
              m = canonical (reverse p a) (reverse p b).
Proof.
  induction fuel as [|fuel IH]; intros start results m Hm; [now left |].
  cbn [sweep] in Hm. destruct start as [|first tl]; [now left |].
  destruct (split_run mask (Z.land first mask) (first :: tl))
    as [run rest] eqn:Hs.
  apply split_run_spec in Hs as (Hl & _ & _).
  apply IH in Hm as [Hm | (a & b & Ha & Hb & H1 & H2)].
  - apply compare_run_spec in Hm as [Hm | (a & b & Ha & Hb & H1 & H2)];
      [now left |].
    right. exists a, b. rewrite Hl.
    split; [apply elem_of_app; now left |].
    split; [apply elem_of_app; now left |]. split; assumption.
  - right. exists a, b. rewrite Hl.
    split; [apply elem_of_app; now right |].
    split; [apply elem_of_app; now right |]. split; assumption.
Qed.

(** Two distinct words of a sorted buffer that share the masked prefix are
    compared with each other. *)
Lemma sweep_hit fuel : forall start results a b,
  (length start <= fuel)%nat ->
  StronglySorted Z.le start -> Forall is_hash start ->
  a ∈ start -> b ∈ start -> a <> b ->
  Z.land a mask = Z.land b mask ->
  (num_differing_bits a b <= d)%nat -> (num_differing_bits b a <= d)%nat ->
  canonical (reverse p a) (reverse p b) ∈ sweep fuel p d mask start results.
Proof.
  induction fuel as [|fuel IH];
    intros start results a b Hf Hs Hh Ha Hb Hne Hpre H1 H2.
  - destruct start; [inversion Ha | simpl in Hf; lia].
  - cbn [sweep]. destruct start as [|first tl]; [inversion Ha |].
    destruct (split_run mask (Z.land first mask) (first :: tl))
      as [run rest] eqn:Hsp.
    pose proof Hsp as Hsp'. cbn [split_run] in Hsp'.
    rewrite Z.eqb_refl in Hsp'.
    destruct (split_run mask (Z.land first mask) tl) as [run' rest'] eqn:Hsp2.
    injection Hsp' as <- <-.
    apply split_run_spec in Hsp2 as (-> & Hall & Hrest).
    pose proof (rest_other_prefix first run' rest' Hs Hh Hrest) as Hother.
    assert (forall x, x ∈ first :: run' -> Z.land x mask = Z.land first mask)
      as Hrun.
    { intros x Hx. apply elem_of_cons in Hx as [-> | Hx]; [reflexivity |].
      exact (proj1 (Forall_forall _ _) Hall x Hx). }
    change (first :: run' ++ rest') with ((first :: run') ++ rest') in *.
    apply elem_of_app in Ha as [Ha | Ha]; apply elem_of_app in Hb as [Hb | Hb].
    + apply sweep_mono. now apply compare_run_hit.
    + exfalso. apply (Hother b Hb). rewrite <- Hpre. now apply Hrun.
    + exfalso. apply (Hother a Ha). rewrite Hpre. now apply Hrun.
    + apply IH; try assumption.
      * rewrite length_app in Hf. simpl in Hf. lia.
      * now apply StronglySorted_app in Hs as (_ & _ & Hs).
      * now apply Forall_app in Hh as [_ Hh].
Qed.

End Sweep.

(** * A permutation that brings two close hashes together *)

Section GoodChoice.
Local Open Scope Z_scope.

Lemma popcount_pos n : is_hash n -> n <> 0 -> (0 < popcount n)%nat.
Proof.
  intros Hn Hne. destruct (popcount n) eqn:Hc; [| lia].
  exfalso. apply Hne. apply hash_eq_bits; [exact Hn | unfold is_hash; lia |].
  intros k Hk. rewrite Z.bits_0.
  destruct (Z.testbit n k) eqn:Hb; [| reflexivity].
  assert (0 < popcount n)%nat as Hp
    by (apply (count_bits_pos n 0 BITS k); [unfold BITS; lia | exact Hb]).
  lia.
Qed.

Lemma lxor_land_zero x y m j :
  Z.land (Z.lxor x y) m = 0 -> Z.testbit m j = true ->
  Z.testbit x j = Z.testbit y j.
Proof.
  intros H Hm.
  assert (Z.testbit (Z.land (Z.lxor x y) m) j = false) as Hb
    by (rewrite H; apply Z.bits_0).
  rewrite Z.land_spec, Z.lxor_spec, Hm, andb_true_r in Hb.
  now apply xorb_eq.
Qed.

(** The blocks on which [z] has a set bit are at most [popcount z]. *)
Lemma disagree_count z ms :
  Forall contiguous ms ->
  Nat.le (length (filter (fun m => Z.land z m <> 0) ms))
         (sum_list (map (fun m => popcount (Z.land z m)) ms)).
Proof.
  induction 1 as [|m ms Hm _ IH]; [reflexivity |].
  cbn [map sum_list]. unfold id, Nat.le in *.
  destruct (decide (Z.land z m <> 0)) as [Hne|He].
  - rewrite filter_cons_True by exact Hne. cbn [length].
    pose proof (popcount_pos (Z.land z m)
                  (is_hash_land_r z m (contiguous_is_hash m Hm)) Hne).
    lia.
  - rewrite filter_cons_False by exact He. lia.
Qed.

Lemma agree_count z (ms : list Z) :
  Nat.add (length (filter (fun m => Z.land z m = 0) ms))
          (length (filter (fun m => Z.land z m <> 0) ms)) = length ms.
Proof.
  rewrite <- length_app.
  apply Permutation_length, (filter_app_complement (fun m => Z.land z m = 0)).
Qed.

(** Two hashes at distance at most [d] agree on some [B - d] blocks. *)
Lemma good_choice (B d : nat) x y :
  (0 < B <= 64)%nat -> (d < B)%nat -> is_hash x -> is_hash y ->
  (popcount (Z.lxor x y) <= d)%nat ->
  exists c, sublist c (make_blocks B) /\ length c = (B - d)%nat /\
            forall m, m ∈ c -> Z.land (Z.lxor x y) m = 0.
Proof.
  intros HB Hd Hx Hy Hpop.
  pose proof (make_blocks_partition B ltac:(unfold BITS; lia)) as Hpart.
  set (z := Z.lxor x y) in *.
  set (agree := filter (fun m => Z.land z m = 0) (make_blocks B)).
  assert (B - d <= length agree)%nat as Hlen.
  { pose proof (agree_count z (make_blocks B)) as Hsum.
    pose proof (disagree_count z (make_blocks B) (proj1 Hpart)) as Hdis.
    unfold Nat.le in *.
    rewrite <- (popcount_partition z (make_blocks B)) in Hdis.
    - rewrite make_blocks_length in Hsum. fold agree in Hsum. lia.
    - now apply tiling_pairwise_disjoint.
    - apply Hpart. }
  exists (take (B - d) agree). split; [| split].
  - etransitivity; [apply sublist_take | apply sublist_filter].
  - rewrite length_take. lia.
  - intros m Hm. apply elem_of_take in Hm as (i & Hi & _).
    apply list_elem_of_lookup_2 in Hi.
    now apply list_elem_of_filter in Hi as [Hz _].
Qed.

(** Under the permutation that puts agreeing blocks first, the two hashes
    share the masked prefix. *)
Lemma prefix_agree (B d : nat) c x y :
  (0 < B <= 64)%nat -> (d < B)%nat ->
  sublist c (make_blocks B) -> length c = (B - d)%nat ->
  (forall m, m ∈ c -> Z.land (Z.lxor x y) m = 0) ->
  let p := new_Permutation d (family_masks B c) in
  Z.land (apply p x) (search_mask p) = Z.land (apply p y) (search_mask p).
Proof.
  intros HB Hd Hs Hl Hagree p.
  pose proof (family_masks_partition B c ltac:(unfold BITS; lia) Hs) as Hpart.
  assert (Forall contiguous c) as Hcc.
  { apply Forall_forall. intros m Hm.
    pose proof (make_blocks_partition B ltac:(unfold BITS; lia)) as (Hc & _).
    apply (proj1 (Forall_forall _ _) Hc). eapply elem_of_sublist; eassumption. }
  assert (0 <= total_width c <= 64) as Hw.
  { destruct (make_blocks_partition B ltac:(unfold BITS; lia))
      as (Hc & _ & _ & _ & Htot).
    rewrite <- Htot. now apply total_width_sub. }
  unfold p. rewrite search_mask_new.
  rewrite family_masks_length by (lia || exact Hs).
  unfold family_masks at 2 4. rewrite <- Hl, take_app_length.
  apply Z.bits_inj'. intros k Hk. rewrite !Z.land_spec.
  rewrite make_search_mask_testbit by lia.
  destruct (Z.leb_spec (64 - total_width c) k), (Z.ltb_spec k 64);
    simpl; rewrite ?andb_false_r; try reflexivity.
  rewrite !andb_true_r.
  destruct (layout_dest_cover c 0 k Hcc ltac:(lia) ltac:(lia) ltac:(lia))
    as (mo & Hin & Hb).
  assert (mo ∈ layout 0 (family_masks B c)) as Hin'
    by (unfold family_masks; rewrite layout_app; apply elem_of_app; now left).
  assert (mo.1 ∈ c) as Hmc
    by (rewrite <- (layout_fst c 0); apply (list_elem_of_fmap_2 fst _ _ Hin)).
  replace k with (k - mo.2 + mo.2) by lia.
  rewrite !(apply_bit d _ Hpart mo _ _ Hin' Hb).
  exact (lxor_land_zero x y mo.1 _ (Hagree _ Hmc) Hb).
Qed.

End GoodChoice.

(** * [find_all] *)

(** The order in which the input set is enumerated does not matter: the
    buffer is sorted before it is swept. *)
Lemma sort_perm_eq l1 l2 : l1 ≡ₚ l2 -> sort l1 = sort l2.
Proof.
  intros Hp. apply sorted_perm_unique; [apply sort_sorted |].
  now rewrite sort_perm.
Qed.

Lemma process_permutation_perm l1 l2 d results p :
  l1 ≡ₚ l2 ->
  process_permutation l1 d results p = process_permutation l2 d results p.
Proof.
  intros Hp. unfold process_permutation.
  assert (sort (map (apply p) l1) = sort (map (apply p) l2)) as ->
    by (apply sort_perm_eq; now apply Permutation_map).
  reflexivity.
Qed.

Lemma find_all_list_perm fuel l1 l2 B d :
  l1 ≡ₚ l2 -> find_all_list fuel l1 B d = find_all_list fuel l2 B d.
Proof.
  intros Hp. unfold find_all_list.
  destruct (create fuel B d) as [[ps|]|]; try reflexivity.
  do 2 f_equal. generalize (∅ : gset match_t).
  induction ps as [|p ps IH]; intros results; [reflexivity |].
  rewrite !fold_left_cons_eq, IH.
  now rewrite (process_permutation_perm l1 l2 d results p Hp).
Qed.

Lemma process_mono hashes d results p m :
  m ∈ results -> m ∈ process_permutation hashes d results p.
Proof. intros Hm. unfold process_permutation. now apply sweep_mono. Qed.

Section ProcessPermutation.
Local Open Scope Z_scope.

Variable d : nat.
Variable masks : list Z.
Hypothesis Hpart : partition64 masks.
Variable hashes : list Z.
Hypothesis Hhashes : Forall is_hash hashes.

Let p := new_Permutation d masks.

Lemma search_mask_prefix : prefix_mask (search_mask p).
Proof.
  unfold p. rewrite search_mask_new. apply make_search_mask_prefix.
  destruct Hpart as (Hc & _ & _ & _ & Htot). rewrite <- Htot.
  apply total_width_sub; [exact Hc | apply sublist_take].
Qed.

Lemma copy_elem a :
  a ∈ sort (map (apply p) hashes) <->
  exists x, x ∈ hashes /\ a = apply p x.
Proof.
  rewrite elem_of_sort, list_elem_of_fmap. split.
  - intros (x & -> & Hx). eauto.
  - intros (x & Hx & ->). eauto.
Qed.

Lemma copy_hashes : Forall is_hash (sort (map (apply p) hashes)).
Proof.
  apply Forall_forall. intros a Ha. apply copy_elem in Ha as (x & _ & ->).
  now apply apply_is_hash.
Qed.

Lemma ndb_popcount_apply x y :
  is_hash x -> is_hash y ->
  num_differing_bits (apply p x) (apply p y) = popcount (Z.lxor x y).
Proof.
  intros Hx Hy. unfold p.
  rewrite (apply_num_differing_bits d masks Hpart x y Hx Hy).
  now apply num_differing_bits_popcount.
Qed.

(** What one permutation adds to the match set. *)
Lemma process_spec results m :
  m ∈ process_permutation hashes d results p ->
  m ∈ results \/
  exists x y : Z, x ∈ hashes /\ y ∈ hashes /\
    (popcount (Z.lxor x y) <= d)%nat /\ m = canonical x y.
Proof.
  unfold process_permutation. intros Hm.
  apply sweep_spec in Hm as [Hm | (a & b & Ha & Hb & Hd & ->)]; [now left |].
  right. apply copy_elem in Ha as (x & Hx & ->).
  apply copy_elem in Hb as (y & Hy & ->).
  pose proof (proj1 (Forall_forall _ _) Hhashes x Hx) as Hhx.
  pose proof (proj1 (Forall_forall _ _) Hhashes y Hy) as Hhy.
  exists x, y. split; [exact Hx |]. split; [exact Hy |].
  rewrite ndb_popcount_apply in Hd by assumption. split; [exact Hd |].
  unfold p. now rewrite !(reverse_apply d masks Hpart).
Qed.

(** Two distinct input hashes within distance [d] that share the masked
    prefix under [p] are reported. *)
Lemma process_hit results x y :
  x ∈ hashes -> y ∈ hashes -> x <> y ->
  Z.land (apply p x) (search_mask p) = Z.land (apply p y) (search_mask p) ->
  (popcount (Z.lxor x y) <= d)%nat ->
  canonical x y ∈ process_permutation hashes d results p.
Proof.
  intros Hx Hy Hne Hpre Hd.
  pose proof (proj1 (Forall_forall _ _) Hhashes x Hx) as Hhx.
  pose proof (proj1 (Forall_forall _ _) Hhashes y Hy) as Hhy.
  unfold process_permutation.
  rewrite <- (reverse_apply d masks Hpart x Hhx) at 1.
  rewrite <- (reverse_apply d masks Hpart y Hhy) at 1.
  fold p. apply sweep_hit.
  - apply search_mask_prefix.
  - reflexivity.
  - apply sort_sorted.
  - apply copy_hashes.
  - apply copy_elem. eauto.
  - apply copy_elem. eauto.
  - intros Heq. apply Hne. exact (apply_inj d masks Hpart x y Hhx Hhy Heq).
  - exact Hpre.
  - now rewrite ndb_popcount_apply.
  - rewrite ndb_popcount_apply, Z.lxor_comm by assumption. exact Hd.
Qed.

End ProcessPermutation.

Section FindAll.
Local Open Scope Z_scope.

Variable B d : nat.
Hypothesis HB : (d < B <= 64)%nat.
Variable hashes : list Z.
Hypothesis Hhashes : Forall is_hash hashes.

Lemma family_process_spec ps : forall results m,
  ps ⊆ family B d ->
  m ∈ fold_left (process_permutation hashes d) ps results ->
  m ∈ results \/
  exists x y : Z, x ∈ hashes /\ y ∈ hashes /\
    (popcount (Z.lxor x y) <= d)%nat /\ m = canonical x y.
Proof.
  induction ps as [|p ps IH]; intros results m Hsub Hm; [now left |].
  rewrite fold_left_cons_eq in Hm.
  apply IH in Hm as [Hm | Hm]; [| now right | intros q Hq; apply Hsub; now right].
  assert (p ∈ family B d) as Hp by (apply Hsub; left).
  apply elem_of_family in Hp as (c & Hs & Hl & ->).
  apply process_spec in Hm;
    [exact Hm | apply family_masks_partition; [unfold BITS; lia | exact Hs]
    | exact Hhashes].
Qed.

Lemma family_process_mono ps : forall results m,
  m ∈ results -> m ∈ fold_left (process_permutation hashes d) ps results.
Proof.
  induction ps as [|p ps IH]; intros results m Hm; [exact Hm |].
  rewrite fold_left_cons_eq. apply IH. now apply process_mono.
Qed.

Lemma family_process_hit x y :
  x ∈ hashes -> y ∈ hashes -> x <> y ->
  (popcount (Z.lxor x y) <= d)%nat ->
  canonical x y ∈ fold_left (process_permutation hashes d) (family B d) ∅.
Proof.
  intros Hx Hy Hne Hd.
  pose proof (proj1 (Forall_forall _ _) Hhashes x Hx) as Hhx.
  pose proof (proj1 (Forall_forall _ _) Hhashes y Hy) as Hhy.
  destruct (good_choice B d x y ltac:(lia) ltac:(lia) Hhx Hhy Hd)
    as (c & Hs & Hl & Hagree).
  assert (new_Permutation d (family_masks B c) ∈ family B d) as Hin
    by (apply elem_of_family; eauto).
  apply list_elem_of_split in Hin as (l1 & l2 & ->).
  rewrite fold_left_app, fold_left_cons_eq.
  apply family_process_mono. apply process_hit; try assumption.
  - apply family_masks_partition; [unfold BITS; lia | exact Hs].
  - apply (prefix_agree B d c x y); (lia || assumption).
Qed.

End FindAll.

Section FindAllTheorems.
Local Open Scope Z_scope.

Lemma canonical_cases x y :
  canonical x y = (x, y) /\ x <= y \/ canonical x y = (y, x) /\ y <= x.
Proof.
  unfold canonical. destruct (Z.le_ge_cases x y).
  - left. rewrite Z.min_l, Z.max_r by lia. easy.
  - right. rewrite Z.min_r, Z.max_l by lia. easy.
Qed.

Lemma find_all_returns (fuel : nat) (hs : gset Z) (B d : nat) M :
  find_all fuel hs B d = Some (Ok M) ->
  (d < B <= 64)%nat /\
  M = fold_left (process_permutation (elements hs) d) (family B d) ∅.
Proof.
  unfold find_all, find_all_list. intros H.
  destruct (create fuel B d) as [[ps|]|] eqn:Hc; try discriminate.
  injection H as <-.
  assert (d < B <= 64)%nat as Hr.
  { unfold create in Hc.
    destruct (Nat.ltb_spec BITS B); [discriminate |].
    destruct (Nat.leb_spec B d); [discriminate |]. unfold BITS in *. lia. }
  split; [exact Hr |]. now rewrite (create_family _ _ _ _ Hc).
Qed.

Lemma elements_hashes (hs : gset Z) :
  (forall h, h ∈ hs -> is_hash h) -> Forall is_hash (elements hs).
Proof.
  intros H. apply Forall_forall. intros h Hh. apply H.
  now apply elem_of_elements.
Qed.

(** C2.  Soundness and canonicalization of the search.  For
    [0 < d < B <= 64] and every finite set [S] of 64-bit fingerprints,
    every pair [(a, b)] of the match set returned by [find_all(S, B, d)]
    satisfies [a <= b], both [a] and [b] are members of [S], and
    [popcount(a XOR b) <= d]. *)
Theorem find_all_sound (fuel : nat) (hs : gset Z) (B d : nat) (M : gset match_t) :
  (0 < d)%nat -> (d < B)%nat -> (B <= 64)%nat ->
  (forall h, h ∈ hs -> is_hash h) ->
  find_all fuel hs B d = Some (Ok M) ->
  forall a b, (a, b) ∈ M ->
    a <= b /\ a ∈ hs /\ b ∈ hs /\ (popcount (Z.lxor a b) <= d)%nat.
Proof.
  intros _ _ _ HS Hf a b Hab.
  apply find_all_returns in Hf as (Hr & ->).
  apply (family_process_spec B d Hr (elements hs) (elements_hashes hs HS)) in Hab;
    [| reflexivity].
  destruct Hab as [Hab | (x & y & Hx & Hy & Hd & Heq)];
    [now apply elem_of_empty in Hab |].
  apply elem_of_elements in Hx, Hy.
  destruct (canonical_cases x y) as [[Hc Hle] | [Hc Hle]];
    rewrite Hc in Heq; injection Heq as -> ->.
  - easy.
  - rewrite Z.lxor_comm. easy.
Qed.

Lemma find_all_sound_witness :
  exists M, find_all 4 {[0; 1; 3; 7]} 4 1 = Some (Ok M) /\
    forall a b, (a, b) ∈ M ->
      a <= b /\ a ∈ ({[0; 1; 3; 7]} : gset Z) /\
      b ∈ ({[0; 1; 3; 7]} : gset Z) /\
      (popcount (Z.lxor a b) <= 1)%nat.
Proof.
  eexists. split; [vm_compute; reflexivity |].
  apply (find_all_sound 4 {[0; 1; 3; 7]} 4 1);
    [lia | lia | lia | | vm_compute; reflexivity].
  intros h Hh. unfold is_hash. set_unfold in Hh. lia.
Defined.

(** C1.  Completeness of the search.  For [0 < d < B <= 64], every finite
    set [hs] of 64-bit fingerprints and every pair of distinct fingerprints
    [x], [y] of [S] with [popcount(x XOR y) <= d]: [find_all(S, B, d)]
    returns (given fuel for the [C(B, d)] iterations of [choose]) and the
    returned match set contains the canonical pair
    [(min(x, y), max(x, y))]. *)
Theorem find_all_complete (fuel : nat) (hs : gset Z) (B d : nat) x y :
  (0 < d)%nat -> (d < B)%nat -> (B <= 64)%nat ->
  (forall h, h ∈ hs -> is_hash h) ->
  (binomial B d <= fuel)%nat ->
  x ∈ hs -> y ∈ hs -> x <> y -> (popcount (Z.lxor x y) <= d)%nat ->
  exists M, find_all fuel hs B d = Some (Ok M) /\
            (Z.min x y, Z.max x y) ∈ M.
Proof.
  intros _ Hd HB HS Hfuel Hx Hy Hne Hpop.
  exists (fold_left (process_permutation (elements hs) d) (family B d) ∅).
  split.
  - unfold find_all, find_all_list.
    now rewrite create_ok by (unfold BITS; lia).
  - apply (family_process_hit B d ltac:(lia) (elements hs) (elements_hashes hs HS));
      try assumption; now apply elem_of_elements.
Qed.

Lemma find_all_complete_witness :
  exists M, find_all 4 {[0; 1; 3; 7]} 4 1 = Some (Ok M) /\
            (Z.min 3 1, Z.max 3 1) ∈ M.
Proof.
  apply (find_all_complete 4 {[0; 1; 3; 7]} 4 1 3 1);
    [lia | lia | lia | | vm_compute; lia | set_solver | set_solver | lia
    | vm_compute; lia].
  intros h Hh. unfold is_hash. set_unfold in Hh. lia.
Defined.

End FindAllTheorems.

(** * The match graph built by [find_clusters] *)

Section Graph.
Local Open Scope Z_scope.

Lemma nodes_at_insert nodes k X a :
  nodes_at (<[k := X]> nodes) a = if decide (k = a) then X else nodes_at nodes a.
Proof.
  unfold nodes_at. destruct (decide (k = a)) as [->|Hne].
  - now rewrite lookup_insert_eq.
  - now rewrite lookup_insert_ne.
Qed.

Lemma visited_at_insert visited k v a :
  visited_at (<[k := v]> visited) a =
  if decide (k = a) then v else visited_at visited a.
Proof.
  unfold visited_at. destruct (decide (k = a)) as [->|Hne].
  - now rewrite lookup_insert_eq.
  - now rewrite lookup_insert_ne.
Qed.

Lemma add_match_nodes nodes visited a0 b0 a b :
  b ∈ nodes_at (add_match (nodes, visited) (a0, b0)).1 a <->
  b ∈ nodes_at nodes a \/ (a = a0 /\ b = b0) \/ (a = b0 /\ b = a0).
Proof.
  unfold add_match. cbn [fst snd]. rewrite !nodes_at_insert.
  destruct (decide (b0 = a)) as [->|Hb]; destruct (decide (a0 = a)) as [->|Ha];
    rewrite ?elem_of_union, ?elem_of_singleton; intuition congruence.
Qed.

Lemma add_match_dom nodes visited a0 b0 a :
  a ∈ dom (add_match (nodes, visited) (a0, b0)).1 <->
  a ∈ dom nodes \/ a = a0 \/ a = b0.
Proof.
  unfold add_match. cbn [fst snd]. rewrite !dom_insert_L.
  rewrite !elem_of_union, !elem_of_singleton. intuition.
Qed.

Lemma add_match_visited nodes visited m a :
  visited_at visited a = false ->
  visited_at (add_match (nodes, visited) m).2 a = false.
Proof.
  intros H. unfold add_match. cbn [fst snd]. rewrite !visited_at_insert.
  destruct (decide (m.2 = a)); [reflexivity |].
  destruct (decide (m.1 = a)); [reflexivity | exact H].
Qed.

(** The maps built from a list of matches. *)
Lemma build_graph_spec (l : list match_t) :
  forall nodes visited,
    fold_left add_match l (∅, ∅) = (nodes, visited) ->
    (forall a b, adjacent nodes a b <->
                 exists m, m ∈ l /\ (m = (a, b) \/ m = (b, a))) /\
    (forall a, a ∈ dom nodes <-> exists b, adjacent nodes a b) /\
    (forall a, visited_at visited a = false).
Proof.
  unfold adjacent.
  induction l as [|[a0 b0] l IH] using rev_ind; intros nodes visited Hf.
  - cbn [fold_left] in Hf. injection Hf as <- <-. split; [| split].
    + intros a b. unfold nodes_at. rewrite lookup_empty. cbn [default].
      split; [intros H; now apply elem_of_empty in H |].
      intros (m & Hm & _). inversion Hm.
    + intros a. rewrite dom_empty_L. unfold nodes_at.
      split; [intros H; now apply elem_of_empty in H |].
      intros (b & Hb). rewrite lookup_empty in Hb. cbn [default] in Hb.
      now apply elem_of_empty in Hb.
    + intros a. unfold visited_at. now rewrite lookup_empty.
  - rewrite fold_left_app in Hf.
    destruct (fold_left add_match l (∅, ∅)) as [nodes0 visited0] eqn:Hf0.
    destruct (IH nodes0 visited0 eq_refl) as (H1 & H2 & H3).
    rewrite fold_left_cons_eq in Hf. cbn [fold_left] in Hf.
    assert (nodes = (add_match (nodes0, visited0) (a0, b0)).1) as ->
      by now rewrite Hf.
    assert (visited = (add_match (nodes0, visited0) (a0, b0)).2) as ->
      by now rewrite Hf.
    clear Hf. split; [| split].
    + intros a b. rewrite add_match_nodes. split.
      * intros [H | [[-> ->] | [-> ->]]].
        -- apply H1 in H as (m & Hm & Hab). exists m.
           split; [apply elem_of_app; now left | exact Hab].
        -- exists (a0, b0). split; [apply elem_of_app; right; left | now left].
        -- exists (a0, b0). split; [apply elem_of_app; right; left | now right].
      * intros (m & Hm & Hab). apply elem_of_app in Hm as [Hm | Hm].
        -- left. apply H1. eauto.
        -- apply list_elem_of_singleton in Hm as ->. right.
           destruct Hab as [Hab | Hab]; injection Hab as -> ->; [now left | now right].
    + intros a. rewrite add_match_dom. split.
      * intros [H | [-> | ->]].
        -- apply H2 in H as (b & Hb). exists b. apply add_match_nodes. now left.
        -- exists b0. apply add_match_nodes. right. now left.
        -- exists a0. apply add_match_nodes. right. now right.
      * intros (b & Hb). apply add_match_nodes in Hb as [Hb | [[-> _] | [-> _]]].
        -- left. apply H2. eauto.
        -- right. now left.
        -- right. now right.
    + intros a. now apply add_match_visited.
Qed.

End Graph.

(** * The breadth-first traversal *)

Section Bfs.
Local Open Scope nat_scope.

Variable set_order : gset Z -> list Z.
Hypothesis set_order_perm : forall X, set_order X ≡ₚ elements X.
Variable nodes : gmap Z (gset Z).
Hypothesis adj_sym : forall a b, adjacent nodes a b -> adjacent nodes b a.
Hypothesis adj_dom : forall a b, adjacent nodes a b -> a ∈ dom nodes.

Lemma elem_of_set_order X (k : Z) : k ∈ set_order X <-> k ∈ X.
Proof. now rewrite set_order_perm, elem_of_elements. Qed.

Lemma length_set_order X : length (set_order X) = size X.
Proof. now rewrite set_order_perm. Qed.

Lemma conn_sym a b : rtc (adjacent nodes) a b -> rtc (adjacent nodes) b a.
Proof.
  induction 1 as [|a b c Hab _ IH]; [constructor |].
  eapply rtc_r; [exact IH | now apply adj_sym].
Qed.

Lemma elem_of_unvisited visited (k : Z) :
  k ∈ unvisited nodes visited <->
  visited_at visited k = false /\ k ∈ dom nodes.
Proof.
  unfold unvisited.
  exact (elem_of_filter (fun k => visited_at visited k = false) (dom nodes) k).
Qed.

Lemma unvisited_mark_le visited h :
  size (unvisited nodes (<[h := true]> visited))
  <= size (unvisited nodes visited).
Proof.
  apply subseteq_size. intros k Hk.
  apply elem_of_unvisited in Hk as [Hv Hd]. apply elem_of_unvisited.
  split; [| exact Hd]. rewrite visited_at_insert in Hv.
  destruct (decide (h = k)); [discriminate | exact Hv].
Qed.

Lemma unvisited_mark visited h :
  h ∈ dom nodes -> visited_at visited h = false ->
  size (unvisited nodes (<[h := true]> visited)) + 1
  = size (unvisited nodes visited).
Proof.
  intros Hd Hv.
  assert (unvisited nodes (<[h := true]> visited)
          = unvisited nodes visited ∖ {[h]}) as ->.
  { apply set_eq. intros k.
    rewrite elem_of_difference, !elem_of_unvisited, elem_of_singleton,
      visited_at_insert.
    destruct (decide (h = k)) as [->|Hne]; split.
    - intros [H _]. discriminate.
    - intros [_ H]. now destruct H.
    - intros [H1 H2]. repeat split; [exact H1 | exact H2 | congruence].
    - intros [[H1 H2] _]. easy. }
  assert ({[h]} ⊆ unvisited nodes visited) as Hsub.
  { intros k Hk. apply elem_of_singleton in Hk as ->.
    apply elem_of_unvisited. easy. }
  rewrite size_difference by exact Hsub.
  pose proof (subseteq_size _ _ Hsub) as Hle.
  rewrite size_singleton in *. lia.
Qed.

Lemma push_unvisited_eq frontier visited hash :
  push_unvisited (frontier, visited) hash =
  if visited_at visited hash then (frontier, visited)
  else (frontier ++ [hash], <[hash := true]> visited).
Proof. reflexivity. Qed.

(** Effect of pushing the unvisited neighbours. *)
Lemma push_spec (l : list Z) : forall frontier visited frontier' visited',
  (forall h, h ∈ l -> h ∈ dom nodes) ->
  fold_left push_unvisited l (frontier, visited) = (frontier', visited') ->
  exists new : list Z,
    frontier' = frontier ++ new /\
    (forall h, h ∈ new -> h ∈ l /\ visited_at visited h = false) /\
    (forall k, visited_at visited' k = true <->
               visited_at visited k = true \/ k ∈ new) /\
    (forall h, h ∈ l -> visited_at visited' h = true) /\
    length new + size (unvisited nodes visited')
    <= size (unvisited nodes visited).
Proof.
  induction l as [|h l IH]; intros frontier visited frontier' visited' Hl Hf.
  - cbn [fold_left] in Hf. injection Hf as <- <-. exists [].
    rewrite app_nil_r. split; [reflexivity |].
    split; [intros h Hh; inversion Hh |].
    split; [intros k; split; [now left | intros [H | H]; [exact H | inversion H]] |].
    split; [intros h Hh; inversion Hh | simpl; lia].
  - rewrite fold_left_cons_eq, push_unvisited_eq in Hf.
    assert (forall x, x ∈ l -> x ∈ dom nodes) as Hl'
      by (intros x Hx; apply Hl; now right).
    destruct (visited_at visited h) eqn:Hv.
    + destruct (IH _ _ _ _ Hl' Hf) as (new & H1 & H2 & H3 & H4 & H5).
      exists new. split; [exact H1 |].
      split; [intros x Hx; destruct (H2 x Hx); split; [now right | easy] |].
      split; [exact H3 |]. split; [| exact H5].
      intros x Hx. apply elem_of_cons in Hx as [-> | Hx]; [| now apply H4].
      apply H3. now left.
    + destruct (IH _ _ _ _ Hl' Hf) as (new & H1 & H2 & H3 & H4 & H5).
      exists (h :: new). split; [now rewrite H1, <- app_assoc |].
      split.
      { intros x Hx. apply elem_of_cons in Hx as [-> | Hx].
        - split; [left | exact Hv].
        - destruct (H2 x Hx) as [Hx1 Hx2]. split; [now right |].
          rewrite visited_at_insert in Hx2.
          destruct (decide (h = x)); [discriminate | exact Hx2]. }
      split.
      { intros k. rewrite H3, visited_at_insert, elem_of_cons.
        destruct (decide (h = k)) as [->|Hne]; [tauto |].
        split; [tauto |]. intros [H | [H | H]]; [tauto | congruence | tauto]. }
      split.
      { intros x Hx. apply elem_of_cons in Hx as [-> | Hx]; [| now apply H4].
        apply H3. left. rewrite visited_at_insert.
        now destruct (decide (h = h)). }
      pose proof (unvisited_mark visited h (Hl h ltac:(left)) Hv).
      cbn [length]. lia.
Qed.

Lemma bfs_nil fuel cluster visited :
  bfs set_order (S fuel) nodes [] cluster visited = Some (cluster, visited).
Proof. reflexivity. Qed.

Lemma bfs_cons fuel n rest cluster visited :
  bfs set_order (S fuel) nodes (n :: rest) cluster visited =
  let '(frontier', visited') :=
    fold_left push_unvisited (set_order (nodes_at nodes n))
      (rest, <[n := true]> visited) in
  bfs set_order fuel nodes frontier' (cluster ∪ {[n]}) visited'.
Proof. reflexivity. Qed.

Variable v0 : Z.
Variable V0 : Z -> Prop.

(** One iteration keeps the invariant and decreases the measure. *)
Lemma bfs_step n rest cluster visited frontier' visited' :
  bfs_inv nodes v0 V0 (n :: rest) cluster visited ->
  fold_left push_unvisited (set_order (nodes_at nodes n))
    (rest, <[n := true]> visited) = (frontier', visited') ->
  bfs_inv nodes v0 V0 frontier' (cluster ∪ {[n]}) visited' /\
  length frontier' + 2 * size (unvisited nodes visited')
  < length (n :: rest) + 2 * size (unvisited nodes visited).
Proof.
  intros (I1 & I2 & I3 & I4 & I5) Hf.
  destruct (I3 n ltac:(left)) as (Hn0 & Hnc & Hnd).
  apply push_spec in Hf as (new & -> & P2 & P3 & P4 & P5).
  2: { intros h Hh. apply elem_of_set_order in Hh.
       apply adj_sym in Hh. exact (adj_dom _ _ Hh). }
  split.
  - split; [| split; [| split; [| split]]].
    + intros k Hk. apply P3 in Hk as [Hk | Hk].
      * rewrite visited_at_insert in Hk.
        destruct (decide (n = k)) as [->|Hne];
          [left; apply elem_of_union; right; now apply elem_of_singleton |].
        destruct (I1 k Hk) as [H | [H | H]].
        -- left. apply elem_of_union. now left.
        -- apply elem_of_cons in H as [-> | H]; [congruence |].
           right. left. apply elem_of_app. now left.
        -- right. now right.
      * right. left. apply elem_of_app. now right.
    + intros k Hk. apply elem_of_union in Hk as [Hk | Hk].
      * destruct (I2 k Hk) as (H1 & H2 & H3 & H4).
        split; [| easy]. apply P3. left. rewrite visited_at_insert.
        destruct (decide (n = k)); [reflexivity | exact H1].
      * apply elem_of_singleton in Hk as ->.
        split; [| easy]. apply P3. left. rewrite visited_at_insert.
        now destruct (decide (n = n)).
    + intros k Hk. apply elem_of_app in Hk as [Hk | Hk].
      * apply I3. now right.
      * destruct (P2 k Hk) as [Hk1 Hk2]. apply elem_of_set_order in Hk1.
        rewrite visited_at_insert in Hk2.
        destruct (decide (n = k)); [discriminate |].
        split; [| split].
        -- intros Hv. apply I5 in Hv. congruence.
        -- eapply rtc_r; [exact Hnc | exact Hk1].
        -- apply adj_sym in Hk1. exact (adj_dom _ _ Hk1).
    + intros k b Hk Hadj. apply elem_of_union in Hk as [Hk | Hk].
      * destruct (I4 k b Hk Hadj) as [H | H].
        -- left. apply P3. left. rewrite visited_at_insert.
           destruct (decide (n = b)); [reflexivity | exact H].
        -- apply elem_of_cons in H as [-> | H].
           ++ left. apply P3. left. rewrite visited_at_insert.
              now destruct (decide (n = n)).
           ++ right. apply elem_of_app. now left.
      * apply elem_of_singleton in Hk as ->. left. apply P4.
        now apply elem_of_set_order.
    + intros k Hk. apply P3. left. rewrite visited_at_insert.
      destruct (decide (n = k)); [reflexivity | now apply I5].
  - pose proof (unvisited_mark_le visited n).
    rewrite length_app. cbn [length]. lia.
Qed.

(** With enough fuel the loop ends, with the invariant for the empty
    frontier. *)
Lemma bfs_correct fuel : forall frontier cluster visited,
  bfs_inv nodes v0 V0 frontier cluster visited ->
  length frontier + 2 * size (unvisited nodes visited) < fuel ->
  exists cluster' visited',
    bfs set_order fuel nodes frontier cluster visited
      = Some (cluster', visited') /\
    bfs_inv nodes v0 V0 [] cluster' visited' /\
    cluster ⊆ cluster'.
Proof.
  induction fuel as [|fuel IH]; intros frontier cluster visited Hinv Hf;
    [lia |].
  destruct frontier as [|n rest].
  - rewrite bfs_nil. exists cluster, visited. easy.
  - rewrite bfs_cons.
    destruct (fold_left push_unvisited _ _) as [frontier' visited'] eqn:Hp.
    destruct (bfs_step _ _ _ _ _ _ Hinv Hp) as [Hinv' Hlt].
    destruct (IH frontier' (cluster ∪ {[n]}) visited' Hinv' ltac:(lia))
      as (cluster' & visited'' & H1 & H2 & H3).
    exists cluster', visited''. split; [exact H1 |]. split; [exact H2 |].
    intros k Hk. apply H3, elem_of_union. now left.
Qed.

End Bfs.

(** * The loop over the nodes *)

Section Clustering.
Local Open Scope nat_scope.

Variable set_order : gset Z -> list Z.
Hypothesis set_order_perm : forall X, set_order X ≡ₚ elements X.
Variable nodes : gmap Z (gset Z).
Hypothesis adj_sym : forall a b, adjacent nodes a b -> adjacent nodes b a.
Hypothesis adj_dom : forall a b, adjacent nodes a b -> a ∈ dom nodes.

Lemma unvisited_size visited :
  size (unvisited nodes visited) <= size (dom nodes).
Proof.
  apply subseteq_size. intros k Hk.
  now apply elem_of_unvisited in Hk as [_ Hk].
Qed.

Lemma neighbours_size v N :
  nodes !! v = Some N -> size N <= size (dom nodes).
Proof.
  intros Hv. apply subseteq_size. intros b Hb.
  apply (adj_dom b v), adj_sym. unfold adjacent, nodes_at.
  now rewrite Hv.
Qed.

Lemma visit_node_eq fuel visited clusters (node : Z * gset Z) :
  visit_node set_order fuel nodes (Some (visited, clusters)) node =
  if visited_at visited node.1 then Some (visited, clusters)
  else
    match bfs set_order fuel nodes (set_order node.2) {[node.1]}
            (<[node.1 := true]> visited) with
    | None => None
    | Some (cluster, visited') => Some (visited', clusters ++ [cluster])
    end.
Proof. reflexivity. Qed.

(** Starting a traversal at an unvisited node establishes the invariant. *)
Lemma bfs_inv_init visited clusters v N :
  clusters_inv nodes visited clusters ->
  nodes !! v = Some N -> visited_at visited v = false ->
  bfs_inv nodes v (fun k => visited_at visited k = true)
    (set_order N) {[v]} (<[v := true]> visited).
Proof.
  intros (O1 & O2 & O3 & O3' & O4) Hv Hf.
  assert (forall b, b ∈ N <-> adjacent nodes v b) as HN
    by (intros b; unfold adjacent, nodes_at; now rewrite Hv).
  split; [| split; [| split; [| split]]].
  - intros k Hk. rewrite visited_at_insert in Hk.
    destruct (decide (v = k)) as [->|Hne].
    + left. now apply elem_of_singleton.
    + right. now right.
  - intros k Hk. apply elem_of_singleton in Hk as ->.
    split; [rewrite visited_at_insert; now destruct (decide (v = v)) |].
    split; [congruence |]. split; [constructor |].
    apply elem_of_dom. now rewrite Hv.
  - intros k Hk. apply (elem_of_set_order set_order set_order_perm) in Hk.
    apply HN in Hk. split; [| split].
    + intros Hvk. apply adj_sym in Hk. pose proof (O4 k v Hvk Hk). congruence.
    + now apply rtc_once.
    + apply adj_sym in Hk. exact (adj_dom _ _ Hk).
  - intros k b Hk Hadj. apply elem_of_singleton in Hk as ->.
    right. apply (elem_of_set_order set_order set_order_perm). now apply HN.
  - intros k Hk. rewrite visited_at_insert.
    destruct (decide (v = k)); [reflexivity | exact Hk].
Qed.

Lemma visit_node_spec fuel visited clusters v N :
  clusters_inv nodes visited clusters ->
  nodes !! v = Some N -> 3 * size (dom nodes) < fuel ->
  exists visited' clusters',
    visit_node set_order fuel nodes (Some (visited, clusters)) (v, N)
      = Some (visited', clusters') /\
    clusters_inv nodes visited' clusters' /\
    visited_at visited' v = true /\
    (forall k, visited_at visited k = true -> visited_at visited' k = true).
Proof.
  intros Hinv Hv Hfuel. rewrite visit_node_eq. cbn [fst snd].
  destruct (visited_at visited v) eqn:Hvis.
  - exists visited, clusters. easy.
  - pose proof (bfs_inv_init visited clusters v N Hinv Hv Hvis) as Hinit.
    destruct (bfs_correct set_order set_order_perm nodes adj_sym adj_dom
                v (fun k => visited_at visited k = true) fuel
                (set_order N) {[v]} (<[v := true]> visited) Hinit)
      as (cluster' & visited' & Hb & (I1 & I2 & I3 & I4 & I5) & Hsub).
    { rewrite (length_set_order set_order set_order_perm).
      pose proof (neighbours_size v N Hv).
      pose proof (unvisited_size (<[v := true]> visited)). lia. }
    rewrite Hb. exists visited', (clusters ++ [cluster']).
    destruct Hinv as (O1 & O2 & O3 & O3' & O4).
    split; [reflexivity |]. split; [| split].
    + split; [| split; [| split; [| split]]].
      * intros k. split.
        -- intros Hk. destruct (I1 k Hk) as [H | [H | H]].
           ++ exists cluster'. split; [apply elem_of_app; right; left | exact H].
           ++ inversion H.
           ++ apply O1 in H as (c & Hc & Hkc). exists c.
              split; [apply elem_of_app; now left | exact Hkc].
        -- intros (c & Hc & Hkc). apply elem_of_app in Hc as [Hc | Hc].
           ++ apply I5, O1. eauto.
           ++ apply list_elem_of_singleton in Hc as ->. now apply I2.
      * intros i j c1 c2 Hi Hj Hne.
        apply lookup_app_Some in Hi as [Hi | [Hi1 Hi2]];
          apply lookup_app_Some in Hj as [Hj | [Hj1 Hj2]].
        -- exact (O2 i j c1 c2 Hi Hj Hne).
        -- apply list_lookup_singleton_Some in Hj2 as [_ <-].
           apply elem_of_disjoint. intros k Hk1 Hk2.
           apply (proj1 (proj2 (I2 k Hk2))). apply O1. exists c1.
           split; [exact (list_elem_of_lookup_2 _ _ _ Hi) | exact Hk1].
        -- apply list_lookup_singleton_Some in Hi2 as [_ <-].
           apply elem_of_disjoint. intros k Hk1 Hk2.
           apply (proj1 (proj2 (I2 k Hk1))). apply O1. exists c2.
           split; [exact (list_elem_of_lookup_2 _ _ _ Hj) | exact Hk2].
        -- apply list_lookup_singleton_Some in Hi2 as [Hi0 _].
           apply list_lookup_singleton_Some in Hj2 as [Hj0 _]. lia.
      * intros c a b Hc Ha Hb'. apply elem_of_app in Hc as [Hc | Hc].
        -- exact (O3 c a b Hc Ha Hb').
        -- apply list_elem_of_singleton in Hc as ->.
           destruct (I2 a Ha) as (_ & _ & Hca & _).
           destruct (I2 b Hb') as (_ & _ & Hcb & _).
           etransitivity; [apply (conn_sym nodes adj_sym); exact Hca | exact Hcb].
      * intros c k Hc Hk. apply elem_of_app in Hc as [Hc | Hc].
        -- exact (O3' c k Hc Hk).
        -- apply list_elem_of_singleton in Hc as ->. now apply I2.
      * intros k b Hk Hadj. destruct (I1 k Hk) as [H | [H | H]].
        -- destruct (I4 k b H Hadj) as [Hb' | Hb']; [exact Hb' | inversion Hb'].
        -- inversion H.
        -- apply I5. exact (O4 k b H Hadj).
    + apply I2, Hsub. now apply elem_of_singleton.
    + exact I5.
Qed.

(** The loop over a list of nodes. *)
Lemma visit_nodes_spec fuel (l : list (Z * gset Z)) :
  forall visited clusters,
    clusters_inv nodes visited clusters ->
    (forall node, node ∈ l -> nodes !! node.1 = Some node.2) ->
    3 * size (dom nodes) < fuel ->
    exists visited' clusters',
      fold_left (visit_node set_order fuel nodes) l (Some (visited, clusters))
        = Some (visited', clusters') /\
      clusters_inv nodes visited' clusters' /\
      (forall node, node ∈ l -> visited_at visited' node.1 = true) /\
      (forall k, visited_at visited k = true -> visited_at visited' k = true).
Proof.
  induction l as [|[v N] l IH]; intros visited clusters Hinv Hl Hfuel.
  - exists visited, clusters. cbn [fold_left].
    split; [reflexivity |]. split; [exact Hinv |].
    split; [intros node Hn; inversion Hn | easy].
  - rewrite fold_left_cons_eq.
    destruct (visit_node_spec fuel visited clusters v N Hinv
                (Hl (v, N) ltac:(left)) Hfuel)
      as (visited1 & clusters1 & -> & Hinv1 & Hv1 & Hmono1).
    destruct (IH visited1 clusters1 Hinv1
                ltac:(intros node Hn; apply Hl; now right) Hfuel)
      as (visited2 & clusters2 & Hf2 & Hinv2 & Hall2 & Hmono2).
    exists visited2, clusters2. split; [exact Hf2 |]. split; [exact Hinv2 |].
    split.
    + intros node Hn. apply elem_of_cons in Hn as [-> | Hn].
      * apply Hmono2. exact Hv1.
      * now apply Hall2.
    + intros k Hk. apply Hmono2, Hmono1, Hk.
Qed.

End Clustering.

(** * [find_clusters] *)

Section FindClusters.
Local Open Scope nat_scope.

Variable set_order : gset Z -> list Z.
Variable map_order : gmap Z (gset Z) -> list (Z * gset Z).
Variable matches_order : gset match_t -> list match_t.
Hypothesis set_order_perm : forall X, set_order X ≡ₚ elements X.
Hypothesis map_order_perm : forall m, map_order m ≡ₚ map_to_list m.
Hypothesis matches_order_perm : forall X, matches_order X ≡ₚ elements X.

Lemma clusters_of_eq fuel matches :
  clusters_of set_order map_order matches_order fuel matches =
  let '(nodes, visited) :=
    fold_left add_match (matches_order matches) (∅, ∅) in
  match fold_left (visit_node set_order fuel nodes) (map_order nodes)
          (Some (visited, [])) with
  | None => None
  | Some (_, clusters) => Some clusters
  end.
Proof. reflexivity. Qed.

(** The clusters computed from a match set. *)
Lemma clusters_of_spec (matches : gset match_t) :
  exists fuel0, forall fuel, fuel0 <= fuel ->
  exists clusters,
    clusters_of set_order map_order matches_order fuel matches
      = Some clusters /\
    (forall (i j : nat) c1 c2,
       clusters !! i = Some c1 -> clusters !! j = Some c2 -> i <> j ->
       c1 ## c2) /\
    (forall k : Z, (exists c, c ∈ clusters /\ k ∈ c) <-> endpoint matches k) /\
    (forall c (a b : Z), c ∈ clusters -> a ∈ c -> b ∈ c ->
                         connected matches a b).
Proof.
  destruct (fold_left add_match (matches_order matches) (∅, ∅))
    as [nodes visited] eqn:Hg.
  destruct (build_graph_spec _ _ _ Hg) as (G1 & G2 & G3).
  assert (forall a b, adjacent nodes a b <-> edge matches a b) as Hadj.
  { intros a b. unfold edge. split.
    - intros H. apply (proj1 (G1 a b)) in H. destruct H as (m & Hm & Hab).
      rewrite matches_order_perm in Hm. apply elem_of_elements in Hm.
      destruct Hab as [-> | ->]; [now left | now right].
    - intros H. apply (proj2 (G1 a b)).
      destruct H as [H | H]; [exists (a, b) | exists (b, a)];
        (split; [rewrite matches_order_perm; now apply elem_of_elements |]);
        [now left | now right]. }
  assert (forall a b, adjacent nodes a b -> adjacent nodes b a) as adj_sym.
  { intros a b H. apply Hadj. apply Hadj in H. unfold edge in *. tauto. }
  assert (forall a b, adjacent nodes a b -> a ∈ dom nodes) as adj_dom.
  { intros a b H. apply G2. eauto. }
  exists (3 * size (dom nodes) + 1). intros fuel Hfuel.
  assert (clusters_inv nodes visited []) as Hinit.
  { split; [| split; [| split; [| split]]].
    - intros k. rewrite G3. split; [discriminate |].
      intros (c & Hc & _). inversion Hc.
    - intros i j c1 c2 Hi. discriminate.
    - intros c a b Hc. inversion Hc.
    - intros c k Hc. inversion Hc.
    - intros k b Hk. rewrite G3 in Hk. discriminate. }
  destruct (visit_nodes_spec set_order set_order_perm nodes adj_sym adj_dom
              fuel (map_order nodes) visited [] Hinit)
    as (visited' & clusters & Hf & (O1 & O2 & O3 & O3' & O4) & Hall & _).
  { intros [k N] Hn. rewrite map_order_perm in Hn.
    now apply elem_of_map_to_list in Hn. }
  { lia. }
  exists clusters. rewrite clusters_of_eq, Hg. cbv beta iota zeta.
  unfold clusters_t, cluster_t in *. rewrite Hf.
  split; [reflexivity |]. split; [exact O2 |]. split.
  - intros k. split.
    + intros (c & Hc & Hk). apply (O3' c k Hc) in Hk.
      apply G2 in Hk as (b & Hb). exists b. now apply Hadj.
    + intros (b & Hb). apply Hadj in Hb.
      assert (k ∈ dom nodes) as Hk by (apply G2; eauto).
      apply elem_of_dom in Hk as [N HN].
      apply O1. apply (Hall (k, N)).
      rewrite map_order_perm. now apply elem_of_map_to_list.
  - intros c a b Hc Ha Hb. unfold connected.
    eapply rtc_subrel; [| exact (O3 c a b Hc Ha Hb)].
    intros x y Hxy. now apply Hadj.
Qed.

(** C4.  Cluster partition.  For [0 < d < B <= 64], every finite set [S]
    of fingerprints and every iteration order of the unordered
    containers: with enough fuel [find_clusters(S, B, d)] returns, the
    returned clusters are pairwise disjoint, their union is the set of all
    fingerprints that occur as an endpoint of some match of
    [find_all(S, B, d)], every two fingerprints of the same cluster are
    connected by a path of match edges, and a fingerprint with no match
    appears in no cluster. *)
Theorem find_clusters_partition (hs : gset Z) (B d : nat) :
  0 < d -> d < B -> B <= 64 ->
  exists fuel0, forall fuel, fuel0 <= fuel ->
  exists (M : gset match_t) (cs : clusters_t),
    find_all fuel hs B d = Some (Ok M) /\
    find_clusters set_order map_order matches_order fuel hs B d
      = Some (Ok cs) /\
    (forall (i j : nat) c1 c2,
       cs !! i = Some c1 -> cs !! j = Some c2 -> i <> j -> c1 ## c2) /\
    (forall k : Z, (exists c, c ∈ cs /\ k ∈ c) <-> endpoint M k) /\
    (forall c (a b : Z), c ∈ cs -> a ∈ c -> b ∈ c -> connected M a b) /\
    (forall k : Z, ~ endpoint M k -> forall c, c ∈ cs -> k ∉ c).
Proof.
  intros _ Hd HB.
  set (M := fold_left (process_permutation (elements hs) d) (family B d) ∅).
  destruct (clusters_of_spec M) as (fuel1 & Hc).
  exists (binomial B d + fuel1). intros fuel Hfuel.
  destruct (Hc fuel ltac:(lia)) as (cs & Hcs & H1 & H2 & H3).
  assert (find_all fuel hs B d = Some (Ok M)) as Hfa.
  { unfold find_all, find_all_list.
    now rewrite create_ok by (unfold BITS; lia). }
  exists M, cs. split; [exact Hfa |]. split.
  - unfold find_clusters. now rewrite Hfa, Hcs.
  - split; [exact H1 |]. split; [exact H2 |]. split; [exact H3 |].
    intros k Hk c Hc' Hkc. apply Hk, H2. eauto.
Qed.

End FindClusters.

Section Scenarios.
Local Open Scope Z_scope.

Lemma find_clusters_partition_witness :
  exists fuel0, forall fuel, (fuel0 <= fuel)%nat ->
  exists (M : gset match_t) (cs : clusters_t),
    find_all fuel {[0; 1; 3; 7]} 4%nat 1%nat = Some (Ok M) /\
    find_clusters elements map_to_list elements fuel {[0; 1; 3; 7]} 4%nat 1%nat
      = Some (Ok cs) /\
    (forall (i j : nat) c1 c2,
       cs !! i = Some c1 -> cs !! j = Some c2 -> i <> j -> c1 ## c2) /\
    (forall k : Z, (exists c, c ∈ cs /\ k ∈ c) <-> endpoint M k) /\
    (forall c (a b : Z), c ∈ cs -> a ∈ c -> b ∈ c -> connected M a b) /\
    (forall k : Z, ~ endpoint M k -> forall c, c ∈ cs -> k ∉ c).
Proof.
  apply (find_clusters_partition elements map_to_list elements);
    [intros X; reflexivity | intros m; reflexivity | intros X; reflexivity
    | lia | lia | lia].
Defined.

(** The scenarios of the specification, evaluated on the model. *)
Example scenario_transitive_cluster :
  find_clusters elements map_to_list elements 4%nat {[0; 1; 3; 7]} 4%nat 1%nat
  = Some (Ok [{[0; 1; 3; 7]}]).
Proof. vm_compute. reflexivity. Qed.

Example scenario_distance_boundary :
  find_all 6%nat {[0; 7]} 4%nat 2%nat = Some (Ok ∅) /\
  find_all 4%nat {[0; 7]} 4%nat 3%nat = Some (Ok {[ (0, 7) ]}).
Proof. split; vm_compute; reflexivity. Qed.

End Scenarios.

(** * The match set of [find_all], exactly *)

Section Distinct.
Local Open Scope Z_scope.

Variable p : Permutation.
Variable d : nat.

(** The inner loop pairs [a] with later elements only: in a buffer
    without repetition the two members of an inserted pair differ. *)
Lemma compare_run_distinct run : forall results m,
  NoDup run ->
  m ∈ compare_run p d run results ->
  m ∈ results \/
  exists a b : Z, a ∈ run /\ b ∈ run /\ a <> b /\
              (num_differing_bits a b <= d)%nat /\
              m = canonical (reverse p a) (reverse p b).
Proof.
  induction run as [|a run IH]; intros results m Hnd Hm;
    cbn [compare_run] in Hm.
  - now left.
  - apply NoDup_cons in Hnd as [Ha Hnd].
    apply IH in Hm as [Hm | (a' & b' & Ha' & Hb' & Hne & H1 & H2)];
      [| | exact Hnd].
    + apply (proj1 (compare_fold_spec _ _ _ _ _ _)) in Hm.
      destruct Hm as [Hm | (b & Hb & H1 & H2)]; [now left |].
      right. exists a, b. split; [left |]. split; [now right |].
      split; [intros ->; contradiction |]. split; assumption.
    + right. exists a', b'. split; [now right |]. split; [now right |].
      split; [exact Hne |]. split; assumption.
Qed.

Lemma sweep_distinct mask fuel : forall start results m,
  NoDup start ->
  m ∈ sweep fuel p d mask start results ->
  m ∈ results \/
  exists a b : Z, a ∈ start /\ b ∈ start /\ a <> b /\
              (num_differing_bits a b <= d)%nat /\
              m = canonical (reverse p a) (reverse p b).
Proof.
  induction fuel as [|fuel IH]; intros start results m Hnd Hm; [now left |].
  cbn [sweep] in Hm. destruct start as [|first tl]; [now left |].
  destruct (split_run mask (Z.land first mask) (first :: tl))
    as [run rest] eqn:Hs.
  apply split_run_spec in Hs as (Hl & _ & _).
  rewrite Hl in Hnd. apply NoDup_app in Hnd as (Hrun & _ & Hrest).
  apply IH in Hm as [Hm | (a & b & Ha & Hb & Hne & H1 & H2)];
    [| | exact Hrest].
  - apply compare_run_distinct in Hm
      as [Hm | (a & b & Ha & Hb & Hne & H1 & H2)]; [now left | | exact Hrun].
    right. exists a, b. rewrite Hl.
    split; [apply elem_of_app; now left |].
    split; [apply elem_of_app; now left |].
    split; [exact Hne |]. split; assumption.
  - right. exists a, b. rewrite Hl.
    split; [apply elem_of_app; now right |].
    split; [apply elem_of_app; now right |].
    split; [exact Hne |]. split; assumption.
Qed.

End Distinct.

Section ProcessDistinct.
Local Open Scope Z_scope.

Variable d : nat.
Variable masks : list Z.
Hypothesis Hpart : partition64 masks.
Variable hashes : list Z.
Hypothesis Hhashes : Forall is_hash hashes.
Hypothesis Hnodup : NoDup hashes.

(** The sorted buffer of permuted values has no repetition. *)
Lemma copy_NoDup : NoDup (sort (map (apply (new_Permutation d masks)) hashes)).
Proof.
  rewrite sort_perm. apply NoDup_fmap_2_strong; [| exact Hnodup].
  intros x y Hx Hy Heq.
  apply (apply_inj d masks Hpart); [| | exact Heq].
  - exact (proj1 (Forall_forall _ _) Hhashes x Hx).
  - exact (proj1 (Forall_forall _ _) Hhashes y Hy).
Qed.

Lemma process_distinct results m :
  m ∈ process_permutation hashes d results (new_Permutation d masks) ->
  m ∈ results \/
  exists x y : Z, x ∈ hashes /\ y ∈ hashes /\ x <> y /\
    (popcount (Z.lxor x y) <= d)%nat /\ m = canonical x y.
Proof.
  unfold process_permutation. intros Hm.
  apply sweep_distinct in Hm as [Hm | (a & b & Ha & Hb & Hne & Hd & ->)];
    [now left | | exact copy_NoDup].
  right. apply (copy_elem d masks hashes) in Ha as (x & Hx & ->).
  apply (copy_elem d masks hashes) in Hb as (y & Hy & ->).
  pose proof (proj1 (Forall_forall _ _) Hhashes x Hx) as Hhx.
  pose proof (proj1 (Forall_forall _ _) Hhashes y Hy) as Hhy.
  exists x, y. split; [exact Hx |]. split; [exact Hy |].
  split; [intros ->; now apply Hne |].
  rewrite (ndb_popcount_apply d masks Hpart) in Hd by assumption.
  split; [exact Hd |].
  now rewrite !(reverse_apply d masks Hpart).
Qed.

End ProcessDistinct.

Section FindAllExact.
Local Open Scope Z_scope.

Lemma family_process_distinct (B d : nat) hashes ps : forall results m,
  (d < B <= 64)%nat -> Forall is_hash hashes -> NoDup hashes ->
  ps ⊆ family B d ->
  m ∈ fold_left (process_permutation hashes d) ps results ->
  m ∈ results \/
  exists x y : Z, x ∈ hashes /\ y ∈ hashes /\ x <> y /\
    (popcount (Z.lxor x y) <= d)%nat /\ m = canonical x y.
Proof.
  induction ps as [|p ps IH]; intros results m HB Hh Hnd Hsub Hm; [now left |].
  rewrite fold_left_cons_eq in Hm.
  apply IH in Hm as [Hm | Hm];
    [| now right | exact HB | exact Hh | exact Hnd
     | intros q Hq; apply Hsub; now right].
  assert (p ∈ family B d) as Hp by (apply Hsub; left).
  apply elem_of_family in Hp as (c & Hs & Hl & ->).
  apply process_distinct in Hm;
    [exact Hm | apply family_masks_partition; [unfold BITS; lia | exact Hs]
    | exact Hh | exact Hnd].
Qed.

(** Membership in the match set computed over the whole family. *)
Lemma family_matches (B d : nat) (hs : gset Z) a b :
  (d < B <= 64)%nat -> (forall h, h ∈ hs -> is_hash h) ->
  (a, b) ∈ fold_left (process_permutation (elements hs) d) (family B d) ∅ <->
  a < b /\ a ∈ hs /\ b ∈ hs /\ (popcount (Z.lxor a b) <= d)%nat.
Proof.
  intros HB HS. split.
  - intros Hab.
    apply (family_process_distinct B d (elements hs) (family B d)) in Hab;
      [| exact HB | now apply elements_hashes | apply NoDup_elements
       | reflexivity].
    destruct Hab as [Hab | (x & y & Hx & Hy & Hne & Hd & Heq)];
      [now apply elem_of_empty in Hab |].
    apply elem_of_elements in Hx, Hy.
    destruct (canonical_cases x y) as [[Hc Hle] | [Hc Hle]];
      rewrite Hc in Heq; injection Heq as -> ->.
    + split; [lia | easy].
    + rewrite Z.lxor_comm. split; [lia | easy].
  - intros (Hlt & Ha & Hb & Hd).
    replace (a, b) with (canonical a b)
      by (unfold canonical; now rewrite Z.min_l, Z.max_r by lia).
    apply (family_process_hit B d HB (elements hs) (elements_hashes hs HS));
      [now apply elem_of_elements | now apply elem_of_elements | lia
      | exact Hd].
Qed.

(** X1.  The match set, exactly.  For [d < B <= 64] ([d = 0] included)
    and a set [S] of 64-bit fingerprints, [find_all(S, B, d)] returns
    (given fuel for the [C(B, d)] iterations of [choose]) the set of the
    pairs [(a, b)] with [a < b], both in [S], and
    [popcount(a XOR b) <= d]: nothing else, and never a pair [(a, a)]. *)
Theorem find_all_exact (fuel : nat) (hs : gset Z) (B d : nat) :
  (d < B)%nat -> (B <= 64)%nat ->
  (forall h, h ∈ hs -> is_hash h) ->
  (binomial B d <= fuel)%nat ->
  exists M, find_all fuel hs B d = Some (Ok M) /\
    forall a b, (a, b) ∈ M <->
      a < b /\ a ∈ hs /\ b ∈ hs /\ (popcount (Z.lxor a b) <= d)%nat.
Proof.
  intros Hd HB HS Hfuel.
  exists (fold_left (process_permutation (elements hs) d) (family B d) ∅).
  split.
  - unfold find_all, find_all_list.
    now rewrite create_ok by (unfold BITS; lia).
  - intros a b. apply family_matches; [lia | exact HS].
Qed.

Lemma find_all_exact_witness :
  exists M, find_all 4 {[0; 1; 3; 7]} 4 1 = Some (Ok M) /\
    forall a b, (a, b) ∈ M <->
      a < b /\ a ∈ ({[0; 1; 3; 7]} : gset Z) /\
      b ∈ ({[0; 1; 3; 7]} : gset Z) /\
      (popcount (Z.lxor a b) <= 1)%nat.
Proof.
  apply (find_all_exact 4 {[0; 1; 3; 7]} 4 1); [lia | lia | | vm_compute; lia].
  intros h Hh. unfold is_hash. set_unfold in Hh. lia.
Defined.

(** Two match sets with the same members are the same set. *)
Lemma matches_eq (M1 M2 : gset match_t) :
  (forall a b, (a, b) ∈ M1 <-> (a, b) ∈ M2) -> M1 = M2.
Proof. intros H. apply set_eq. intros [a b]. apply H. Qed.

(** X2.  The number of blocks is a tuning parameter only.  For a set of
    64-bit fingerprints and a distance [d], any two valid block counts
    [B1], [B2] (with [d < B <= 64]) make [find_all] return the same match
    set. *)
Theorem find_all_blocks_irrelevant (fuel1 fuel2 : nat) (hs : gset Z)
    (B1 B2 d : nat) M1 M2 :
  (d < B1)%nat -> (B1 <= 64)%nat -> (d < B2)%nat -> (B2 <= 64)%nat ->
  (forall h, h ∈ hs -> is_hash h) ->
  find_all fuel1 hs B1 d = Some (Ok M1) ->
  find_all fuel2 hs B2 d = Some (Ok M2) ->
  M1 = M2.
Proof.
  intros H1 H1' H2 H2' HS Hf1 Hf2.
  apply find_all_returns in Hf1 as (_ & ->).
  apply find_all_returns in Hf2 as (_ & ->).
  apply matches_eq. intros a b.
  rewrite !family_matches by (lia || assumption). reflexivity.
Qed.

Lemma find_all_blocks_irrelevant_witness :
  (fold_left (process_permutation (elements ({[0; 1; 3; 7]} : gset Z)) 1)
     (family 4 1) ∅ : gset match_t) =
  fold_left (process_permutation (elements ({[0; 1; 3; 7]} : gset Z)) 1)
    (family 2 1) ∅.
Proof.
  apply (find_all_blocks_irrelevant 4 2 {[0; 1; 3; 7]} 4 2 1);
    [lia | lia | lia | lia | | vm_compute; reflexivity
    | vm_compute; reflexivity].
  intros h Hh. unfold is_hash. set_unfold in Hh. lia.
Defined.

(** X3.  Monotonicity.  Enlarging the set of fingerprints or the distance
    never removes a match: for [S ⊆ S'] and [d <= d'], every pair
    returned by [find_all(S, B, d)] is returned by [find_all(S', B', d')],
    whatever the valid block counts. *)
Theorem find_all_monotone (fuel fuel' : nat) (hs hs' : gset Z)
    (B B' d d' : nat) M M' :
  (forall h, h ∈ hs' -> is_hash h) ->
  hs ⊆ hs' -> (d <= d')%nat ->
  find_all fuel hs B d = Some (Ok M) ->
  find_all fuel' hs' B' d' = Some (Ok M') ->
  M ⊆ M'.
Proof.
  intros HS Hsub Hd Hf Hf'.
  apply find_all_returns in Hf as (HB & ->).
  apply find_all_returns in Hf' as (HB' & ->).
  intros [a b] Hab.
  apply family_matches in Hab as (Hlt & Ha & Hb & Hp);
    [| exact HB | intros h Hh; apply HS, Hsub, Hh].
  apply family_matches; [exact HB' | exact HS |].
  split; [exact Hlt |]. split; [now apply Hsub |].
  split; [now apply Hsub | lia].
Qed.

Lemma find_all_monotone_witness :
  (fold_left (process_permutation (elements ({[0; 1]} : gset Z)) 1)
     (family 4 1) ∅ : gset match_t) ⊆
  fold_left (process_permutation (elements ({[0; 1; 3; 7]} : gset Z)) 2)
    (family 4 2) ∅.
Proof.
  apply (find_all_monotone 4 6 {[0; 1]} {[0; 1; 3; 7]} 4 4 1 2);
    [| | lia | vm_compute; reflexivity | vm_compute; reflexivity].
  - intros h Hh. unfold is_hash. set_unfold in Hh. lia.
  - intros h Hh. set_unfold in Hh. set_unfold. lia.
Defined.



(** X5.  The iteration order of the input set does not matter: for every
    enumeration [l] of [S] (every order in which the [unordered_set] may
    hand out its elements), the loops of [find_all] run over [l] give the
    result they give over any other enumeration. *)
Theorem find_all_enumeration_irrelevant (fuel : nat) (hs : gset Z)
    (l : list Z) (B d : nat) :
  l ≡ₚ elements hs ->
  find_all_list fuel l B d = find_all fuel hs B d.
Proof. intros Hl. unfold find_all. now apply find_all_list_perm. Qed.

Lemma find_all_enumeration_irrelevant_witness :
  find_all_list 4 [7; 0; 3; 1] 4 1 = find_all 4 {[0; 1; 3; 7]} 4 1.
Proof.
  apply (find_all_enumeration_irrelevant 4 {[0; 1; 3; 7]} [7; 0; 3; 1] 4 1).
  apply NoDup_Permutation.
  - apply (bool_decide_unpack (NoDup [7; 0; 3; 1])). vm_compute. exact I.
  - apply NoDup_elements.
  - intros x. rewrite elem_of_elements. set_unfold. lia.
Defined.

End FindAllExact.

(** * Clusters are the connected components *)

Section Components.
Local Open Scope nat_scope.

Variable set_order : gset Z -> list Z.
Hypothesis set_order_perm : forall X, set_order X ≡ₚ elements X.
Variable nodes : gmap Z (gset Z).
Hypothesis adj_sym : forall a b, adjacent nodes a b -> adjacent nodes b a.
Hypothesis adj_dom : forall a b, adjacent nodes a b -> a ∈ dom nodes.

(** A traversal adds a cluster that is closed under adjacency. *)
Lemma visit_node_closed fuel visited clusters v N visited' clusters' :
  clusters_inv nodes visited clusters ->
  clusters_closed nodes clusters ->
  nodes !! v = Some N -> 3 * size (dom nodes) < fuel ->
  visit_node set_order fuel nodes (Some (visited, clusters)) (v, N)
    = Some (visited', clusters') ->
  clusters_closed nodes clusters'.
Proof.
  intros Hinv [C1 C2] Hv Hfuel. rewrite visit_node_eq. cbn [fst snd].
  destruct (visited_at visited v) eqn:Hvis.
  - intros H. injection H as <- <-. now split.
  - pose proof (bfs_inv_init set_order set_order_perm nodes adj_sym adj_dom
                  visited clusters v N Hinv Hv Hvis) as Hinit.
    destruct (bfs_correct set_order set_order_perm nodes adj_sym adj_dom
                v (fun k => visited_at visited k = true) fuel
                (set_order N) {[v]} (<[v := true]> visited) Hinit)
      as (cluster' & visited'' & Hb & (I1 & I2 & I3 & I4 & I5) & Hsub).
    { rewrite (length_set_order set_order set_order_perm).
      pose proof (neighbours_size nodes adj_sym adj_dom v N Hv).
      pose proof (unvisited_size nodes (<[v := true]> visited)). lia. }
    rewrite Hb. intros H. injection H as <- <-.
    destruct Hinv as (O1 & O2 & O3 & O3' & O4).
    split.
    + intros c k b Hc Hk Hadj. apply elem_of_app in Hc as [Hc | Hc].
      * exact (C1 c k b Hc Hk Hadj).
      * apply list_elem_of_singleton in Hc as ->.
        destruct (I4 k b Hk Hadj) as [Hb' | Hb']; [| inversion Hb'].
        destruct (I1 b Hb') as [H | [H | H]]; [exact H | inversion H |].
        exfalso. apply (proj1 (proj2 (I2 k Hk))).
        exact (O4 b k H (adj_sym _ _ Hadj)).
    + intros c Hc. apply elem_of_app in Hc as [Hc | Hc].
      * exact (C2 c Hc).
      * apply list_elem_of_singleton in Hc as ->. exists v.
        apply Hsub. now apply elem_of_singleton.
Qed.

Lemma visit_nodes_closed fuel (l : list (Z * gset Z)) :
  forall visited clusters visited' clusters',
    clusters_inv nodes visited clusters ->
    clusters_closed nodes clusters ->
    (forall node, node ∈ l -> nodes !! node.1 = Some node.2) ->
    3 * size (dom nodes) < fuel ->
    fold_left (visit_node set_order fuel nodes) l (Some (visited, clusters))
      = Some (visited', clusters') ->
    clusters_closed nodes clusters'.
Proof.
  induction l as [|[v N] l IH];
    intros visited clusters visited' clusters' Hinv Hcl Hl Hfuel Hf.
  - cbn [fold_left] in Hf. injection Hf as <- <-. exact Hcl.
  - rewrite fold_left_cons_eq in Hf.
    destruct (visit_node_spec set_order set_order_perm nodes adj_sym adj_dom
                fuel visited clusters v N Hinv (Hl (v, N) ltac:(left)) Hfuel)
      as (visited1 & clusters1 & Hv1 & Hinv1 & _).
    rewrite Hv1 in Hf.
    apply (IH visited1 clusters1 visited' clusters' Hinv1); try assumption.
    + exact (visit_node_closed fuel visited clusters v N visited1 clusters1
               Hinv Hcl (Hl (v, N) ltac:(left)) Hfuel Hv1).
    + intros node Hn. apply Hl. now right.
Qed.

End Components.

Section ClusterComponents.
Local Open Scope nat_scope.

Variable set_order : gset Z -> list Z.
Variable map_order : gmap Z (gset Z) -> list (Z * gset Z).
Variable matches_order : gset match_t -> list match_t.
Hypothesis set_order_perm : forall X, set_order X ≡ₚ elements X.
Hypothesis map_order_perm : forall m, map_order m ≡ₚ map_to_list m.
Hypothesis matches_order_perm : forall X, matches_order X ≡ₚ elements X.

(** The clusters computed from a match set are closed under match edges
    and none is empty. *)
Lemma clusters_of_closed (matches : gset match_t) :
  exists fuel0, forall fuel clusters, fuel0 <= fuel ->
    clusters_of set_order map_order matches_order fuel matches
      = Some clusters ->
    (forall c (a b : Z), c ∈ clusters -> a ∈ c -> edge matches a b -> b ∈ c) /\
    (forall c, c ∈ clusters -> exists k : Z, k ∈ c).
Proof.
  destruct (fold_left add_match (matches_order matches) (∅, ∅))
    as [nodes visited] eqn:Hg.
  destruct (build_graph_spec _ _ _ Hg) as (G1 & G2 & G3).
  assert (forall a b, adjacent nodes a b <-> edge matches a b) as Hadj.
  { intros a b. unfold edge. split.
    - intros H. apply (proj1 (G1 a b)) in H. destruct H as (m & Hm & Hab).
      rewrite matches_order_perm in Hm. apply elem_of_elements in Hm.
      destruct Hab as [-> | ->]; [now left | now right].
    - intros H. apply (proj2 (G1 a b)).
      destruct H as [H | H]; [exists (a, b) | exists (b, a)];
        (split; [rewrite matches_order_perm; now apply elem_of_elements |]);
        [now left | now right]. }
  assert (forall a b, adjacent nodes a b -> adjacent nodes b a) as adj_sym.
  { intros a b H. apply Hadj. apply Hadj in H. unfold edge in *. tauto. }
  assert (forall a b, adjacent nodes a b -> a ∈ dom nodes) as adj_dom.
  { intros a b H. apply G2. eauto. }
  exists (3 * size (dom nodes) + 1). intros fuel clusters Hfuel.
  assert (clusters_inv nodes visited []) as Hinit.
  { split; [| split; [| split; [| split]]].
    - intros k. rewrite G3. split; [discriminate |].
      intros (c & Hc & _). inversion Hc.
    - intros i j c1 c2 Hi. discriminate.
    - intros c a b Hc. inversion Hc.
    - intros c k Hc. inversion Hc.
    - intros k b Hk. rewrite G3 in Hk. discriminate. }
  assert (clusters_closed nodes []) as Hcl0.
  { split; [intros c k b Hc | intros c Hc]; inversion Hc. }
  rewrite clusters_of_eq, Hg. cbv beta iota zeta.
  destruct (fold_left (visit_node set_order fuel nodes) (map_order nodes)
              (Some (visited, []))) as [[visited' clusters']|] eqn:Hf;
    [| discriminate].
  intros H. injection H as <-.
  destruct (visit_nodes_closed set_order set_order_perm nodes adj_sym adj_dom
              fuel (map_order nodes) visited [] visited' clusters'
              Hinit Hcl0) as [C1 C2]; [| lia | exact Hf |].
  { intros [k N] Hn. rewrite map_order_perm in Hn.
    now apply elem_of_map_to_list in Hn. }
  split; [| exact C2].
  intros c a b Hc Ha Hab. apply (C1 c a b Hc Ha). now apply Hadj.
Qed.

(** The clusters computed from a match set are its connected components. *)
Lemma clusters_of_components (matches : gset match_t) :
  exists fuel0, forall fuel, fuel0 <= fuel ->
  exists clusters,
    clusters_of set_order map_order matches_order fuel matches
      = Some clusters /\
    (forall (i j : nat) c1 c2,
       clusters !! i = Some c1 -> clusters !! j = Some c2 -> i <> j ->
       c1 ## c2) /\
    (forall k : Z, (exists c, c ∈ clusters /\ k ∈ c) <-> endpoint matches k) /\
    (forall c (a : Z), c ∈ clusters -> a ∈ c ->
       forall b, b ∈ c <-> connected matches a b) /\
    (forall c, c ∈ clusters -> exists k : Z, k ∈ c).
Proof.
  destruct (clusters_of_spec set_order map_order matches_order
              set_order_perm map_order_perm matches_order_perm matches)
    as (fuel1 & H1).
  destruct (clusters_of_closed matches) as (fuel2 & H2).
  exists (fuel1 + fuel2). intros fuel Hfuel.
  destruct (H1 fuel ltac:(lia)) as (clusters & Hc & D & U & Conn).
  destruct (H2 fuel clusters ltac:(lia) Hc) as [Closed Nonempty].
  exists clusters. split; [exact Hc |]. split; [exact D |].
  split; [exact U |]. split; [| exact Nonempty].
  intros c a Hcin Ha b. split; [intros Hb; exact (Conn c a b Hcin Ha Hb) |].
  intros Hab. unfold connected in Hab.
  induction Hab as [|x y z Hxy _ IH]; [exact Ha |].
  apply IH. exact (Closed c x y Hcin Ha Hxy).
Qed.

(** A list of pairwise disjoint non-empty sets has no repetition. *)
Lemma disjoint_NoDup (cs : list (gset Z)) :
  (forall (i j : nat) c1 c2,
     cs !! i = Some c1 -> cs !! j = Some c2 -> i <> j -> c1 ## c2) ->
  (forall c, c ∈ cs -> exists k : Z, k ∈ c) ->
  NoDup cs.
Proof.
  intros D N. apply NoDup_alt. intros i j c Hi Hj.
  destruct (decide (i = j)) as [|Hne]; [assumption | exfalso].
  destruct (N c (list_elem_of_lookup_2 _ _ _ Hi)) as (k & Hk).
  exact (proj1 (elem_of_disjoint _ _) (D i j c c Hi Hj Hne) k Hk Hk).
Qed.

End ClusterComponents.

Section ClusterTheorems.
Local Open Scope Z_scope.

Variable set_order : gset Z -> list Z.
Variable map_order : gmap Z (gset Z) -> list (Z * gset Z).
Variable matches_order : gset match_t -> list match_t.
Hypothesis set_order_perm : forall X, set_order X ≡ₚ elements X.
Hypothesis map_order_perm : forall m, map_order m ≡ₚ map_to_list m.
Hypothesis matches_order_perm : forall X, matches_order X ≡ₚ elements X.

(** What [find_clusters] returns, in terms of the fingerprints. *)
Lemma find_clusters_spec (hs : gset Z) (B d : nat) :
  (d < B)%nat -> (B <= 64)%nat -> (forall h, h ∈ hs -> is_hash h) ->
  exists fuel0, forall fuel, (fuel0 <= fuel)%nat ->
  exists (M : gset match_t) (cs : clusters_t),
    find_clusters set_order map_order matches_order fuel hs B d
      = Some (Ok cs) /\
    (forall a b, (a, b) ∈ M <->
       a < b /\ a ∈ hs /\ b ∈ hs /\ (popcount (Z.lxor a b) <= d)%nat) /\
    (forall (i j : nat) c1 c2,
       cs !! i = Some c1 -> cs !! j = Some c2 -> i <> j -> c1 ## c2) /\
    (forall k : Z, (exists c, c ∈ cs /\ k ∈ c) <-> endpoint M k) /\
    (forall c (a : Z), c ∈ cs -> a ∈ c ->
       forall b, b ∈ c <-> connected M a b) /\
    (forall c, c ∈ cs -> exists k : Z, k ∈ c).
Proof.
  intros Hd HB HS.
  set (M := fold_left (process_permutation (elements hs) d) (family B d) ∅).
  destruct (clusters_of_components set_order map_order matches_order
              set_order_perm map_order_perm matches_order_perm M)
    as (fuel1 & Hc).
  exists (binomial B d + fuel1)%nat. intros fuel Hfuel.
  destruct (Hc fuel ltac:(lia)) as (cs & Hcs & H1 & H2 & H3 & H4).
  assert (find_all fuel hs B d = Some (Ok M)) as Hfa.
  { unfold find_all, find_all_list.
    now rewrite create_ok by (unfold BITS; lia). }
  exists M, cs. split.
  - unfold find_clusters. now rewrite Hfa, Hcs.
  - split; [| easy]. intros a b. apply family_matches; [lia | exact HS].
Qed.

(** X6.  Clusters are connected components.  For [d < B <= 64] and a set
    [S] of 64-bit fingerprints, with enough fuel [find_clusters(S, B, d)]
    returns clusters such that two distinct fingerprints of [S] within
    distance [d] always share a cluster, and a cluster that contains [a]
    contains exactly the fingerprints reachable from [a] by a chain of
    fingerprints of [S] in which consecutive members are within distance
    [d]. *)
Theorem find_clusters_components (hs : gset Z) (B d : nat) :
  (d < B)%nat -> (B <= 64)%nat -> (forall h, h ∈ hs -> is_hash h) ->
  exists fuel0, forall fuel, (fuel0 <= fuel)%nat ->
  exists cs : clusters_t,
    find_clusters set_order map_order matches_order fuel hs B d
      = Some (Ok cs) /\
    (forall x y, x ∈ hs -> y ∈ hs -> x <> y ->
       (popcount (Z.lxor x y) <= d)%nat ->
       exists c, c ∈ cs /\ x ∈ c /\ y ∈ c) /\
    (forall c (a : Z), c ∈ cs -> a ∈ c ->
       forall b, b ∈ c <->
         rtc (fun u v => u ∈ hs /\ v ∈ hs /\ u <> v /\
                         (popcount (Z.lxor u v) <= d)%nat) a b).
Proof.
  intros Hd HB HS.
  destruct (find_clusters_spec hs B d Hd HB HS) as (fuel0 & H).
  exists fuel0. intros fuel Hfuel.
  destruct (H fuel Hfuel) as (M & cs & Hfc & HM & _ & HU & HC & _).
  assert (forall u v, edge M u v <->
            u ∈ hs /\ v ∈ hs /\ u <> v /\ (popcount (Z.lxor u v) <= d)%nat)
    as Hedge.
  { intros u v. unfold edge. rewrite !HM, (Z.lxor_comm v u). split.
    - intros [(H1 & H2 & H3 & H4) | (H1 & H2 & H3 & H4)];
        (split; [assumption |]; split; [assumption |]; split; [lia | exact H4]).
    - intros (H1 & H2 & H3 & H4).
      destruct (Z.lt_ge_cases u v); [left | right];
        (split; [lia |]; split; [assumption |]; split; assumption). }
  exists cs. split; [exact Hfc |]. split.
  - intros x y Hx Hy Hne Hp.
    assert (edge M x y) as He by (apply Hedge; easy).
    destruct (proj2 (HU x)) as (c & Hc & Hxc); [now exists y |].
    exists c. split; [exact Hc |]. split; [exact Hxc |].
    apply (HC c x Hc Hxc). now apply rtc_once.
  - intros c a Hc Ha b. rewrite (HC c a Hc Ha b). unfold connected.
    split; intros Hr; (eapply rtc_subrel; [| exact Hr]);
      intros u v Huv; now apply Hedge.
Qed.

(** X7.  Shape of a cluster.  Every cluster returned by [find_clusters]
    consists of fingerprints of the input set and has at least two
    members; no fingerprint occurs in two clusters of the list. *)
Theorem find_clusters_members (hs : gset Z) (B d : nat) :
  (d < B)%nat -> (B <= 64)%nat -> (forall h, h ∈ hs -> is_hash h) ->
  exists fuel0, forall fuel, (fuel0 <= fuel)%nat ->
  exists cs : clusters_t,
    find_clusters set_order map_order matches_order fuel hs B d
      = Some (Ok cs) /\
    NoDup cs /\
    forall c, c ∈ cs ->
      c ⊆ hs /\ (2 <= size c)%nat /\
      forall c', c' ∈ cs -> c' <> c -> c ## c'.
Proof.
  intros Hd HB HS.
  destruct (find_clusters_spec hs B d Hd HB HS) as (fuel0 & H).
  exists fuel0. intros fuel Hfuel.
  destruct (H fuel Hfuel) as (M & cs & Hfc & HM & HD & HU & HC & HN).
  exists cs. split; [exact Hfc |]. split; [now apply disjoint_NoDup |].
  intros c Hc.
  assert (forall k, k ∈ c -> exists b, edge M k b /\ b ∈ c /\ k <> b /\ k ∈ hs)
    as Hnb.
  { intros k Hk. destruct (proj1 (HU k)) as (b & Hb); [now exists c |].
    exists b. split; [exact Hb |].
    split; [apply (HC c k Hc Hk); now apply rtc_once |].
    destruct Hb as [Hb | Hb]; apply HM in Hb; (split; [lia | easy]). }
  split; [| split].
  - intros k Hk. now destruct (Hnb k Hk) as (_ & _ & _ & _ & Hin).
  - destruct (HN c Hc) as (k & Hk). destruct (Hnb k Hk) as (b & _ & Hb & Hne & _).
    assert ({[k; b]} ⊆ c) as Hsub.
    { intros x Hx. apply elem_of_union in Hx as [Hx | Hx];
        apply elem_of_singleton in Hx as ->; assumption. }
    apply subseteq_size in Hsub.
    rewrite size_union, !size_singleton in Hsub
      by (apply disjoint_singleton_l, not_elem_of_singleton; exact Hne).
    exact Hsub.
  - intros c' Hc' Hne.
    apply list_elem_of_lookup in Hc as (i & Hi).
    apply list_elem_of_lookup in Hc' as (j & Hj).
    apply (HD i j c c' Hi Hj). intros ->. congruence.
Qed.

(** X8.  No near pair, no cluster.  When no two distinct fingerprints of
    [S] are within distance [d] (for instance when [S] is empty or a
    singleton), [find_clusters] returns the empty list. *)
Theorem find_clusters_no_near_pair (hs : gset Z) (B d : nat) :
  (d < B)%nat -> (B <= 64)%nat -> (forall h, h ∈ hs -> is_hash h) ->
  (forall x y, x ∈ hs -> y ∈ hs -> x <> y ->
               (d < popcount (Z.lxor x y))%nat) ->
  exists fuel0, forall fuel, (fuel0 <= fuel)%nat ->
    find_clusters set_order map_order matches_order fuel hs B d
      = Some (Ok []).
Proof.
  intros Hd HB HS Hfar.
  destruct (find_clusters_spec hs B d Hd HB HS) as (fuel0 & H).
  exists fuel0. intros fuel Hfuel.
  destruct (H fuel Hfuel) as (M & cs & Hfc & HM & _ & HU & _ & HN).
  rewrite Hfc. destruct cs as [|c cs]; [reflexivity | exfalso].
  destruct (HN c ltac:(left)) as (k & Hk).
  destruct (proj1 (HU k)) as (b & Hb); [exists c; split; [left | exact Hk] |].
  destruct Hb as [Hb | Hb]; apply HM in Hb as (Hlt & Hx & Hy & Hp).
  - pose proof (Hfar k b Hx Hy ltac:(lia)). lia.
  - pose proof (Hfar b k Hx Hy ltac:(lia)). lia.
Qed.

End ClusterTheorems.

Section ClusterWitnesses.
Local Open Scope Z_scope.

Lemma find_clusters_components_witness :
  exists fuel0, forall fuel, (fuel0 <= fuel)%nat ->
  exists cs : clusters_t,
    find_clusters elements map_to_list elements fuel {[0; 1; 3; 7]} 4%nat 1%nat
      = Some (Ok cs) /\
    (forall x y, x ∈ ({[0; 1; 3; 7]} : gset Z) ->
       y ∈ ({[0; 1; 3; 7]} : gset Z) -> x <> y ->
       (popcount (Z.lxor x y) <= 1)%nat ->
       exists c, c ∈ cs /\ x ∈ c /\ y ∈ c) /\
    (forall c (a : Z), c ∈ cs -> a ∈ c ->
       forall b, b ∈ c <->
         rtc (fun u v => u ∈ ({[0; 1; 3; 7]} : gset Z) /\
                         v ∈ ({[0; 1; 3; 7]} : gset Z) /\ u <> v /\
                         (popcount (Z.lxor u v) <= 1)%nat) a b).
Proof.
  apply (find_clusters_components elements map_to_list elements);
    [intros X; reflexivity | intros m; reflexivity | intros X; reflexivity
    | lia | lia |].
  intros h Hh. unfold is_hash. set_unfold in Hh. lia.
Defined.

Lemma find_clusters_members_witness :
  exists fuel0, forall fuel, (fuel0 <= fuel)%nat ->
  exists cs : clusters_t,
    find_clusters elements map_to_list elements fuel {[0; 1; 3; 7]} 4%nat 1%nat
      = Some (Ok cs) /\
    NoDup cs /\
    forall c, c ∈ cs ->
      c ⊆ {[0; 1; 3; 7]} /\ (2 <= size c)%nat /\
      forall c', c' ∈ cs -> c' <> c -> c ## c'.
Proof.
  apply (find_clusters_members elements map_to_list elements);
    [intros X; reflexivity | intros m; reflexivity | intros X; reflexivity
    | lia | lia |].
  intros h Hh. unfold is_hash. set_unfold in Hh. lia.
Defined.

Lemma find_clusters_no_near_pair_witness :
  exists fuel0, forall fuel, (fuel0 <= fuel)%nat ->
    find_clusters elements map_to_list elements fuel {[0; 7]} 4%nat 2%nat
      = Some (Ok []).
Proof.
  apply (find_clusters_no_near_pair elements map_to_list elements);
    [intros X; reflexivity | intros m; reflexivity | intros X; reflexivity
    | lia | lia | |].
  - intros h Hh. unfold is_hash. set_unfold in Hh. lia.
  - intros x y Hx Hy Hne. set_unfold in Hx. set_unfold in Hy.
    destruct Hx as [-> | ->]; destruct Hy as [-> | ->];
      try congruence; vm_compute; lia.
Defined.

End ClusterWitnesses.

Section ClusterOrders.
Local Open Scope Z_scope.

(** X9.  The clustering does not depend on the iteration orders.  Run with
    two different choices of the orders in which the unordered containers
    (neighbour sets, node map, match set) are traversed, [find_clusters]
    returns the same clusters, possibly listed in a different order. *)
Theorem find_clusters_orders_irrelevant
    (so1 so2 : gset Z -> list Z)
    (mo1 mo2 : gmap Z (gset Z) -> list (Z * gset Z))
    (mao1 mao2 : gset match_t -> list match_t)
    (hs : gset Z) (B d : nat) :
  (forall X, so1 X ≡ₚ elements X) -> (forall X, so2 X ≡ₚ elements X) ->
  (forall m, mo1 m ≡ₚ map_to_list m) -> (forall m, mo2 m ≡ₚ map_to_list m) ->
  (forall X, mao1 X ≡ₚ elements X) -> (forall X, mao2 X ≡ₚ elements X) ->
  (d < B)%nat -> (B <= 64)%nat ->
  exists fuel0, forall fuel, (fuel0 <= fuel)%nat ->
  exists cs1 cs2 : clusters_t,
    find_clusters so1 mo1 mao1 fuel hs B d = Some (Ok cs1) /\
    find_clusters so2 mo2 mao2 fuel hs B d = Some (Ok cs2) /\
    cs1 ≡ₚ cs2.
Proof.
  intros Hs1 Hs2 Hm1 Hm2 Ha1 Ha2 Hd HB.
  set (M := fold_left (process_permutation (elements hs) d) (family B d) ∅).
  destruct (clusters_of_components so1 mo1 mao1 Hs1 Hm1 Ha1 M) as (f1 & H1).
  destruct (clusters_of_components so2 mo2 mao2 Hs2 Hm2 Ha2 M) as (f2 & H2).
  exists (binomial B d + f1 + f2)%nat. intros fuel Hfuel.
  destruct (H1 fuel ltac:(lia)) as (cs1 & Hc1 & D1 & U1 & C1 & N1).
  destruct (H2 fuel ltac:(lia)) as (cs2 & Hc2 & D2 & U2 & C2 & N2).
  assert (find_all fuel hs B d = Some (Ok M)) as Hfa.
  { unfold find_all, find_all_list.
    now rewrite create_ok by (unfold BITS; lia). }
  exists cs1, cs2.
  split; [unfold find_clusters; now rewrite Hfa, Hc1 |].
  split; [unfold find_clusters; now rewrite Hfa, Hc2 |].
  assert (forall csa csb : clusters_t,
            (forall k : Z, (exists c, c ∈ csa /\ k ∈ c) <-> endpoint M k) ->
            (forall k : Z, (exists c, c ∈ csb /\ k ∈ c) <-> endpoint M k) ->
            (forall c (a : Z), c ∈ csa -> a ∈ c ->
               forall b, b ∈ c <-> connected M a b) ->
            (forall c (a : Z), c ∈ csb -> a ∈ c ->
               forall b, b ∈ c <-> connected M a b) ->
            (forall c, c ∈ csa -> exists k : Z, k ∈ c) ->
            forall c, c ∈ csa -> c ∈ csb) as Hincl.
  { intros csa csb Ua Ub Ca Cb Na c Hc.
    destruct (Na c Hc) as (k & Hk).
    destruct (proj2 (Ub k)) as (c' & Hc' & Hk');
      [apply Ua; now exists c |].
    replace c with c'; [exact Hc' |].
    apply set_eq. intros b.
    now rewrite (Ca c k Hc Hk b), (Cb c' k Hc' Hk' b). }
  apply NoDup_Permutation.
  - now apply disjoint_NoDup.
  - now apply disjoint_NoDup.
  - intros c. split; [now apply Hincl | now apply Hincl].
Qed.

Lemma find_clusters_orders_irrelevant_witness :
  exists fuel0, forall fuel, (fuel0 <= fuel)%nat ->
  exists cs1 cs2 : clusters_t,
    find_clusters elements map_to_list elements fuel
      {[0; 1; 3; 7; 255; 254]} 4%nat 1%nat = Some (Ok cs1) /\
    find_clusters (fun X => rev (elements X))
      (fun m => rev (map_to_list m)) (fun X => rev (elements X)) fuel
      {[0; 1; 3; 7; 255; 254]} 4%nat 1%nat = Some (Ok cs2) /\
    cs1 ≡ₚ cs2.
Proof.
  apply (find_clusters_orders_irrelevant
           elements (fun X => rev (elements X))
           map_to_list (fun m => rev (map_to_list m))
           elements (fun X => rev (elements X)));
    [intros X; reflexivity | intros X; symmetry; apply Permutation_rev
    | intros m; reflexivity | intros m; symmetry; apply Permutation_rev
    | intros X; reflexivity | intros X; symmetry; apply Permutation_rev
    | lia | lia].
Defined.

End ClusterOrders.

(** * The distance and the fold, as a user sees them *)

Section Distance.
Local Open Scope Z_scope.

Lemma count_bits_lxor_triangle a b c : forall s n,
  (count_bits (Z.lxor a c) s n <=
   count_bits (Z.lxor a b) s n + count_bits (Z.lxor b c) s n)%nat.
Proof.
  intros s n. revert s.
  induction n as [|n IH]; intros s; cbn [count_bits]; [lia |].
  specialize (IH (s + 1)). rewrite !Z.lxor_spec.
  destruct (Z.testbit a s), (Z.testbit b s), (Z.testbit c s); simpl; lia.
Qed.

Lemma popcount_lxor_zero a b :
  is_hash a -> is_hash b -> popcount (Z.lxor a b) = 0%nat <-> a = b.
Proof.
  intros Ha Hb. split.
  - intros H0. apply Z.lxor_eq_0_iff.
    destruct (Z.eq_dec (Z.lxor a b) 0) as [|Hne]; [assumption |].
    pose proof (popcount_pos (Z.lxor a b) (is_hash_lxor a b Ha Hb) Hne). lia.
  - intros ->. rewrite Z.lxor_nilpotent. apply popcount_zero.
Qed.

(** X10.  The bit-clearing loop computes the Hamming distance: for 64-bit
    [a] and [b], [num_differing_bits(a, b)] is the number of bit positions
    [0 .. 63] at which [a] and [b] differ, a number between 0 and 64. *)
Theorem num_differing_bits_hamming (a b : Z) :
  is_hash a -> is_hash b ->
  num_differing_bits a b =
    length (filter (fun i => Z.testbit a (Z.of_nat i) <> Z.testbit b (Z.of_nat i))
              (seq 0 64)) /\
  num_differing_bits a b = popcount (Z.lxor a b) /\
  (num_differing_bits a b <= 64)%nat.
Proof.
  intros Ha Hb. rewrite (num_differing_bits_popcount a b Ha Hb).
  split; [| split; [reflexivity | apply count_bits_le]].
  unfold popcount, BITS.
  assert (forall n s,
            count_bits (Z.lxor a b) (Z.of_nat s) n =
            length (filter (fun i => Z.testbit a (Z.of_nat i)
                                     <> Z.testbit b (Z.of_nat i)) (seq s n)))
    as Hgen.
  { induction n as [|n IH]; intros s; [reflexivity |].
    cbn [count_bits seq]. rewrite filter_cons.
    replace (Z.of_nat s + 1) with (Z.of_nat (S s)) by lia.
    rewrite IH, Z.lxor_spec.
    destruct (decide (Z.testbit a (Z.of_nat s) <> Z.testbit b (Z.of_nat s)))
      as [Hd | Hd];
      destruct (Z.testbit a (Z.of_nat s)), (Z.testbit b (Z.of_nat s));
      simpl; first [congruence | exfalso; apply Hd; discriminate]. }
  exact (Hgen 64%nat 0%nat).
Qed.

Lemma num_differing_bits_hamming_witness :
  num_differing_bits 5 3 =
    length (filter (fun i => Z.testbit 5 (Z.of_nat i) <> Z.testbit 3 (Z.of_nat i))
              (seq 0 64)) /\
  num_differing_bits 5 3 = popcount (Z.lxor 5 3) /\
  (num_differing_bits 5 3 <= 64)%nat.
Proof.
  apply (num_differing_bits_hamming 5 3); unfold is_hash; lia.
Defined.

(** X11.  [num_differing_bits] is a metric on the 64-bit words: it is zero
    exactly for equal arguments, symmetric, and satisfies the triangle
    inequality. *)
Theorem num_differing_bits_metric (a b c : Z) :
  is_hash a -> is_hash b -> is_hash c ->
  (num_differing_bits a b = 0%nat <-> a = b) /\
  num_differing_bits a b = num_differing_bits b a /\
  (num_differing_bits a c <=
   num_differing_bits a b + num_differing_bits b c)%nat.
Proof.
  intros Ha Hb Hc.
  rewrite !num_differing_bits_popcount by assumption.
  split; [now apply popcount_lxor_zero |].
  split; [now rewrite Z.lxor_comm |].
  apply count_bits_lxor_triangle.
Qed.

Lemma num_differing_bits_metric_witness :
  (num_differing_bits 12 10 = 0%nat <-> 12 = 10) /\
  num_differing_bits 12 10 = num_differing_bits 10 12 /\
  (num_differing_bits 12 255 <=
   num_differing_bits 12 10 + num_differing_bits 10 255)%nat.
Proof.
  apply (num_differing_bits_metric 12 10 255); unfold is_hash; lia.
Defined.

End Distance.

Section Fold.
Local Open Scope Z_scope.

Lemma compute_is_hash hashes : is_hash (compute hashes).
Proof.
  apply is_hash_bits.
  - intros k Hk. now apply compute_nonneg_high.
  - unfold compute. now apply result_steps_nonneg.
Qed.

Lemma signed_count_cons i h hashes :
  signed_count i (h :: hashes) =
  signed_count i hashes + (if Z.testbit h i then 1 else -1).
Proof. reflexivity. Qed.

Lemma signed_count_perm i l1 l2 :
  l1 ≡ₚ l2 -> signed_count i l1 = signed_count i l2.
Proof.
  induction 1 as [| x l1 l2 _ IH | x y l | l1 l2 l3 _ IH1 _ IH2].
  - reflexivity.
  - rewrite !signed_count_cons. now rewrite IH.
  - rewrite !signed_count_cons. lia.
  - now rewrite IH1.
Qed.

Lemma signed_count_replicate i h (n : nat) :
  signed_count i (replicate n h) =
  if Z.testbit h i then Z.of_nat n else - Z.of_nat n.
Proof.
  induction n as [|n IH]; [now destruct (Z.testbit h i) |].
  cbn [replicate]. rewrite signed_count_cons, IH.
  destruct (Z.testbit h i); lia.
Qed.

Lemma signed_count_app i l1 l2 :
  signed_count i (l1 ++ l2) = signed_count i l1 + signed_count i l2.
Proof.
  induction l1 as [|h l1 IH]; [reflexivity |].
  cbn [app]. rewrite !signed_count_cons, IH. lia.
Qed.

(** Two folds are equal when their signed counts have the same sign at
    every position. *)
Lemma compute_ext l1 l2 :
  Z.of_nat (length l1) < 2 ^ 63 -> Z.of_nat (length l2) < 2 ^ 63 ->
  (forall i, 0 <= i < 64 ->
     (0 <? signed_count i l1) = (0 <? signed_count i l2)) ->
  compute l1 = compute l2.
Proof.
  intros H1 H2 Hs.
  apply hash_eq_bits; [apply compute_is_hash | apply compute_is_hash |].
  intros k Hk. rewrite !compute_testbit by assumption. now apply Hs.
Qed.

(** X12.  The fold does not depend on the order of the features: two
    feature vectors that are permutations of each other have the same
    fingerprint. *)
Theorem compute_order_irrelevant (l1 l2 : list Z) :
  Z.of_nat (length l1) < 2 ^ 63 -> l1 ≡ₚ l2 ->
  compute l1 = compute l2.
Proof.
  intros Hlen Hp. apply compute_ext; [exact Hlen | |].
  - now rewrite <- (Permutation_length Hp).
  - intros i _. now rewrite (signed_count_perm i l1 l2 Hp).
Qed.

Lemma compute_order_irrelevant_witness :
  compute [1; 6; 12] = compute [12; 1; 6].
Proof.
  apply (compute_order_irrelevant [1; 6; 12] [12; 1; 6]);
    [vm_compute; reflexivity |].
  apply NoDup_Permutation;
    [apply (bool_decide_unpack (NoDup [1; 6; 12])); vm_compute; exact I
    | apply (bool_decide_unpack (NoDup [12; 1; 6])); vm_compute; exact I |].
  intros x. rewrite !elem_of_cons, !elem_of_nil. lia.
Defined.

(** X13.  Unanimous features.  The fingerprint of any positive number of
    copies of one 64-bit feature hash [h] is [h] itself; in particular
    [compute({h}) = h]. *)
Theorem compute_replicate (n : nat) (h : Z) :
  (0 < n)%nat -> Z.of_nat n < 2 ^ 63 -> is_hash h ->
  compute (replicate n h) = h.
Proof.
  intros Hn Hlen Hh.
  apply hash_eq_bits; [apply compute_is_hash | exact Hh |].
  intros k Hk.
  rewrite compute_testbit by (rewrite ?length_replicate; assumption).
  rewrite signed_count_replicate.
  destruct (Z.testbit h k); [apply Z.ltb_lt | apply Z.ltb_ge]; lia.
Qed.

Lemma compute_replicate_witness :
  compute (replicate 3 81985529216486895) = 81985529216486895.
Proof.
  apply (compute_replicate 3 81985529216486895);
    [lia | vm_compute; reflexivity | unfold is_hash; lia].
Defined.

(** X14.  Three features: the fingerprint of three 64-bit feature hashes
    is their bitwise majority, [(a & b) | (a & c) | (b & c)]. *)
Theorem compute_majority_of_three (a b c : Z) :
  is_hash a -> is_hash b -> is_hash c ->
  compute [a; b; c] =
  Z.lor (Z.land a b) (Z.lor (Z.land a c) (Z.land b c)).
Proof.
  intros Ha Hb Hc.
  apply hash_eq_bits; [apply compute_is_hash | |].
  - apply is_hash_lor; [| apply is_hash_lor]; now apply is_hash_land_r.
  - intros k Hk. rewrite compute_testbit by (cbn; lia).
    rewrite !Z.lor_spec, !Z.land_spec, !signed_count_cons.
    change (signed_count k []) with 0.
    destruct (Z.testbit a k), (Z.testbit b k), (Z.testbit c k); reflexivity.
Qed.

Lemma compute_majority_of_three_witness :
  compute [12; 10; 6] = Z.lor (Z.land 12 10) (Z.lor (Z.land 12 6) (Z.land 10 6)).
Proof.
  apply (compute_majority_of_three 12 10 6); unfold is_hash; lia.
Defined.

(** X15.  Ties clear the bit, so a balanced pair cancels: appending a
    feature hash and its 64-bit complement to a feature vector does not
    change the fingerprint, and the fingerprint of two features is their
    bitwise and. *)
Theorem compute_balanced_pair (l : list Z) (h a b : Z) :
  Z.of_nat (length l) + 2 < 2 ^ 63 -> is_hash h -> is_hash a -> is_hash b ->
  compute (l ++ [h; Z.lxor h (2 ^ 64 - 1)]) = compute l /\
  compute [a; b] = Z.land a b.
Proof.
  intros Hlen Hh Ha Hb. split.
  - apply compute_ext.
    + rewrite length_app. cbn [length]. lia.
    + lia.
    + intros i Hi. rewrite signed_count_app, !signed_count_cons.
      change (signed_count i []) with 0. rewrite Z.lxor_spec.
      replace (2 ^ 64 - 1) with (Z.ones 64) by reflexivity.
      rewrite Z.ones_spec_low by lia.
      destruct (Z.testbit h i); simpl; f_equal; lia.
  - apply hash_eq_bits;
      [apply compute_is_hash | now apply is_hash_land_r |].
    intros k Hk. rewrite compute_testbit by (cbn; lia).
    rewrite Z.land_spec, !signed_count_cons.
    change (signed_count k []) with 0.
    destruct (Z.testbit a k), (Z.testbit b k); reflexivity.
Qed.

Lemma compute_balanced_pair_witness :
  compute ([7; 7; 9] ++ [5; Z.lxor 5 (2 ^ 64 - 1)]) = compute [7; 7; 9] /\
  compute [12; 10] = Z.land 12 10.
Proof.
  apply (compute_balanced_pair [7; 7; 9] 5 12 10);
    [vm_compute; reflexivity | unfold is_hash; lia | unfold is_hash; lia
    | unfold is_hash; lia].
Defined.

End Fold.

(** * Combinations, blocks and tables *)

Section ChooseAny.
Local Open Scope nat_scope.

Lemma combs_all {A} (l : list A) : combs (length l) l = [l].
Proof.
  induction l as [|x l IH]; [reflexivity |].
  cbn [length combs]. rewrite IH, combs_short by lia. reflexivity.
Qed.



(** X17.  [choose] throws [std::invalid_argument] exactly when more
    elements are requested than the population has; the check precedes the
    loop, so the outcome does not depend on the fuel. *)
Theorem choose_throws_iff (fuel : nat) (population : list Z) (r : nat) :
  choose fuel population r = Some InvalidArgument <-> length population < r.
Proof.
  split.
  - unfold choose. destruct (Nat.ltb_spec (length population) r) as [H | H];
      [intros _; exact H |].
    destruct (choose_loop _ _ _ _ _ _ _); discriminate.
  - apply choose_invalid.
Qed.

(** X18.  Edge cases of [choose]: asking for no element yields the single
    empty combination, asking for all [n] elements yields the population
    itself as the only combination; one round of the loop suffices. *)
Theorem choose_edge_cases (fuel : nat) (population : list Z) :
  0 < fuel ->
  choose fuel population 0 = Some (Ok [[]]) /\
  choose fuel population (length population) = Some (Ok [population]).
Proof.
  intros Hfuel. split.
  - rewrite choose_spec by (rewrite ?binomial_0_r; lia).
    now rewrite combs_0.
  - rewrite choose_spec by (rewrite ?binomial_diag; lia).
    now rewrite combs_all.
Qed.

Lemma choose_edge_cases_witness :
  choose 1 [4; 2; 4]%Z 0 = Some (Ok [[]]) /\
  choose 1 [4; 2; 4]%Z (length [4; 2; 4]%Z) = Some (Ok [[4; 2; 4]%Z]).
Proof. apply (choose_edge_cases 1 [4; 2; 4]%Z). lia. Defined.

End ChooseAny.

Section BlockMasks.
Local Open Scope Z_scope.

Lemma mask_union_is_hash ms : Forall is_hash ms -> is_hash (mask_union ms).
Proof.
  induction 1 as [|m ms Hm _ IH]; [unfold is_hash; cbn; lia |].
  cbn [mask_union foldr]. now apply is_hash_lor.
Qed.

(** The masks of a tiling cover the word and do not overlap. *)
Lemma partition_union masks :
  partition64 masks -> mask_union masks = 2 ^ 64 - 1.
Proof.
  intros (Hc & _ & _ & Hcov & _).
  apply hash_eq_bits.
  - apply mask_union_is_hash. eapply Forall_impl; [exact Hc |].
    intros m. apply contiguous_is_hash.
  - unfold is_hash. lia.
  - intros k Hk. replace (2 ^ 64 - 1) with (Z.ones 64) by reflexivity.
    rewrite Z.ones_spec_low by lia.
    apply mask_union_testbit. destruct (Hcov k Hk) as (m & Hm & Hb). eauto.
Qed.

Lemma partition_disjoint masks (i j : nat) m1 m2 :
  partition64 masks ->
  masks !! i = Some m1 -> masks !! j = Some m2 -> i <> j ->
  Z.land m1 m2 = 0.
Proof.
  intros (_ & Hnd & Hdis & _ & _) Hi Hj Hne.
  apply Z.bits_inj'. intros k _. rewrite Z.land_spec, Z.bits_0.
  destruct (Z.testbit m1 k) eqn:E1, (Z.testbit m2 k) eqn:E2; try reflexivity.
  exfalso. apply Hne.
  assert (m1 = m2) as Heq
    by (apply (Hdis m1 m2 k);
        [exact (list_elem_of_lookup_2 _ _ _ Hi)
        | exact (list_elem_of_lookup_2 _ _ _ Hj) | exact E1 | exact E2]).
  subst m2. exact (proj1 (NoDup_alt masks) Hnd i j m1 Hi Hj).
Qed.

Lemma partition_nonzero masks m :
  partition64 masks -> m ∈ masks -> m <> 0.
Proof.
  intros (Hc & _) Hm ->.
  pose proof (proj1 (Forall_forall _ _) Hc 0 Hm) as H0.
  pose proof (contiguous_bounds 0 H0) as Hb.
  assert (Z.testbit 0 (mask_lo 0) = true) as Ht
    by (apply (contiguous_testbit_true 0 _ H0); lia).
  rewrite Z.bits_0 in Ht. discriminate.
Qed.

(** X19.  The blocks tile the word.  Every permutation returned by
    [create(B, d)] carries [B] forward masks, a rearrangement of the [B]
    block masks; they are non-zero, pairwise disjoint
    ([m1 & m2 = 0]) and their union is [2^64 - 1]. *)
Theorem create_masks_tile (fuel : nat) (B d : nat) ps p :
  create fuel B d = Some (Ok ps) -> p ∈ ps ->
  length (forward_masks p) = B /\
  forward_masks p ≡ₚ make_blocks B /\
  mask_union (forward_masks p) = 2 ^ 64 - 1 /\
  (forall (i j : nat) m1 m2,
     forward_masks p !! i = Some m1 -> forward_masks p !! j = Some m2 ->
     i <> j -> Z.land m1 m2 = 0) /\
  (forall m, m ∈ forward_masks p -> m <> 0).
Proof.
  intros Hc Hp.
  destruct (family_member fuel B d ps p Hc Hp)
    as (HB & c & Hs & Hl & -> & Hpart).
  rewrite forward_masks_new.
  split; [apply family_masks_length; [lia | exact Hs] |].
  split; [apply family_masks_perm; [unfold BITS; lia | exact Hs] |].
  split; [now apply partition_union |].
  split.
  - intros i j m1 m2. now apply partition_disjoint.
  - intros m. now apply partition_nonzero.
Qed.

Lemma create_masks_tile_witness :
  exists p ps, create 6 4 2 = Some (Ok ps) /\ p ∈ ps /\
  length (forward_masks p) = 4%nat /\
  forward_masks p ≡ₚ make_blocks 4 /\
  mask_union (forward_masks p) = 2 ^ 64 - 1 /\
  (forall (i j : nat) m1 m2,
     forward_masks p !! i = Some m1 -> forward_masks p !! j = Some m2 ->
     i <> j -> Z.land m1 m2 = 0) /\
  (forall m, m ∈ forward_masks p -> m <> 0).
Proof.
  exists (new_Permutation 2 (family_masks 4 (take 2 (make_blocks 4)))).
  eexists. split; [vm_compute; reflexivity |].
  split; [left |].
  apply (create_masks_tile 6 4 2
           (family 4 2)
           (new_Permutation 2 (family_masks 4 (take 2 (make_blocks 4)))));
    [vm_compute; reflexivity | left].
Defined.

Lemma block_width_cases (B i : nat) :
  (0 < B)%nat ->
  ((i + 1) * 64 / B = i * 64 / B + 64 / B \/
   (i + 1) * 64 / B = i * 64 / B + 64 / B + 1)%nat.
Proof.
  intros HB.
  pose proof (Nat.div_mod_eq (i * 64) B) as E1.
  pose proof (Nat.mod_upper_bound (i * 64) B ltac:(lia)) as U1.
  pose proof (Nat.div_mod_eq ((i + 1) * 64) B) as E2.
  pose proof (Nat.mod_upper_bound ((i + 1) * 64) B ltac:(lia)) as U2.
  pose proof (Nat.div_mod_eq 64 B) as E3.
  pose proof (Nat.mod_upper_bound 64 B ltac:(lia)) as U3.
  set (x := (i * 64 / B)%nat) in *. set (y := ((i + 1) * 64 / B)%nat) in *.
  set (q := (64 / B)%nat) in *.
  assert (y < x + q + 2)%nat by nia.
  assert (x + q < y + 1)%nat by nia.
  lia.
Qed.

Lemma block_width_exact (B i : nat) :
  (0 < B)%nat -> (64 mod B = 0)%nat ->
  ((i + 1) * 64 / B = i * 64 / B + 64 / B)%nat.
Proof.
  intros HB Hm.
  pose proof (Nat.div_mod_eq 64 B) as E3. rewrite Hm in E3.
  set (q := (64 / B)%nat) in *.
  replace ((i + 1) * 64)%nat with (((i + 1) * q) * B)%nat by nia.
  replace (i * 64)%nat with ((i * q) * B)%nat by nia.
  rewrite !Nat.div_mul by lia. lia.
Qed.

Lemma block_popcount (B i : nat) :
  (0 < B <= 64)%nat -> (i < B)%nat ->
  popcount (block_mask B i) = ((i + 1) * 64 / B - i * 64 / B)%nat.
Proof.
  intros HB Hi.
  pose proof (contiguous_popcount _
                (block_mask_contiguous B i ltac:(unfold BITS; lia) Hi)) as Hp.
  unfold mask_width in Hp.
  rewrite block_mask_lo, block_mask_hi in Hp by (unfold BITS; lia).
  unfold BITS in Hp.
  pose proof (block_bounds B i ltac:(unfold BITS; lia) Hi) as Hb.
  unfold BITS in Hb. lia.
Qed.

(** X20.  The blocks are balanced.  For [0 < B <= 64] every block mask
    built by [create] has [floor(64 / B)] or [floor(64 / B) + 1] set bits
    (exactly [64 / B] when [B] divides 64), no block is empty, and the
    widths add up to 64. *)
Theorem block_widths_balanced (B : nat) (m : Z) :
  (0 < B <= 64)%nat -> m ∈ make_blocks B ->
  (popcount m = (64 / B)%nat \/ popcount m = (64 / B + 1)%nat) /\
  ((64 mod B = 0)%nat -> popcount m = (64 / B)%nat) /\
  (0 < popcount m)%nat /\
  sum_list (map popcount (make_blocks B)) = 64%nat.
Proof.
  intros HB Hm. unfold make_blocks in Hm.
  apply list_elem_of_fmap in Hm as (i & -> & Hi). apply elem_of_seq in Hi.
  rewrite block_popcount by lia.
  pose proof (block_bounds B i ltac:(unfold BITS; lia) ltac:(lia)) as Hb.
  unfold BITS in Hb.
  split; [destruct (block_width_cases B i ltac:(lia)); lia |].
  split; [intros Hmod; rewrite (block_width_exact B i) by (lia || exact Hmod);
          lia |].
  split; [lia |].
  destruct (make_blocks_partition B ltac:(unfold BITS; lia))
    as (Hc & _ & _ & _ & Htot).
  rewrite (total_width_popcount _ Hc) in Htot. lia.
Qed.

Lemma block_widths_balanced_witness :
  (popcount (block_mask 3 1) = (64 / 3)%nat \/
   popcount (block_mask 3 1) = (64 / 3 + 1)%nat) /\
  ((64 mod 3 = 0)%nat -> popcount (block_mask 3 1) = (64 / 3)%nat) /\
  (0 < popcount (block_mask 3 1))%nat /\
  sum_list (map popcount (make_blocks 3)) = 64%nat.
Proof.
  apply (block_widths_balanced 3 (block_mask 3 1)); [lia |].
  right. left.
Defined.

(** X21.  The tables of a permutation.  Every permutation returned by
    [create(B, d)] holds [B] forward masks, [B] reverse masks and [B]
    offsets, and every offset lies strictly between [-64] and [64]: no
    shift of [apply] or [reverse] moves a word by the width of the word
    or more. *)
Theorem family_offsets_in_range (fuel : nat) (B d : nat) ps p :
  create fuel B d = Some (Ok ps) -> p ∈ ps ->
  length (forward_masks p) = B /\
  length (reverse_masks p) = B /\
  length (offsets p) = B /\
  forall o, o ∈ offsets p -> -64 < o < 64.
Proof.
  intros Hc Hp.
  destruct (family_member fuel B d ps p Hc Hp)
    as (HB & c & Hs & Hl & -> & Hpart).
  rewrite forward_masks_new, reverse_masks_new, offsets_new.
  rewrite !length_map, layout_length.
  rewrite family_masks_length by (lia || exact Hs).
  split; [reflexivity |]. split; [reflexivity |]. split; [reflexivity |].
  intros o Ho. apply list_elem_of_fmap in Ho as (mo & -> & Hmo).
  destruct (tiling_entry_ok _ Hpart mo Hmo) as (Hcont & Hlo & Hhi).
  pose proof (contiguous_bounds _ Hcont). lia.
Qed.

Lemma family_offsets_in_range_witness :
  exists p ps, create 6 4 2 = Some (Ok ps) /\ p ∈ ps /\
  length (forward_masks p) = 4%nat /\
  length (reverse_masks p) = 4%nat /\
  length (offsets p) = 4%nat /\
  forall o, o ∈ offsets p -> -64 < o < 64.
Proof.
  exists (new_Permutation 2 (family_masks 4 (take 2 (make_blocks 4)))).
  eexists. split; [vm_compute; reflexivity |].
  split; [left |].
  apply (family_offsets_in_range 6 4 2
           (family 4 2)
           (new_Permutation 2 (family_masks 4 (take 2 (make_blocks 4)))));
    [vm_compute; reflexivity | left].
Defined.

Lemma land_agree_lxor x y m :
  Z.land x m = Z.land y m -> Z.land (Z.lxor x y) m = 0.
Proof.
  intros H. apply Z.bits_inj'. intros k _.
  assert (Z.testbit (Z.land x m) k = Z.testbit (Z.land y m) k) as Hk
    by now rewrite H.
  rewrite !Z.land_spec in Hk. rewrite Z.land_spec, Z.lxor_spec, Z.bits_0.
  destruct (Z.testbit x k), (Z.testbit y k), (Z.testbit m k);
    simpl in *; congruence.
Qed.

(** X22.  What the search prefix compares.  For a permutation [p] returned
    by [create(B, d)], two words have the same masked prefix
    [p.apply(x) & p.search_mask()] exactly when they agree on each of the
    first [B - d] blocks of [p]. *)
Theorem search_prefix_meaning (fuel : nat) (B d : nat) ps p (x y : Z) :
  create fuel B d = Some (Ok ps) -> p ∈ ps ->
  Z.land (apply p x) (search_mask p) = Z.land (apply p y) (search_mask p) <->
  forall m, m ∈ take (B - d) (forward_masks p) -> Z.land x m = Z.land y m.
Proof.
  intros Hc Hp.
  destruct (family_member fuel B d ps p Hc Hp)
    as (HB & c & Hs & Hl & -> & Hpart).
  rewrite forward_masks_new.
  assert (take (B - d) (family_masks B c) = c) as ->
    by (unfold family_masks; rewrite <- Hl; apply take_app_length).
  destruct (make_blocks_partition B ltac:(unfold BITS; lia))
    as (Hbc & _ & _ & _ & Htot).
  assert (Forall contiguous c) as Hcc.
  { apply Forall_forall. intros m Hm.
    apply (proj1 (Forall_forall _ _) Hbc). eapply elem_of_sublist; eassumption. }
  assert (0 <= total_width c <= 64) as Hw
    by (rewrite <- Htot; now apply total_width_sub).
  split.
  - intros Heq m Hm. apply Z.bits_inj'. intros k Hk. rewrite !Z.land_spec.
    destruct (Z.testbit m k) eqn:Hb; [| now rewrite !andb_false_r].
    rewrite !andb_true_r.
    destruct (layout_src_total c 0 m Hm) as (o & Hin).
    destruct (layout_entry c 0 (m, o) Hcc ltac:(lia) ltac:(lia) Hin)
      as (Hok & _ & Hlo & Hhi).
    cbn [fst snd] in Hlo, Hhi.
    pose proof (proj1 (contiguous_testbit_true m k
                         (proj1 (Forall_forall _ _) Hcc m Hm)) Hb) as Hr.
    assert ((m, o) ∈ layout 0 (family_masks B c)) as Hin'
      by (unfold family_masks; rewrite layout_app; apply elem_of_app; now left).
    rewrite <- (apply_bit d _ Hpart (m, o) k x Hin' Hb).
    rewrite <- (apply_bit d _ Hpart (m, o) k y Hin' Hb).
    cbn [snd].
    assert (Z.testbit (Z.land (apply (new_Permutation d (family_masks B c)) x)
                         (search_mask (new_Permutation d (family_masks B c))))
              (k + o) =
            Z.testbit (Z.land (apply (new_Permutation d (family_masks B c)) y)
                         (search_mask (new_Permutation d (family_masks B c))))
              (k + o)) as Hbit by now rewrite Heq.
    rewrite !Z.land_spec, search_mask_new in Hbit.
    rewrite family_masks_length in Hbit by (lia || exact Hs).
    assert (take (B - d) (family_masks B c) = c) as Ht
      by (unfold family_masks; rewrite <- Hl; apply take_app_length).
    rewrite Ht, make_search_mask_testbit in Hbit by lia.
    replace (64 - total_width c <=? k + o) with true in Hbit
      by (symmetry; apply Z.leb_le; lia).
    replace (k + o <? 64) with true in Hbit
      by (symmetry; apply Z.ltb_lt; lia).
    now rewrite !andb_true_r in Hbit.
  - intros Hagree. apply (prefix_agree B d c x y); try (lia || assumption).
    intros m Hm. apply land_agree_lxor, Hagree, Hm.
Qed.

Lemma search_prefix_meaning_witness :
  Z.land (apply (new_Permutation 2 (family_masks 4 (take 2 (make_blocks 4)))) 5)
         (search_mask (new_Permutation 2 (family_masks 4 (take 2 (make_blocks 4)))))
  = Z.land (apply (new_Permutation 2 (family_masks 4 (take 2 (make_blocks 4)))) 7)
           (search_mask (new_Permutation 2 (family_masks 4 (take 2 (make_blocks 4)))))
  <->
  forall m,
    m ∈ take (4 - 2)
          (forward_masks
             (new_Permutation 2 (family_masks 4 (take 2 (make_blocks 4))))) ->
    Z.land 5 m = Z.land 7 m.
Proof.
  apply (search_prefix_meaning 6 4 2 (family 4 2)
           (new_Permutation 2 (family_masks 4 (take 2 (make_blocks 4)))) 5 7);
    [vm_compute; reflexivity | left].
Defined.

(** X23.  The public constructor on any tiling.  For every list of masks
    that tiles the 64 bit positions with non-empty contiguous blocks, in
    any order, and every [different_bits], the permutation built by the
    constructor is a bijection of the 64-bit words: [reverse] undoes
    [apply], [apply] undoes [reverse], and [apply] keeps the number of set
    bits. *)
Theorem tiling_permutation (d : nat) (masks : list Z) (h : Z) :
  partition64 masks -> is_hash h ->
  reverse (new_Permutation d masks) (apply (new_Permutation d masks) h) = h /\
  apply (new_Permutation d masks) (reverse (new_Permutation d masks) h) = h /\
  is_hash (apply (new_Permutation d masks) h) /\
  popcount (apply (new_Permutation d masks) h) = popcount h.
Proof.
  intros Hpart Hh.
  split; [now apply reverse_apply |].
  split; [now apply apply_reverse |].
  split; [now apply apply_is_hash |].
  now apply apply_popcount.
Qed.

Lemma tiling_permutation_witness :
  reverse (new_Permutation 1 (rev (make_blocks 3)))
    (apply (new_Permutation 1 (rev (make_blocks 3))) 81985529216486895)
  = 81985529216486895 /\
  apply (new_Permutation 1 (rev (make_blocks 3)))
    (reverse (new_Permutation 1 (rev (make_blocks 3))) 81985529216486895)
  = 81985529216486895 /\
  is_hash (apply (new_Permutation 1 (rev (make_blocks 3))) 81985529216486895) /\
  popcount (apply (new_Permutation 1 (rev (make_blocks 3))) 81985529216486895)
  = popcount 81985529216486895.
Proof.
  apply (tiling_permutation 1 (rev (make_blocks 3)) 81985529216486895).
  - apply (partition64_perm (make_blocks 3)); [apply Permutation_rev |].
    apply make_blocks_partition. unfold BITS. lia.
  - unfold is_hash. lia.
Defined.

(** X24.  Extremes of the search mask.  Built from a tiling list of
    masks, the constructor produces the mask [2^64 - 1] for
    [different_bits = 0] (the whole word is the prefix) and the mask [0]
    when [different_bits] is at least the number of masks (no prefix at
    all). *)
Theorem search_mask_extremes (d : nat) (masks : list Z) :
  partition64 masks ->
  search_mask (new_Permutation 0 masks) = 2 ^ 64 - 1 /\
  ((length masks <= d)%nat -> search_mask (new_Permutation d masks) = 0).
Proof.
  intros Hpart. rewrite !search_mask_new. split.
  - rewrite Nat.sub_0_r, firstn_all.
    destruct Hpart as (_ & _ & _ & _ & ->).
    apply hash_eq_bits.
    + apply make_search_mask_is_hash. lia.
    + unfold is_hash. lia.
    + intros k Hk. rewrite make_search_mask_testbit by lia.
      replace (2 ^ 64 - 1) with (Z.ones 64) by reflexivity.
      rewrite Z.ones_spec_low by lia.
      apply andb_true_intro. split; [apply Z.leb_le | apply Z.ltb_lt]; lia.
  - intros Hd. replace (length masks - d)%nat with 0%nat by lia.
    reflexivity.
Qed.

Lemma search_mask_extremes_witness :
  search_mask (new_Permutation 0 (make_blocks 4)) = 2 ^ 64 - 1 /\
  ((length (make_blocks 4) <= 5)%nat ->
   search_mask (new_Permutation 5 (make_blocks 4)) = 0).
Proof.
  apply (search_mask_extremes 5 (make_blocks 4)).
  apply make_blocks_partition. unfold BITS. lia.
Defined.

End BlockMasks.

(** * The command-line front end *)

Section FrontEnd.
Local Open Scope Z_scope.

Variable hasher : list Byte.byte -> Z.

Lemma window_loop_eq fuel text window i features :
  window_loop hasher (S fuel) text window i features =
  if wrap64 i <? wrap64 (Z.of_nat (length text) - Z.of_nat window)
  then
    match substr text (Z.to_nat i) window with
    | OutOfRange => Some OutOfRange
    | Returned token =>
        window_loop hasher fuel text window (i + 1) (features ++ [hasher token])
    end
  else Some (Returned features).
Proof. reflexivity. Qed.


(** The loop over a text shorter than the window: the bound wraps around
    and the loop runs until [substr] is called past the end. *)
Lemma window_loop_short text (window : nat) :
  (length text < window)%nat -> Z.of_nat window < 2 ^ 31 ->
  forall (fuel i : nat) features,
    (i <= length text + 1)%nat ->
    (length text + 1 - i < fuel)%nat ->
    window_loop hasher fuel text window (Z.of_nat i) features = Some OutOfRange.
Proof.
  intros Hw Hn. induction fuel as [|fuel IH]; intros i features Hi Hf; [lia |].
  rewrite window_loop_eq. unfold wrap64.
  rewrite (Z.mod_small (Z.of_nat i)) by lia.
  replace ((Z.of_nat (length text) - Z.of_nat window) mod 2 ^ 64)
    with (2 ^ 64 + (Z.of_nat (length text) - Z.of_nat window)).
  2: { apply Z.mod_unique with (q := -1); lia. }
  destruct (Z.ltb_spec (Z.of_nat i)
              (2 ^ 64 + (Z.of_nat (length text) - Z.of_nat window)))
    as [_ | Hge]; [| lia].
  unfold substr. rewrite Nat2Z.id.
  destruct (Nat.ltb_spec (length text) i) as [Hbad | Hok]; [reflexivity |].
  replace (Z.of_nat i + 1) with (Z.of_nat (S i)) by lia.
  apply IH; lia.
Qed.


(** X26.  A text shorter than the window.  For a text of [n < w] bytes
    the bound [text.size() - w] wraps around in [size_t]; the loop takes
    the tokens at positions [0 .. n] and then calls [substr] with a
    position past the end, which throws [std::out_of_range]: no
    fingerprint is computed. *)
Theorem text_fingerprint_short_text (fuel : nat) (text : list Byte.byte)
    (window : nat) :
  (length text < window)%nat -> Z.of_nat window < 2 ^ 31 ->
  (length text + 1 < fuel)%nat ->
  text_fingerprint hasher fuel text window = Some OutOfRange.
Proof.
  intros Hw Hn Hf. unfold text_fingerprint.
  pose proof (window_loop_short text window Hw Hn fuel 0%nat []
                ltac:(lia) ltac:(lia)) as Hl.
  change (Z.of_nat 0) with 0 in Hl. now rewrite Hl.
Qed.

End FrontEnd.

Section Arguments.
Local Open Scope nat_scope.

Local Ltac settle_checks :=
  repeat split; intros;
  repeat match goal with H : _ /\ _ |- _ => destruct H end;
  first [discriminate | reflexivity | lia | congruence | contradiction
        | assumption].

(** X27.  Arguments accepted by the front end.  When all argument checks
    of [main] pass, the distance is positive and smaller than the number
    of blocks, and input, output and format are non-empty.  The checks do
    not bound the number of blocks: the call of [find_clusters] that
    follows throws [std::invalid_argument] exactly when more than 64
    blocks were requested. *)
Theorem accepted_arguments
    (set_order : gset Z -> list Z)
    (map_order : gmap Z (gset Z) -> list (Z * gset Z))
    (matches_order : gset match_t -> list match_t)
    (blocks distance : nat) (input output format : list Byte.byte)
    (hashes : gset Z) (fuel : nat) :
  check_arguments blocks distance input output format = None ->
  0 < distance /\ distance < blocks /\
  input <> [] /\ output <> [] /\ format <> [] /\
  (find_clusters set_order map_order matches_order fuel hashes blocks distance
     = Some InvalidArgument <-> 64 < blocks).
Proof.
  unfold check_arguments. intros H.
  destruct (Nat.eqb_spec blocks 0) as [|Hb]; [discriminate |].
  destruct (Nat.eqb_spec distance 0) as [|Hd]; [discriminate |].
  destruct (decide (input = [])) as [|Hi];
    [rewrite bool_decide_eq_true_2 in H by assumption; discriminate |].
  rewrite bool_decide_eq_false_2 in H by assumption.
  destruct (decide (output = [])) as [|Ho];
    [rewrite bool_decide_eq_true_2 in H by assumption; discriminate |].
  rewrite bool_decide_eq_false_2 in H by assumption.
  destruct (Nat.leb_spec blocks distance) as [|Hlt]; [discriminate |].
  destruct (decide (format = [])) as [|Hf];
    [rewrite bool_decide_eq_true_2 in H by assumption; discriminate |].
  split; [lia |]. split; [exact Hlt |].
  split; [exact Hi |]. split; [exact Ho |]. split; [exact Hf |].
  rewrite find_clusters_invalid_iff, find_all_invalid_iff, create_invalid_iff.
  unfold BITS. lia.
Qed.

End Arguments.

Section FrontEndWitnesses.
Local Open Scope Z_scope.


Lemma text_fingerprint_short_text_witness :
  text_fingerprint (fun token => Z.of_nat (length token)) 5
    [Byte.x61; Byte.x62; Byte.x63] 5 = Some OutOfRange.
Proof.
  apply (text_fingerprint_short_text (fun token => Z.of_nat (length token)) 5
           [Byte.x61; Byte.x62; Byte.x63] 5);
    [simpl; lia | vm_compute; reflexivity | simpl; lia].
Defined.

Lemma accepted_arguments_witness :
  (0 < 3)%nat /\ (3 < 65)%nat /\
  [Byte.x2d] <> [] /\ [Byte.x2d] <> [] /\ [Byte.x68] <> [] /\
  (find_clusters elements map_to_list elements 0 {[0; 1]} 65 3
     = Some InvalidArgument <-> (64 < 65)%nat).
Proof.
  apply (accepted_arguments elements map_to_list elements 65 3
           [Byte.x2d] [Byte.x2d] [Byte.x68] {[0; 1]} 0).
  vm_compute. reflexivity.
Defined.

End FrontEndWitnesses.
